(** * Finite-difference option pricing (m.py): model and properties

    The solver classes of [m.py] are embedded as functions over explicit
    solver state: a method that mutates [self] takes the state and returns
    the new one, and the attributes that a method creates are returned by
    it.  Python exceptions are values of [result].

    Modelling choices:
    - numpy's float64 arithmetic is idealised as exact arithmetic on the
      real numbers [R] (no rounding, no overflow, no NaN); the int64
      arithmetic on indices is exact as well.  Two behaviours of Python
      floats are therefore outside the model: [sigma**2] raises
      [OverflowError] when the square exceeds [sys.float_info.max], and an
      error that has become NaN after an overflow fails the test
      [tol < error] of the American loop.  A statement that would depend
      on either carries the float range as a hypothesis or speaks of the
      test [tol < error] itself;
    - one-dimensional arrays are lists, the grid and the matrices are lists
      of rows; a matrix without rows stands for numpy's empty matrix;
    - the step counts [M] and [N] are natural numbers, and the contract
      parameters are Python numbers, so that [x / float(0)] raises;
    - [np.interp] is the library's piecewise-linear interpolation on
      increasing sample points; [scipy.linalg.lu] and [scipy.linalg.solve]
      are parameters of the Crank-Nicolson traversal;
    - the [while] loop of the American solver takes a bound on the number
      of passes and answers [None] when the bound is reached with the loop
      still running. *)

From Stdlib Require Import Reals Lra Lia ZArith.
From Stdlib Require String.
From stdpp Require Import base list.

Open Scope R_scope.

(** ** Exceptions *)

Inductive exn := ZeroDivisionError | IndexError | ValueError | LinAlgError.

Inductive result (A : Type) : Type :=
| Ok (a : A)
| Raise (e : exn).
Arguments Ok {A} a.
Arguments Raise {A} e.

Definition rbind {A B} (c : result A) (k : A -> result B) : result B :=
  match c with
  | Ok a => k a
  | Raise e => Raise e
  end.

Notation "'do' x <- c ; k" := (rbind c (fun x => k))
  (at level 10, x name, c at level 100, k at level 200).

(** ** Arrays with Python indexing *)

Module Np.

(** [l[i]] for [i >= 0]. *)
Definition get {A} (l : list A) (i : nat) : result A :=
  match l !! i with
  | Some x => Ok x
  | None => Raise IndexError
  end.

(** [l[-k]] for [k >= 1]. *)
Definition get_back {A} (l : list A) (k : nat) : result A :=
  if decide (k <= length l)%nat then get l (length l - k) else Raise IndexError.

(** [l[i] = x] for [i >= 0]. *)
Definition set {A} (l : list A) (i : nat) (x : A) : result (list A) :=
  if decide (i < length l)%nat then Ok (<[i:=x]> l) else Raise IndexError.

(** [l[-k] = x] for [k >= 1]. *)
Definition set_back {A} (l : list A) (k : nat) (x : A) : result (list A) :=
  if decide (k <= length l)%nat then set l (length l - k) x else Raise IndexError.

(** [l[lo:hi]] for [0 <= lo], [0 <= hi]. *)
Definition slice {A} (lo hi : nat) (l : list A) : list A :=
  take (hi - lo) (drop lo l).

(** [np.arange(n)], as float operands and as loop indices. *)
Definition arange (n : nat) : list R := INR <$> seq 0 n.
Definition irange (n : nat) : list nat := seq 0 n.

Definition zeros (n : nat) : list R := replicate n 0.
Definition zeros2 (rows cols : nat) : list (list R) := replicate rows (zeros cols).

(** [np.linspace(start, stop, num)]: [num] evenly spaced samples,
    [start + i * ((stop - start) / (num - 1))]. *)
Definition linspace (start stop : R) (num : nat) : list R :=
  (fun i => start + INR i * ((stop - start) / INR (num - 1))) <$> seq 0 num.

(** [np.maximum(0, v)]. *)
Definition maximum0 (v : list R) : list R := Rmax 0 <$> v.

(** The values stored by an assignment to a slice of [n] cells: the
    right-hand side has [n] entries, or one entry that is broadcast. *)
Definition broadcast_to (n : nat) (v : list R) : result (list R) :=
  if decide (length v = n) then Ok v
  else match v with
       | [x] => Ok (replicate n x)
       | _ => Raise ValueError
       end.

(** Element-wise binary operation with numpy broadcasting along one axis. *)
Definition broadcast2 {A} (f : A -> A -> result A) (u v : list A)
  : result (list (result A)) :=
  if decide (length u = length v) then Ok (zip_with f u v)
  else match u, v with
       | [x], _ => Ok (f x <$> v)
       | _, [y] => Ok ((fun x => f x y) <$> u)
       | _, _ => Raise ValueError
       end.

Fixpoint sequence {A} (l : list (result A)) : result (list A) :=
  match l with
  | [] => Ok []
  | c :: l' => do x <- c; do xs <- sequence l'; Ok (x :: xs)
  end.

Definition vec_op (f : R -> R -> R) (u v : list R) : result (list R) :=
  do l <- broadcast2 (fun x y => Ok (f x y)) u v; sequence l.

Definition mat_op (f : R -> R -> R) (A B : list (list R)) : result (list (list R)) :=
  do l <- broadcast2 (vec_op f) A B; sequence l.

Definition mat_neg (A : list (list R)) : list (list R) :=
  (fun row : list R => Ropp <$> row) <$> A.

(** [np.diag(v, k)]: the square matrix of size [len(v) + |k|] with [v] on
    the [k]-th diagonal. *)
Definition diag (v : list R) (k : Z) : list (list R) :=
  let n := (length v + Z.abs_nat k)%nat in
  (fun i =>
     (fun j =>
        if decide (Z.of_nat j - Z.of_nat i = k)%Z
        then default 0 (v !! Nat.min i j) else 0) <$> seq 0 n) <$> seq 0 n.

Definition sum (v : list R) : R := foldr Rplus 0 v.

(** [np.dot(A, v)] for a matrix and a vector. *)
Definition dot (A : list (list R)) (v : list R) : result (list R) :=
  if decide (Forall (fun row => length row = length v) A
             /\ (A = [] -> v = []))
  then Ok ((fun row => sum (zip_with Rmult row v)) <$> A)
  else Raise ValueError.

(** [np.linalg.norm(v)]: Euclidean norm. *)
Definition norm (v : list R) : R := sqrt (sum ((fun x => x * x) <$> v)).

(** [np.interp(x, xp, fp)] for increasing sample points [xp]: flat
    outside the samples, the stored value at a sample point, linear in
    between.  [search] is the scan that returns the last index [j] with
    [xp[j] <= x]. *)
Fixpoint search (x : R) (x0 : R) (y0 : R) (xp fp : list R) : R :=
  match xp, fp with
  | x1 :: xp', y1 :: fp' =>
      if Rle_dec x1 x then search x x1 y1 xp' fp'
      else if Req_dec_T x0 x then y0
      else (y1 - y0) / (x1 - x0) * (x - x0) + y0
  | _, _ => y0
  end.

Definition interp (x : R) (xp fp : list R) : result R :=
  match xp, fp with
  | x0 :: xp', y0 :: fp' =>
      if decide (length xp' = length fp') then
        if Rlt_dec (List.last xp' x0) x then Ok (List.last fp' y0)
        else if Rlt_dec x x0 then Ok y0
        else Ok (search x x0 y0 xp' fp')
      else Raise ValueError
  | _, _ => Raise ValueError
  end.

End Np.

(** ** FiniteDifferences: the shared base class *)

Record FiniteDifferences := mkFD {
  S0 : R; K : R; r : R; T : R; sigma : R; Smax : R;
  M : nat; N : nat;
  is_call : bool;
  i_values : list R;
  j_values : list nat;
  grid : list (list R);
  boundary_conds : list R
}.

(** [FiniteDifferences.__init__]. *)
Definition init (S0 K r T sigma Smax : R) (M N : nat) (is_put : bool)
  : FiniteDifferences :=
  {| S0 := S0; K := K; r := r; T := T; sigma := sigma; Smax := Smax;
     M := M; N := N;
     is_call := negb is_put;
     i_values := Np.arange M;
     j_values := Np.irange N;
     grid := Np.zeros2 (M + 1) (N + 1);
     boundary_conds := Np.linspace 0 Smax (M + 1) |}.

Definition with_grid (s : FiniteDifferences) (g : list (list R)) : FiniteDifferences :=
  {| S0 := S0 s; K := K s; r := r s; T := T s; sigma := sigma s; Smax := Smax s;
     M := M s; N := N s; is_call := is_call s;
     i_values := i_values s; j_values := j_values s;
     grid := g; boundary_conds := boundary_conds s |}.

(** Python float division [x / float(n)] of a Python number by a converted
    integer. *)
Definition pydiv (x : R) (n : nat) : result R :=
  match n with
  | O => Raise ZeroDivisionError
  | _ => Ok (x / INR n)
  end.

(** The [dS] property of the base class. *)
Definition dS (s : FiniteDifferences) : result R := pydiv (Smax s) (M s).

(** The [dt] property. *)
Definition dt (s : FiniteDifferences) : result R := pydiv (T s) (N s).

(** [grid[:,0]]. *)
Definition column (j : nat) (g : list (list R)) : result (list R) :=
  Np.sequence ((fun row => Np.get row j) <$> g).

(** [FiniteDifferences.interpolate]. *)
Definition interpolate (s : FiniteDifferences) : result R :=
  do col <- column 0 (grid s);
  Np.interp (S0 s) (boundary_conds s) col.

(** Grid cell read [grid[i,j]] and write [grid[i,j] = v]. *)
Definition grid_get (g : list (list R)) (i j : nat) : result R :=
  do row <- Np.get g i; Np.get row j.

Definition grid_set (g : list (list R)) (i j : nat) (v : R) : result (list (list R)) :=
  do row <- Np.get g i;
  do row' <- Np.set row j v;
  Np.set g i row'.

(** [grid[:,-1] = v]: the last column. *)
Definition set_last_column (g : list (list R)) (v : list R) : result (list (list R)) :=
  do v' <- Np.broadcast_to (length g) v;
  Np.sequence (zip_with (fun row x => Np.set_back row 1 x) g v').

(** [row[:-1] = v]: every cell of a row but its last. *)
Definition set_init (row : list R) (v : list R) : result (list R) :=
  do v' <- Np.broadcast_to (length row - 1) v;
  Ok (v' ++ drop (length row - 1) row).

(** [grid[-1,:-1] = v] and [grid[0,:-1] = v]. *)
Definition set_last_row_init (g : list (list R)) (v : list R) : result (list (list R)) :=
  do row <- Np.get_back g 1;
  do row' <- set_init row v;
  Np.set_back g 1 row'.

Definition set_first_row_init (g : list (list R)) (v : list R) : result (list (list R)) :=
  do row <- Np.get g 0;
  do row' <- set_init row v;
  Np.set g 0 row'.

(** A [for] loop over a list that threads the state and stops at the first
    exception. *)
Fixpoint for_each {A S} (l : list A) (body : S -> A -> result S) (st : S) : result S :=
  match l with
  | [] => Ok st
  | x :: l' => do st' <- body st x; for_each l' body st'
  end.

(** ** FDExplicitEu *)

Module FDExplicitEu.

(** [factor * np.exp(-r*dt*(N - j_values))]. *)
Definition discounted (s : FiniteDifferences) (dt : R) (factor : R) : list R :=
  (fun j => factor * exp (- r s * dt * (INR (N s) - INR j))) <$> j_values s.

Definition setup_boundary_conditions (s : FiniteDifferences) : result FiniteDifferences :=
  if is_call s then
    do g1 <- set_last_column (grid s)
               (Np.maximum0 ((fun x => x - K s) <$> boundary_conds s));
    do dt <- dt s;
    do g2 <- set_last_row_init g1 (discounted s dt (Smax s - K s));
    Ok (with_grid s g2)
  else
    do g1 <- set_last_column (grid s)
               (Np.maximum0 ((fun x => K s - x) <$> boundary_conds s));
    do dt <- dt s;
    do g2 <- set_first_row_init g1 (discounted s dt (K s - Smax s));
    Ok (with_grid s g2).

(** The attributes [a], [b], [c] created by [setup_coefficients]. *)
Record coefficients := mkCoef { a : list R; b : list R; c : list R }.

(** [sigma ^ 2] is the exact square; the [OverflowError] of Python's
    [sigma**2] beyond [sys.float_info.max] is not modelled, here and in the
    two other schemes. *)
Definition setup_coefficients (s : FiniteDifferences) : result coefficients :=
  do dt <- dt s;
  Ok {| a := (fun i => 0.5 * dt * (sigma s ^ 2 * i ^ 2 - r s * i)) <$> i_values s;
        b := (fun i => 1 - dt * (sigma s ^ 2 * i ^ 2 + r s)) <$> i_values s;
        c := (fun i => 0.5 * dt * (sigma s ^ 2 * i ^ 2 + r s * i)) <$> i_values s |}.

(** One assignment of the inner loop of [traverse_grid]; [i] is at least
    [2] there, so [i-1] is not negative. *)
Definition update (co : coefficients) (j : nat) (g : list (list R)) (i : nat)
  : result (list (list R)) :=
  do ai <- Np.get (a co) i;
  do g_down <- grid_get g (i - 1) (j + 1);
  do bi <- Np.get (b co) i;
  do g_mid <- grid_get g i (j + 1);
  do ci <- Np.get (c co) i;
  do g_up <- grid_get g (i + 1) (j + 1);
  grid_set g i j (ai * g_down + bi * g_mid + ci * g_up).

(** [range(M)[2:]]. *)
Definition interior (M : nat) : list nat := drop 2 (seq 0 M).

Definition traverse_grid (s : FiniteDifferences) (co : coefficients)
  : result FiniteDifferences :=
  do g <- for_each (rev (j_values s))
            (fun g j => for_each (interior (M s)) (update co j) g)
            (grid s);
  Ok (with_grid s g).

(** [FiniteDifferences.price] on an explicit-scheme solver. *)
Definition price (s : FiniteDifferences) : result R :=
  do s1 <- setup_boundary_conditions s;
  do co <- setup_coefficients s1;
  do s2 <- traverse_grid s1 co;
  interpolate s2.

End FDExplicitEu.

(** ** FDCnEu: Crank-Nicolson *)

(** [grid[lo:hi, j]] and [grid[lo:hi, j] = x]. *)
Definition column_slice (lo hi j : nat) (g : list (list R)) : result (list R) :=
  Np.sequence ((fun row => Np.get row j) <$> Np.slice lo hi g).

Definition set_column_slice (lo hi j : nat) (g : list (list R)) (x : list R)
  : result (list (list R)) :=
  let rows := Np.slice lo hi g in
  do x' <- Np.broadcast_to (length rows) x;
  do rows' <- Np.sequence (zip_with (fun row v => Np.set row j v) rows x');
  Ok (take lo g ++ rows' ++ drop (lo + length rows) g).

Module FDCnEu.

(** The attributes created by [setup_coefficients]. *)
Record coefficients := mkCoef {
  alpha : list R; beta : list R; gamma : list R;
  M1 : list (list R); M2 : list (list R)
}.

(** The slice bounds [M] and [M-1] are never negative where a slice is not
    already empty, so they are taken as natural numbers. *)
Definition setup_coefficients (s : FiniteDifferences) : result coefficients :=
  do dt <- dt s;
  let alpha := (fun i => 0.25 * dt * (sigma s ^ 2 * i ^ 2 - r s * i)) <$> i_values s in
  let beta := (fun i => - dt * 0.5 * (sigma s ^ 2 * i ^ 2 + r s)) <$> i_values s in
  let gamma := (fun i => 0.25 * dt * (sigma s ^ 2 * i ^ 2 + r s * i)) <$> i_values s in
  let sub := Np.diag (Np.slice 2 (M s) alpha) (-1) in
  let sup := Np.diag (Np.slice 1 (M s - 1) gamma) 1 in
  do m1 <- Np.mat_op Rplus (Np.mat_neg sub)
             (Np.diag ((fun x => 1 - x) <$> Np.slice 1 (M s) beta) 0);
  do M1 <- Np.mat_op Rminus m1 sup;
  do m2 <- Np.mat_op Rplus sub
             (Np.diag ((fun x => 1 + x) <$> Np.slice 1 (M s) beta) 0);
  do M2 <- Np.mat_op Rplus m2 sup;
  Ok {| alpha := alpha; beta := beta; gamma := gamma; M1 := M1; M2 := M2 |}.

Section Solver.

(** [scipy.linalg.lu] and [scipy.linalg.solve] are library routines. *)
Variable lu : list (list R) -> result (list (list R) * list (list R) * list (list R)).
Variable solve : list (list R) -> list R -> result (list R).

Definition time_step (s : FiniteDifferences) (co : coefficients)
    (L U : list (list R)) (g : list (list R)) (j : nat) : result (list (list R)) :=
  do v <- column_slice 1 (M s) (j + 1) g;
  do rhs <- Np.dot (M2 co) v;
  do x1 <- solve L rhs;
  do x2 <- solve U x1;
  set_column_slice 1 (M s) j g x2.

Definition traverse_grid (s : FiniteDifferences) (co : coefficients)
  : result FiniteDifferences :=
  do plu <- lu (M1 co);
  do g <- for_each (rev (seq 0 (N s)))
            (time_step s co (snd (fst plu)) (snd plu)) (grid s);
  Ok (with_grid s g).

(** [FiniteDifferences.price] on a Crank-Nicolson solver. *)
Definition price (s : FiniteDifferences) : result R :=
  do s1 <- FDExplicitEu.setup_boundary_conditions s;
  do co <- setup_coefficients s1;
  do s2 <- traverse_grid s1 co;
  interpolate s2.

End Solver.

End FDCnEu.

(** ** FDCnDo: down-and-out barrier *)

Module FDCnDo.

Record t := mk { fd : FiniteDifferences; barrier : R }.

(** The overridden [dS] property. *)
Definition dS (Smax barrier : R) (M : nat) : result R := pydiv (Smax - barrier) M.

(** [FDCnDo.__init__]. *)
Definition init (S0 K r T sigma Sbarrier Smax : R) (M N : nat) (is_put : bool)
  : result t :=
  let s := init S0 K r T sigma Smax M N is_put in
  let conds := Np.linspace Sbarrier Smax (M + 1) in
  do ds <- dS Smax Sbarrier M;
  Ok {| fd := {| S0 := S0; K := K; r := r; T := T; sigma := sigma; Smax := Smax;
                 M := M; N := N; is_call := is_call s;
                 i_values := (fun x => x / ds) <$> conds;
                 j_values := j_values s;
                 grid := grid s;
                 boundary_conds := conds |};
        barrier := Sbarrier |}.

End FDCnDo.

(** ** FDCnAm: American option by projected successive over-relaxation *)

Module FDCnAm.

Record t := mk { fd : FiniteDifferences; omega : R; tol : R }.

(** [FDCnAm.__init__]. *)
Definition init (S0 K r T sigma Smax : R) (M N : nat) (omega tol : R) (is_put : bool)
  : t :=
  let s := init S0 K r T sigma Smax M N is_put in
  {| fd := {| S0 := S0; K := K; r := r; T := T; sigma := sigma; Smax := Smax;
              M := M; N := N; is_call := is_call s;
              i_values := Np.arange (M + 1);
              j_values := Np.irange (N + 1);
              grid := grid s;
              boundary_conds := boundary_conds s |};
     omega := omega; tol := tol |}.

(** The attributes created by [setup_boundary_conditions]; [past_values]
    starts as [payoffs]. *)
Record boundary := mkBoundary { payoffs : list R; boundary_values : list R }.

Definition setup_boundary_conditions (s : t) : result boundary :=
  let inner := Np.slice 1 (M (fd s)) (boundary_conds (fd s)) in
  let payoffs :=
    if is_call (fd s)
    then Np.maximum0 ((fun x => x - K (fd s)) <$> inner)
    else Np.maximum0 ((fun x => K (fd s) - x) <$> inner) in
  do dt <- dt (fd s);
  Ok {| payoffs := payoffs;
        boundary_values := FDExplicitEu.discounted (fd s) dt (K (fd s)) |}.

Section Sweep.

Variable s : t.
Variable co : FDCnEu.coefficients.
Variable bc : boundary.

Definition calculate_payoff_start_boundary (rhs old_values : list R) : result R :=
  do old0 <- Np.get old_values 0;
  do beta1 <- Np.get (FDCnEu.beta co) 1;
  do rhs0 <- Np.get rhs 0;
  do gamma1 <- Np.get (FDCnEu.gamma co) 1;
  do old1 <- Np.get old_values 1;
  do floor <- Np.get (payoffs bc) 0;
  Ok (Rmax floor
        (old0 + omega s / (1 - beta1) *
                  (rhs0 - (1 - beta1) * old0 + gamma1 * old1))).

Definition calculate_payoff_end_boundary (rhs old_values new_values : list R)
  : result R :=
  do oldl <- Np.get_back old_values 1;
  do betal <- Np.get_back (FDCnEu.beta co) 2;
  do rhsl <- Np.get_back rhs 1;
  do alphal <- Np.get_back (FDCnEu.alpha co) 2;
  do newp <- Np.get_back new_values 2;
  do floor <- Np.get_back (payoffs bc) 1;
  Ok (Rmax floor
        (oldl + omega s / (1 - betal) *
                  (rhsl + alphal * newp - (1 - betal) * oldl))).

(** [k] is at least 1 where this is called, so [k-1] is not negative. *)
Definition calculate_payoff (k : nat) (rhs old_values new_values : list R)
  : result R :=
  do oldk <- Np.get old_values k;
  do betak <- Np.get (FDCnEu.beta co) (k + 1);
  do rhsk <- Np.get rhs k;
  do alphak <- Np.get (FDCnEu.alpha co) (k + 1);
  do newp <- Np.get new_values (k - 1);
  do gammak <- Np.get (FDCnEu.gamma co) (k + 1);
  do oldn <- Np.get old_values (k + 1);
  do floor <- Np.get (payoffs bc) k;
  Ok (Rmax floor
        (oldk + omega s / (1 - betak) *
                  (rhsk + alphak * newp - (1 - betak) * oldk + gammak * oldn))).

(** The variables of the [while] loop. *)
Record psor := mkPsor {
  rhs : list R;
  old_values : list R;
  new_values : list R;
  error : R;
  past_values : list R
}.

(** One pass of the body of the [while] loop. *)
Definition sweep (st : psor) : result psor :=
  do v0 <- calculate_payoff_start_boundary (rhs st) (old_values st);
  do new0 <- Np.set (new_values st) 0 v0;
  do new1 <- for_each (drop 1 (seq 0 (M (fd s) - 2)))
               (fun new k =>
                  do v <- calculate_payoff k (rhs st) (old_values st) new;
                  Np.set new k v)
               new0;
  do vl <- calculate_payoff_end_boundary (rhs st) (old_values st) new1;
  do new2 <- Np.set_back new1 1 vl;
  do diff <- Np.vec_op Rminus new2 (old_values st);
  Ok {| rhs := rhs st;
        old_values := new2;
        new_values := new2;
        error := Np.norm diff;
        past_values := new2 |}.

(** The [while self.tol < error] loop.  [None]: the loop is still running
    after [fuel] passes.  The error is a real number: the NaN that a float
    error becomes after an overflow, and that fails the test too, is not
    modelled. *)
Fixpoint while_loop (fuel : nat) (st : psor) : option (result psor) :=
  if Rlt_dec (tol s) (error st) then
    match fuel with
    | O => None
    | S fuel' =>
        match sweep st with
        | Ok st' => while_loop fuel' st'
        | Raise e => Some (Raise e)
        end
    end
  else Some (Ok st).

(** [sys.float_info.max]. *)
Definition float_max : R := (2 - / 2 ^ 52) * 2 ^ 1023.

(** The variables that live across time steps. *)
Record carried := mkCarried {
  aux : list R;
  c_new_values : list R;
  c_past_values : list R
}.

(** The statements of a time step before its [while] loop. *)
Definition enter_step (cr : carried) (j : nat) : result (list R * psor) :=
  do alpha1 <- Np.get (FDCnEu.alpha co) 1;
  do bj <- Np.get (boundary_values bc) j;
  do bj1 <- Np.get (boundary_values bc) (j + 1);
  do aux' <- Np.set (aux cr) 0 (alpha1 * (bj + bj1));
  do prod <- Np.dot (FDCnEu.M2 co) (c_past_values cr);
  do rhs <- Np.vec_op Rplus prod aux';
  Ok (aux', {| rhs := rhs;
               old_values := c_past_values cr;
               new_values := c_new_values cr;
               error := float_max;
               past_values := c_past_values cr |}).

Definition time_step (fuel : nat) (cr : carried) (j : nat) : option (result carried) :=
  match enter_step cr j with
  | Raise e => Some (Raise e)
  | Ok (aux', st) =>
      match while_loop fuel st with
      | None => None
      | Some (Raise e) => Some (Raise e)
      | Some (Ok st') =>
          Some (Ok {| aux := aux';
                      c_new_values := new_values st';
                      c_past_values := past_values st' |})
      end
  end.

Fixpoint time_loop (fuel : nat) (js : list nat) (cr : carried) : option (result carried) :=
  match js with
  | [] => Some (Ok cr)
  | j :: js' =>
      match time_step fuel cr j with
      | Some (Ok cr') => time_loop fuel js' cr'
      | other => other
      end
  end.

(** [traverse_grid]: returns the attribute [values].  [np.zeros(M-1)]
    refuses a negative size. *)
Definition traverse_grid (fuel : nat) : option (result (list R)) :=
  if decide (M (fd s) = O) then Some (Raise ValueError)
  else
    let start := {| aux := Np.zeros (M (fd s) - 1);
                    c_new_values := Np.zeros (M (fd s) - 1);
                    c_past_values := payoffs bc |} in
    match time_loop fuel (rev (seq 0 (N (fd s)))) start with
    | None => None
    | Some (Raise e) => Some (Raise e)
    | Some (Ok cr) =>
        Some (do b0 <- Np.get (boundary_values bc) 0;
              Ok ([b0] ++ c_new_values cr ++ [0]))
    end.

End Sweep.

(** [FDCnAm.interpolate]. *)
Definition interpolate (s : t) (values : list R) : result R :=
  Np.interp (S0 (fd s)) (boundary_conds (fd s)) values.

(** [price] on an American solver. *)
Definition price (fuel : nat) (s : t) : option (result R) :=
  match setup_boundary_conditions s with
  | Raise e => Some (Raise e)
  | Ok bc =>
      match FDCnEu.setup_coefficients (fd s) with
      | Raise e => Some (Raise e)
      | Ok co =>
          match traverse_grid s co bc fuel with
          | None => None
          | Some (Raise e) => Some (Raise e)
          | Some (Ok values) => Some (interpolate s values)
          end
      end
  end.

End FDCnAm.

(** ** FDImplicitEu: the implicit scheme *)

Module FDImplicitEu.

(** The attributes created by [setup_coefficients]. *)
Record coefficients := mkCoef {
  a : list R; b : list R; c : list R;
  coeffs : list (list R)
}.

Definition setup_coefficients (s : FiniteDifferences) : result coefficients :=
  do dt <- dt s;
  let a := (fun i => 0.5 * (r s * dt * i - sigma s ^ 2 * dt * i ^ 2)) <$> i_values s in
  let b := (fun i => 1 + sigma s ^ 2 * dt * i ^ 2 + r s * dt) <$> i_values s in
  let c := (fun i => - 0.5 * (r s * dt * i + sigma s ^ 2 * dt * i ^ 2)) <$> i_values s in
  do m <- Np.mat_op Rplus (Np.diag (Np.slice 2 (M s) a) (-1))
            (Np.diag (Np.slice 1 (M s) b) 0);
  do coeffs <- Np.mat_op Rplus m (Np.diag (Np.slice 1 (M s - 1) c) 1);
  Ok {| a := a; b := b; c := c; coeffs := coeffs |}.

Section Solver.

(** [scipy.linalg.lu] and [scipy.linalg.solve] are library routines. *)
Variable lu : list (list R) -> result (list (list R) * list (list R) * list (list R)).
Variable solve : list (list R) -> list R -> result (list R).

(** The body of the time loop; the state is the grid and the array [aux]. *)
Definition time_step (s : FiniteDifferences) (co : coefficients)
    (L U : list (list R)) (st : list (list R) * list R) (j : nat)
  : result (list (list R) * list R) :=
  do a1 <- Np.get (a co) 1;
  do g0 <- grid_get (fst st) 0 j;
  do aux <- Np.set (snd st) 0 (- a1 * g0);
  do v <- column_slice 1 (M s) (j + 1) (fst st);
  do rhs <- Np.vec_op Rplus v aux;
  do x1 <- solve L rhs;
  do x2 <- solve U x1;
  do g <- set_column_slice 1 (M s) j (fst st) x2;
  Ok (g, aux).

(** [np.zeros(M-1)] refuses a negative size. *)
Definition traverse_grid (s : FiniteDifferences) (co : coefficients)
  : result FiniteDifferences :=
  do plu <- lu (coeffs co);
  do aux <- match M s with
            | O => Raise ValueError
            | S m => Ok (Np.zeros m)
            end;
  do st <- for_each (rev (seq 0 (N s)))
             (time_step s co (snd (fst plu)) (snd plu)) (grid s, aux);
  Ok (with_grid s (fst st)).

(** [FiniteDifferences.price] on an implicit-scheme solver. *)
Definition price (s : FiniteDifferences) : result R :=
  do s1 <- FDExplicitEu.setup_boundary_conditions s;
  do co <- setup_coefficients s1;
  do s2 <- traverse_grid s1 co;
  interpolate s2.

End Solver.

End FDImplicitEu.

(** ** interf.py: the form that selects a solver *)

Module Interf.

Import String.

(** The values read from the side bar. *)
Record inputs := mkInputs {
  in_S0 : R; in_K : R; in_r : R; in_T : R; in_sigma : R; in_Smax : R;
  in_M : nat; in_N : nat; in_is_put : bool; in_Sbarrier : R
}.

(** The options of the radio button, in their order. *)
Definition methods : list string :=
  ["Méthode explicite européen"; "Méthodeimplicite européen";
   "Methode Crank-Nicolson européen"; "Methode Crank-Nicolson option exotique";
   "Methode Crank-Nicolson américain"]%string.

(** The object bound to the local variable [option]. *)
Inductive solver :=
| Explicit (s : FiniteDifferences)
| Implicit (s : FiniteDifferences)
| CrankNicolson (s : FiniteDifferences)
| DownAndOut (d : FDCnDo.t)
| American (s : FDCnAm.t).

(** The [if]/[elif] chain of [calculate_option_price]: [None] when no
    branch assigns [option]. *)
Definition select (method : string) (i : inputs) : option (result solver) :=
  if String.eqb method "Méthode explicite européen" then
    Some (Ok (Explicit (init (in_S0 i) (in_K i) (in_r i) (in_T i) (in_sigma i)
                          (in_Smax i) (in_M i) (in_N i) (in_is_put i))))
  else if String.eqb method "Méthode implicite européen" then
    Some (Ok (Implicit (init (in_S0 i) (in_K i) (in_r i) (in_T i) (in_sigma i)
                          (in_Smax i) (in_M i) (in_N i) (in_is_put i))))
  else if String.eqb method "Methode Crank-Nicolson européen" then
    Some (Ok (CrankNicolson (init (in_S0 i) (in_K i) (in_r i) (in_T i) (in_sigma i)
                               (in_Smax i) (in_M i) (in_N i) (in_is_put i))))
  else if String.eqb method "Methode Crank-Nicolson option exotique" then
    Some (do d <- FDCnDo.init (in_S0 i) (in_K i) (in_r i) (in_T i) (in_sigma i)
                    (in_Sbarrier i) (in_Smax i) (in_M i) (in_N i) (in_is_put i);
          Ok (DownAndOut d))
  else if String.eqb method "Methode Crank-Nicolson américain" then
    Some (Ok (American (FDCnAm.init (in_S0 i) (in_K i) (in_r i) (in_T i) (in_sigma i)
                          (in_Smax i) (in_M i) (in_N i) 1 0 false)))
  else None.

(** How a call of [calculate_option_price] ends. *)
Inductive outcome :=
| Price (p : R)
| Raised (e : exn)
| UnboundLocalError
| Running.

Section Solver.

Variable lu : list (list R) -> result (list (list R) * list (list R) * list (list R)).
Variable solve : list (list R) -> list R -> result (list R).

Definition of_result (c : result R) : outcome :=
  match c with
  | Ok p => Price p
  | Raise e => Raised e
  end.

(** [option.price()], by the class of [option]; the passes of the American
    loop are bounded by [fuel]. *)
Definition price (fuel : nat) (o : solver) : outcome :=
  match o with
  | Explicit s => of_result (FDExplicitEu.price s)
  | Implicit s => of_result (FDImplicitEu.price lu solve s)
  | CrankNicolson s => of_result (FDCnEu.price lu solve s)
  | DownAndOut d => of_result (FDCnEu.price lu solve (FDCnDo.fd d))
  | American s =>
      match FDCnAm.price fuel s with
      | Some c => of_result c
      | None => Running
      end
  end.

(** [calculate_option_price], up to the value of [option_price]. *)
Definition calculate_option_price (fuel : nat) (method : string) (i : inputs) : outcome :=
  match select method i with
  | None => UnboundLocalError
  | Some (Raise e) => Raised e
  | Some (Ok o) => price fuel o
  end.

End Solver.

End Interf.

(** * Vocabulary of the statements *)

(** A grid of [rows] rows of [cols] cells each. *)
Definition shape (g : list (list R)) (rows cols : nat) : Prop :=
  length g = rows /\ Forall (fun row => length row = cols) g.

(** The cell [grid[i,j]] of a grid ([0] out of range) and the entry [l[i]]
    of an array. *)
Definition cell (g : list (list R)) (i j : nat) : R :=
  default 0 (g !! i ≫= fun row => row !! j).

Definition coef (l : list R) (i : nat) : R := default 0 (l !! i).

(** The right-hand side of the explicit update at node [(i,j)], read from
    column [j+1] of [g]. *)
Definition stencil (co : FDExplicitEu.coefficients) (g : list (list R)) (i j : nat) : R :=
  coef (FDExplicitEu.a co) i * cell g (i - 1) (j + 1)
  + coef (FDExplicitEu.b co) i * cell g i (j + 1)
  + coef (FDExplicitEu.c co) i * cell g (i + 1) (j + 1).

Definition coefficients_cover (co : FDExplicitEu.coefficients) (m : nat) : Prop :=
  (m <= length (FDExplicitEu.a co))%nat /\
  (m <= length (FDExplicitEu.b co))%nat /\
  (m <= length (FDExplicitEu.c co))%nat.

(** Sample solvers. *)
Definition sample_explicit : FiniteDifferences :=
  init 50 50 0.1 (5 / 12) 0.4 100 4 2 true.

Definition sample_coefficients : FDExplicitEu.coefficients :=
  match FDExplicitEu.setup_coefficients sample_explicit with
  | Ok co => co
  | Raise _ => FDExplicitEu.mkCoef [] [] []
  end.

(** A solver whose grid, time indices and price nodes have the sizes that
    [__init__] gives them. *)
Definition well_formed (s : FiniteDifferences) : Prop :=
  shape (grid s) (M s + 1) (N s + 1) /\
  j_values s = Np.irange (N s) /\
  length (boundary_conds s) = (M s + 1)%nat.

(** The discount factor [exp(-r*dt*(N-j))] with [dt = T/N]. *)
Definition discount (s : FiniteDifferences) (j : nat) : R :=
  exp (- r s * (T s / INR (N s)) * (INR (N s) - INR j)).

(** The grid written by [FDExplicitEu.setup_boundary_conditions] over a
    grid [g]. *)
Definition boundary_cell (s : FiniteDifferences) (g : list (list R)) (i j : nat) : R :=
  if is_call s then
    if decide (i = M s /\ (j < N s)%nat) then (Smax s - K s) * discount s j
    else if decide (j = N s /\ (i < M s + 1)%nat)
         then Rmax 0 (coef (boundary_conds s) i - K s)
         else cell g i j
  else
    if decide (i = O /\ (j < N s)%nat) then (K s - Smax s) * discount s j
    else if decide (j = N s /\ (i < M s + 1)%nat)
         then Rmax 0 (K s - coef (boundary_conds s) i)
         else cell g i j.

(** Strictly increasing sample points. *)
Definition increasing (l : list R) : Prop :=
  forall i j x y, l !! i = Some x -> l !! j = Some y -> (i < j)%nat -> x < y.

(** The solver asked for the price at spot [x]. *)
Definition with_S0 (s : FiniteDifferences) (x : R) : FiniteDifferences :=
  {| S0 := x; K := K s; r := r s; T := T s; sigma := sigma s; Smax := Smax s;
     M := M s; N := N s; is_call := is_call s;
     i_values := i_values s; j_values := j_values s;
     grid := grid s; boundary_conds := boundary_conds s |}.

Definition am_with_S0 (s : FDCnAm.t) (x : R) : FDCnAm.t :=
  {| FDCnAm.fd := with_S0 (FDCnAm.fd s) x;
     FDCnAm.omega := FDCnAm.omega s; FDCnAm.tol := FDCnAm.tol s |}.

(** The entry at row [k], column [l] of the tridiagonal matrix with
    [lo] below the diagonal, [d] on it and [hi] above it in row [k]. *)
Definition tridiagonal (lo d hi : R) (k l : nat) : R :=
  if decide (l = k) then d
  else if decide (S l = k) then lo
  else if decide (l = S k) then hi
  else 0.

Definition sample_american : FDCnAm.t :=
  FDCnAm.init 50 50 0.1 (5 / 12) 0.4 100 4 2 1.2 0.001 true.

Definition sample_cn : FiniteDifferences := init 50 50 0.1 (5 / 12) 0.4 100 4 2 false.

(** The grid after boundary setup, coefficient setup and traversal of a
    Crank-Nicolson solver: [price] before its interpolation. *)
Definition cn_traversed
    (lu : list (list R) -> result (list (list R) * list (list R) * list (list R)))
    (solve : list (list R) -> list R -> result (list R))
    (s : FiniteDifferences) : result FiniteDifferences :=
  do s1 <- FDExplicitEu.setup_boundary_conditions s;
  do co <- FDCnEu.setup_coefficients s1;
  FDCnEu.traverse_grid lu solve s1 co.

(** Stand-ins for the two library routines, for running the model: a
    factorisation into identity factors is not computed, the factors are
    the matrix itself, and solving returns the right-hand side. *)
Definition lu_stub (A : list (list R))
  : result (list (list R) * list (list R) * list (list R)) := Ok (A, A, A).
Definition solve_stub (A : list (list R)) (v : list R) : result (list R) := Ok v.

(** The relaxed update of the PSOR pass at the interior entry [k], before
    the clamp: at the first entry, at the last entry [k = M-2], and in
    between, where [prev] is the entry [k-1] of the pass under way. *)
Definition start_update (s : FDCnAm.t) (co : FDCnEu.coefficients) (rhs old : list R) : R :=
  coef old 0 + FDCnAm.omega s / (1 - coef (FDCnEu.beta co) 1) *
    (coef rhs 0 - (1 - coef (FDCnEu.beta co) 1) * coef old 0
     + coef (FDCnEu.gamma co) 1 * coef old 1).

Definition interior_update (s : FDCnAm.t) (co : FDCnEu.coefficients) (k : nat)
    (rhs old : list R) (prev : R) : R :=
  coef old k + FDCnAm.omega s / (1 - coef (FDCnEu.beta co) (k + 1)) *
    (coef rhs k + coef (FDCnEu.alpha co) (k + 1) * prev
     - (1 - coef (FDCnEu.beta co) (k + 1)) * coef old k
     + coef (FDCnEu.gamma co) (k + 1) * coef old (k + 1)).

Definition end_update (s : FDCnAm.t) (co : FDCnEu.coefficients) (k : nat)
    (rhs old : list R) (prev : R) : R :=
  coef old k + FDCnAm.omega s / (1 - coef (FDCnEu.beta co) (k + 1)) *
    (coef rhs k + coef (FDCnEu.alpha co) (k + 1) * prev
     - (1 - coef (FDCnEu.beta co) (k + 1)) * coef old k).

Definition relaxed (s : FDCnAm.t) (co : FDCnEu.coefficients) (k : nat)
    (rhs old new : list R) : R :=
  if decide (k = O) then start_update s co rhs old
  else if decide (k = M (FDCnAm.fd s) - 2)%nat
       then end_update s co k rhs old (coef new (k - 1))
       else interior_update s co k rhs old (coef new (k - 1)).

(** Sizes of the arrays of an American solver with [M >= 3], and of the
    variables of its relaxation loop. *)
Definition am_shaped (s : FDCnAm.t) (co : FDCnEu.coefficients) (bc : FDCnAm.boundary)
  : Prop :=
  (3 <= M (FDCnAm.fd s))%nat /\
  length (FDCnEu.alpha co) = (M (FDCnAm.fd s) + 1)%nat /\
  length (FDCnEu.beta co) = (M (FDCnAm.fd s) + 1)%nat /\
  length (FDCnEu.gamma co) = (M (FDCnAm.fd s) + 1)%nat /\
  shape (FDCnEu.M2 co) (M (FDCnAm.fd s) - 1) (M (FDCnAm.fd s) - 1) /\
  length (FDCnAm.payoffs bc) = (M (FDCnAm.fd s) - 1)%nat /\
  length (FDCnAm.boundary_values bc) = (N (FDCnAm.fd s) + 1)%nat.

Definition psor_shaped (s : FDCnAm.t) (st : FDCnAm.psor) : Prop :=
  length (FDCnAm.rhs st) = (M (FDCnAm.fd s) - 1)%nat /\
  length (FDCnAm.old_values st) = (M (FDCnAm.fd s) - 1)%nat /\
  length (FDCnAm.new_values st) = (M (FDCnAm.fd s) - 1)%nat.

(** [v[k] >= payoffs[k]] at every interior entry. *)
Definition dominates (bc : FDCnAm.boundary) (v : list R) : Prop :=
  forall k, (k < length (FDCnAm.payoffs bc))%nat ->
    coef (FDCnAm.payoffs bc) k <= coef v k.

(** [n] passes of the loop body in a row. *)
Fixpoint sweeps (s : FDCnAm.t) (co : FDCnEu.coefficients) (bc : FDCnAm.boundary)
    (n : nat) (st : FDCnAm.psor) : result FDCnAm.psor :=
  match n with
  | O => Ok st
  | S n' => do st' <- FDCnAm.sweep s co bc st; sweeps s co bc n' st'
  end.

(** What holds of the loop variables at every test of the [while]
    condition, and of the carried variables between time steps. *)
Definition psor_inv (s : FDCnAm.t) (bc : FDCnAm.boundary) (st : FDCnAm.psor) : Prop :=
  psor_shaped s st /\
  length (FDCnAm.past_values st) = (M (FDCnAm.fd s) - 1)%nat /\
  dominates bc (FDCnAm.past_values st).

Definition carried_inv (s : FDCnAm.t) (bc : FDCnAm.boundary) (cr : FDCnAm.carried) : Prop :=
  length (FDCnAm.aux cr) = (M (FDCnAm.fd s) - 1)%nat /\
  length (FDCnAm.c_new_values cr) = (M (FDCnAm.fd s) - 1)%nat /\
  length (FDCnAm.c_past_values cr) = (M (FDCnAm.fd s) - 1)%nat /\
  dominates bc (FDCnAm.c_past_values cr).

(** The carried variables before the first time step. *)
Definition am_start (s : FDCnAm.t) (bc : FDCnAm.boundary) : FDCnAm.carried :=
  {| FDCnAm.aux := Np.zeros (M (FDCnAm.fd s) - 1);
     FDCnAm.c_new_values := Np.zeros (M (FDCnAm.fd s) - 1);
     FDCnAm.c_past_values := FDCnAm.payoffs bc |}.

(** More sample solvers and the attributes that their setup creates. *)
Definition sample_cn_coefficients : FDCnEu.coefficients :=
  match FDCnEu.setup_coefficients sample_cn with
  | Ok co => co
  | Raise _ => FDCnEu.mkCoef [] [] [] [] []
  end.

(** A time step of the two schemes that solve a linear system: form the
    right-hand side from the grid, solve with [L], solve with [U], store
    the result in the interior of column [j]. *)
Definition solve_step (solve : list (list R) -> list R -> result (list R))
    (rhs_of : list (list R) -> nat -> result (list R)) (m : nat)
    (L U : list (list R)) (g : list (list R)) (j : nat) : result (list (list R)) :=
  do rhs <- rhs_of g j;
  do x1 <- solve L rhs;
  do x2 <- solve U x1;
  set_column_slice 1 m j g x2.

(** The right-hand sides: [M2 . grid[1:M, j+1]] for Crank-Nicolson, and
    [grid[1:M, j+1] + aux] with [aux = [-a[1]*grid[0,j], 0, ..., 0]] for the
    implicit scheme. *)
Definition cn_rhs (s : FiniteDifferences) (co : FDCnEu.coefficients)
    (g : list (list R)) (j : nat) : result (list R) :=
  do v <- column_slice 1 (M s) (j + 1) g;
  Np.dot (FDCnEu.M2 co) v.

Definition implicit_rhs (s : FiniteDifferences) (co : FDImplicitEu.coefficients)
    (g : list (list R)) (j : nat) : result (list R) :=
  do a1 <- Np.get (FDImplicitEu.a co) 1;
  do g0 <- grid_get g 0 j;
  do aux <- Np.set (Np.zeros (M s - 1)) 0 (- a1 * g0);
  do v <- column_slice 1 (M s) (j + 1) g;
  Np.vec_op Rplus v aux.

(** [solve] answers every right-hand side of [n] entries for the matrix
    [A], and its answer solves the system. *)
Definition solves (solve : list (list R) -> list R -> result (list R))
    (A : list (list R)) (n : nat) : Prop :=
  forall b, length b = n -> exists x, solve A b = Ok x /\ Np.dot A x = Ok b.

(** The two library routines on systems of one equation. *)
Definition lu_1x1 (A : list (list R))
  : result (list (list R) * list (list R) * list (list R)) :=
  Ok ([[1]], [[1]], A).

Definition solve_1x1 (A : list (list R)) (b : list R) : result (list R) :=
  match A, b with
  | [[a]], [v] => if Req_dec_T a 0 then Raise LinAlgError else Ok [v / a]
  | _, _ => Raise LinAlgError
  end.

Definition sample_two_steps : FiniteDifferences :=
  init 50 50 0.1 (5 / 12) 0.4 100 2 2 false.

Definition sample_two_steps_cn : FDCnEu.coefficients :=
  match FDCnEu.setup_coefficients sample_two_steps with
  | Ok co => co
  | Raise _ => FDCnEu.mkCoef [] [] [] [] []
  end.

Definition sample_two_steps_implicit : FDImplicitEu.coefficients :=
  match FDImplicitEu.setup_coefficients sample_two_steps with
  | Ok co => co
  | Raise _ => FDImplicitEu.mkCoef [] [] [] []
  end.

(** The attribute [payoffs] of an American solver after
    [setup_boundary_conditions]. *)
Definition american_payoffs (s : FDCnAm.t) : list R :=
  match FDCnAm.setup_boundary_conditions s with
  | Ok bc => FDCnAm.payoffs bc
  | Raise _ => []
  end.

(** The exercise value at spot [x]. *)
Definition intrinsic (s : FiniteDifferences) (x : R) : R :=
  Rmax 0 (if is_call s then x - K s else K s - x).


(** * Properties *)

(** ** The array primitives on small inputs *)

Example interior_of_5 : FDExplicitEu.interior 5 = [2; 3; 4]%nat.
Proof. reflexivity. Qed.

Example interior_of_2 : FDExplicitEu.interior 2 = [].
Proof. reflexivity. Qed.

Example slice_inner : Np.slice 1 4 [10; 11; 12; 13; 14] = [11; 12; 13].
Proof. reflexivity. Qed.

Example slice_past_the_end : Np.slice 2 9 [10; 11; 12] = [12].
Proof. reflexivity. Qed.

Example diag_below : Np.diag [7; 8] (-1) = [[0; 0; 0]; [7; 0; 0]; [0; 8; 0]].
Proof. reflexivity. Qed.

Example diag_above : Np.diag [7; 8] 1 = [[0; 7; 0]; [0; 0; 8]; [0; 0; 0]].
Proof. reflexivity. Qed.

Example get_back_second_last : Np.get_back [1; 2; 3; 4] 2 = Ok 3.
Proof. reflexivity. Qed.

Example get_out_of_range : Np.get [1; 2; 3] 3 = Raise IndexError.
Proof. reflexivity. Qed.

Example set_init_keeps_last : set_init [0; 0; 9] [4; 5] = Ok [4; 5; 9].
Proof. reflexivity. Qed.

Example set_init_wrong_length : set_init [0; 0; 9] [4; 5; 6] = Raise ValueError.
Proof. reflexivity. Qed.

Example set_last_column_small :
  set_last_column [[0; 0]; [0; 0]] [4; 5] = Ok [[0; 4]; [0; 5]].
Proof. reflexivity. Qed.

Example dot_shape_mismatch : Np.dot [[1; 2]; [3; 4]] [1; 1; 1] = Raise ValueError.
Proof. reflexivity. Qed.

Example interp_between_two_nodes : Np.interp 1 [0; 2] [10; 20] = Ok 15.
Proof.
  unfold Np.interp. cbn [length List.last Np.search].
  rewrite decide_True by done.
  destruct (Rlt_dec 2 1); [lra |]. destruct (Rlt_dec 1 0); [lra |].
  destruct (Rle_dec 2 1); [lra |]. destruct (Req_dec_T 0 1); [lra |].
  f_equal. lra.
Qed.

Example interp_right_of_the_nodes : Np.interp 3 [0; 2] [10; 20] = Ok 20.
Proof.
  unfold Np.interp. cbn [length List.last].
  rewrite decide_True by done. destruct (Rlt_dec 2 3); [done | lra].
Qed.

Example dt_without_time_steps :
  dt (init 50 50 0.1 1 0.4 100 4 0 false) = Raise ZeroDivisionError.
Proof. reflexivity. Qed.

Example barrier_without_price_steps :
  FDCnDo.init 50 50 0.1 1 0.4 40 100 0 2 false = Raise ZeroDivisionError.
Proof. reflexivity. Qed.

(** ** Array lemmas *)

Lemma get_Ok {A} (l : list A) i x : Np.get l i = Ok x <-> l !! i = Some x.
Proof. unfold Np.get. destruct (l !! i); split; congruence. Qed.

Lemma get_Raise {A} (l : list A) i e :
  Np.get l i = Raise e <-> (length l <= i)%nat /\ e = IndexError.
Proof.
  unfold Np.get. destruct (l !! i) eqn:E.
  - apply lookup_lt_Some in E. split; [congruence | lia].
  - apply lookup_ge_None in E. split; [intros [= <-]; done | intros [_ ->]; done].
Qed.

Lemma get_lt {A} (l : list A) i :
  (i < length l)%nat -> exists x, Np.get l i = Ok x /\ l !! i = Some x.
Proof.
  intros H. destruct (lookup_lt_is_Some_2 l i H) as [x Hx].
  exists x. split; [by apply get_Ok | done].
Qed.

Lemma lookup_arange n i : (i < n)%nat -> Np.arange n !! i = Some (INR i).
Proof.
  intros H. unfold Np.arange. rewrite list_lookup_fmap, lookup_seq_lt by done. done.
Qed.

Lemma length_arange n : length (Np.arange n) = n.
Proof. unfold Np.arange. by rewrite length_fmap, length_seq. Qed.

(** ** FDExplicitEu: coefficients *)

(** C2, as the code has it: the coefficient arrays of the explicit scheme
    have one entry per index [0..M-1], with
    [a[i] = 0.5*dt*(sigma^2 i^2 - r i)], [b[i] = 1 - dt*(sigma^2 i^2 + r)],
    [c[i] = 0.5*dt*(sigma^2 i^2 + r i)] and [dt = T/N]; index [M] is out of
    range. *)
Theorem explicit_coefficients (s : FiniteDifferences) :
  i_values s = Np.arange (M s) -> N s <> O ->
  exists co,
    FDExplicitEu.setup_coefficients s = Ok co /\
    length (FDExplicitEu.a co) = M s /\
    length (FDExplicitEu.b co) = M s /\
    length (FDExplicitEu.c co) = M s /\
    (forall i, (i < M s)%nat ->
       let dt := T s / INR (N s) in
       Np.get (FDExplicitEu.a co) i
         = Ok (0.5 * dt * (sigma s ^ 2 * INR i ^ 2 - r s * INR i)) /\
       Np.get (FDExplicitEu.b co) i
         = Ok (1 - dt * (sigma s ^ 2 * INR i ^ 2 + r s)) /\
       Np.get (FDExplicitEu.c co) i
         = Ok (0.5 * dt * (sigma s ^ 2 * INR i ^ 2 + r s * INR i))) /\
    Np.get (FDExplicitEu.a co) (M s) = Raise IndexError /\
    Np.get (FDExplicitEu.b co) (M s) = Raise IndexError /\
    Np.get (FDExplicitEu.c co) (M s) = Raise IndexError.
Proof.
  intros Hi HN. unfold FDExplicitEu.setup_coefficients, dt, pydiv.
  destruct (N s) as [|n] eqn:EN; [done |]. cbn [rbind].
  eexists. split; [reflexivity |]. cbn [FDExplicitEu.a FDExplicitEu.b FDExplicitEu.c].
  rewrite Hi, !length_fmap, length_arange.
  repeat split; try done.
  - apply get_Ok. rewrite list_lookup_fmap, lookup_arange by done. done.
  - apply get_Ok. rewrite list_lookup_fmap, lookup_arange by done. done.
  - apply get_Ok. rewrite list_lookup_fmap, lookup_arange by done. done.
  - apply get_Raise. rewrite length_fmap, length_arange. done.
  - apply get_Raise. rewrite length_fmap, length_arange. done.
  - apply get_Raise. rewrite length_fmap, length_arange. done.
Qed.

Lemma explicit_coefficients_witness :
  exists co,
    FDExplicitEu.setup_coefficients sample_explicit = Ok co /\
    length (FDExplicitEu.a co) = 4%nat /\
    length (FDExplicitEu.b co) = 4%nat /\
    length (FDExplicitEu.c co) = 4%nat /\
    (forall i, (i < 4)%nat ->
       let dt := 5 / 12 / INR 2 in
       Np.get (FDExplicitEu.a co) i
         = Ok (0.5 * dt * (0.4 ^ 2 * INR i ^ 2 - 0.1 * INR i)) /\
       Np.get (FDExplicitEu.b co) i
         = Ok (1 - dt * (0.4 ^ 2 * INR i ^ 2 + 0.1)) /\
       Np.get (FDExplicitEu.c co) i
         = Ok (0.5 * dt * (0.4 ^ 2 * INR i ^ 2 + 0.1 * INR i))) /\
    Np.get (FDExplicitEu.a co) 4 = Raise IndexError /\
    Np.get (FDExplicitEu.b co) 4 = Raise IndexError /\
    Np.get (FDExplicitEu.c co) 4 = Raise IndexError.
Proof.
  apply (explicit_coefficients sample_explicit); [reflexivity | simpl; lia].
Defined.

(** C2, as the specification states it, fails: with [M = 4] the arrays have
    four entries and [a[4]] raises [IndexError]. *)
Lemma explicit_coefficients_not_up_to_M :
  exists co,
    FDExplicitEu.setup_coefficients sample_explicit = Ok co /\
    length (FDExplicitEu.a co) = 4%nat /\
    Np.get (FDExplicitEu.a co) (M sample_explicit) = Raise IndexError /\
    ~ (exists x, Np.get (FDExplicitEu.a co) (M sample_explicit) = Ok x).
Proof.
  eexists. split; [reflexivity |]. split; [reflexivity |].
  split; [reflexivity |]. intros [x Hx]. discriminate Hx.
Qed.

(** ** Grids *)

Lemma shape_lookup g rows cols i row :
  shape g rows cols -> g !! i = Some row -> length row = cols.
Proof.
  intros [_ Hall] Hrow. rewrite Forall_lookup in Hall. by eapply Hall.
Qed.

Lemma shape_row g rows cols i :
  shape g rows cols -> (i < rows)%nat ->
  exists row, g !! i = Some row /\ length row = cols.
Proof.
  intros Hs Hi. destruct (lookup_lt_is_Some_2 g i) as [row Hrow].
  { destruct Hs as [-> _]. done. }
  exists row. split; [done | by eapply shape_lookup].
Qed.

Lemma grid_get_cell g rows cols i j :
  shape g rows cols -> (i < rows)%nat -> (j < cols)%nat ->
  grid_get g i j = Ok (cell g i j).
Proof.
  intros Hs Hi Hj. destruct (shape_row g rows cols i Hs Hi) as (row & Hrow & Hlen).
  destruct (lookup_lt_is_Some_2 row j) as [x Hx]; [lia |].
  unfold grid_get, cell, Np.get. rewrite Hrow. cbn. by rewrite Hx.
Qed.

Lemma grid_set_spec g rows cols i j v :
  shape g rows cols -> (i < rows)%nat -> (j < cols)%nat ->
  exists g', grid_set g i j v = Ok g' /\ shape g' rows cols /\
    forall i' j', cell g' i' j' = if decide (i' = i /\ j' = j) then v else cell g i' j'.
Proof.
  intros Hs Hi Hj. destruct (shape_row g rows cols i Hs Hi) as (row & Hrow & Hlen).
  exists (<[i := <[j := v]> row]> g).
  assert (Hig : (i < length g)%nat) by (destruct Hs as [-> _]; done).
  split; [| split].
  - unfold grid_set, Np.get, Np.set. rewrite Hrow. cbn.
    rewrite decide_True by lia. cbn. by rewrite decide_True by done.
  - destruct Hs as [Hl Hall]. split; [by rewrite length_insert |].
    apply Forall_insert; [done |]. by rewrite length_insert.
  - intros i' j'. unfold cell. destruct (decide (i' = i)) as [-> | Hne].
    + rewrite list_lookup_insert_eq by done. cbn. rewrite Hrow. cbn.
      destruct (decide (j' = j)) as [-> | Hnj].
      * rewrite list_lookup_insert_eq by lia. by rewrite decide_True.
      * rewrite list_lookup_insert_ne by done. by rewrite decide_False by tauto.
    + rewrite list_lookup_insert_ne by done. by rewrite decide_False by tauto.
Qed.

Lemma shape_zeros2 rows cols : shape (Np.zeros2 rows cols) rows cols.
Proof.
  unfold Np.zeros2, Np.zeros. split; [by rewrite length_replicate |].
  apply Forall_replicate. by rewrite length_replicate.
Qed.

Lemma cell_zeros2 rows cols i j : cell (Np.zeros2 rows cols) i j = 0.
Proof.
  unfold cell, Np.zeros2, Np.zeros.
  destruct (replicate rows (replicate cols 0) !! i) as [row|] eqn:E; [| done].
  apply lookup_replicate in E as [-> _]. cbn.
  destruct (replicate cols 0 !! j) as [x|] eqn:E2; [| done].
  apply lookup_replicate in E2 as [-> _]. done.
Qed.

(** ** FDExplicitEu: traversal *)

Lemma get_coef l i : (i < length l)%nat -> Np.get l i = Ok (coef l i).
Proof.
  intros H. destruct (get_lt l i H) as (x & Hg & Hl). unfold coef. by rewrite Hl.
Qed.

Lemma update_spec co g m n i j :
  shape g (m + 1) (n + 1) -> coefficients_cover co m ->
  (1 <= i < m)%nat -> (j < n)%nat ->
  exists g', FDExplicitEu.update co j g i = Ok g' /\ shape g' (m + 1) (n + 1) /\
    forall i' j', cell g' i' j'
                  = if decide (i' = i /\ j' = j) then stencil co g i j else cell g i' j'.
Proof.
  intros Hs (Ha & Hb & Hc) Hi Hj. unfold FDExplicitEu.update.
  rewrite !get_coef by lia.
  rewrite !(grid_get_cell g (m + 1) (n + 1)) by (done || lia). cbn [rbind].
  apply (grid_set_spec g (m + 1) (n + 1)); (done || lia).
Qed.

Lemma stencil_ext co g g' i j :
  (forall i', cell g' i' (j + 1) = cell g i' (j + 1)) ->
  stencil co g' i j = stencil co g i j.
Proof. intros H. unfold stencil. by rewrite !H. Qed.

(** The inner loop over a list of price indices. *)
Lemma inner_loop_spec co m n j (l : list nat) : forall g,
  shape g (m + 1) (n + 1) -> coefficients_cover co m ->
  Forall (fun i => 1 <= i < m)%nat l -> (j < n)%nat ->
  exists g', for_each l (FDExplicitEu.update co j) g = Ok g' /\
    shape g' (m + 1) (n + 1) /\
    forall i' j', cell g' i' j'
                  = if decide (i' ∈ l /\ j' = j) then stencil co g i' j else cell g i' j'.
Proof.
  induction l as [| i l IH]; intros g Hs Hco Hl Hj.
  - exists g. split; [done |]. split; [done |]. intros i' j'.
    rewrite decide_False; [done |]. intros [H _]. by apply elem_of_nil in H.
  - apply Forall_cons in Hl as [Hi Hl].
    destruct (update_spec co g m n i j Hs Hco Hi Hj) as (g1 & E1 & Hs1 & C1).
    destruct (IH g1 Hs1 Hco Hl Hj) as (g2 & E2 & Hs2 & C2).
    exists g2. split; [cbn; rewrite E1; exact E2 |]. split; [done |].
    intros i' j'. rewrite C2.
    assert (Hst : forall k, stencil co g1 k j = stencil co g k j).
    { intros k. apply stencil_ext. intros i0. rewrite C1.
      rewrite decide_False; [done | lia]. }
    rewrite Hst, C1.
    destruct (decide (i' ∈ l /\ j' = j)) as [[Hin ->] | Hn].
    + rewrite decide_True; [done |]. split; [by apply elem_of_cons; right | done].
    + destruct (decide (i' = i /\ j' = j)) as [[-> ->] | Hn2].
      * rewrite decide_True; [done |]. split; [by apply elem_of_cons; left | done].
      * rewrite decide_False; [done |]. intros [Hin ->].
        apply elem_of_cons in Hin as [-> | Hin]; tauto.
Qed.

Lemma elem_of_interior m i : i ∈ FDExplicitEu.interior m <-> (2 <= i < m)%nat.
Proof.
  unfold FDExplicitEu.interior. rewrite list_elem_of_lookup. split.
  - intros [k Hk]. rewrite lookup_drop in Hk.
    apply lookup_seq in Hk as [-> Hlt]. lia.
  - intros [H2 Hm]. exists (i - 2)%nat. rewrite lookup_drop.
    replace (2 + (i - 2))%nat with i by lia. by apply lookup_seq_lt.
Qed.

Lemma interior_range m : Forall (fun i => 1 <= i < m)%nat (FDExplicitEu.interior m).
Proof.
  apply Forall_forall. intros i Hi. apply elem_of_interior in Hi. lia.
Qed.

(** The time loop over [k-1, ..., 0]. *)
Lemma time_loop_spec co m n (k : nat) : forall g,
  shape g (m + 1) (n + 1) -> coefficients_cover co m -> (k <= n)%nat ->
  exists g',
    for_each (rev (seq 0 k))
      (fun g j => for_each (FDExplicitEu.interior m)
                    (FDExplicitEu.update co j) g) g = Ok g' /\
    shape g' (m + 1) (n + 1) /\
    (forall i j, (j < k)%nat -> (2 <= i < m)%nat -> cell g' i j = stencil co g' i j) /\
    (forall i j, ~ ((j < k)%nat /\ (2 <= i < m)%nat) -> cell g' i j = cell g i j).
Proof.
  induction k as [| k IH]; intros g Hs Hco Hk.
  - exists g. repeat split; try done; try apply Hs. intros i j Hj. lia.
  - rewrite seq_S, rev_app_distr. cbn [rev app Nat.add for_each].
    destruct (inner_loop_spec co m n k (FDExplicitEu.interior m) g Hs Hco
                (interior_range m) ltac:(lia)) as (g1 & E1 & Hs1 & C1).
    rewrite E1. cbn [rbind].
    destruct (IH g1 Hs1 Hco ltac:(lia)) as (g2 & E2 & Hs2 & Hin & Hout).
    exists g2. split; [exact E2 |]. split; [done |]. split.
    + intros i j Hj Hi. destruct (decide (j < k)%nat) as [Hlt | Hge].
      * by apply Hin.
      * assert (j = k) as -> by lia.
        rewrite Hout by lia. rewrite C1.
        rewrite decide_True by (split; [by apply elem_of_interior | done]).
        symmetry. apply stencil_ext. intros i0.
        rewrite Hout by lia. rewrite C1. rewrite decide_False; [done | lia].
    + intros i j Hn. rewrite Hout by lia. rewrite C1.
      rewrite decide_False; [done |]. intros [Hi ->].
      apply elem_of_interior in Hi. lia.
Qed.

Lemma traverse_grid_spec (s : FiniteDifferences) (co : FDExplicitEu.coefficients) :
  shape (grid s) (M s + 1) (N s + 1) ->
  j_values s = Np.irange (N s) ->
  coefficients_cover co (M s) ->
  exists s',
    FDExplicitEu.traverse_grid s co = Ok s' /\
    s' = with_grid s (grid s') /\
    shape (grid s') (M s + 1) (N s + 1) /\
    (forall i j, (j < N s)%nat -> (2 <= i < M s)%nat ->
       cell (grid s') i j = stencil co (grid s') i j) /\
    (forall i j, ~ ((j < N s)%nat /\ (2 <= i < M s)%nat) ->
       cell (grid s') i j = cell (grid s) i j).
Proof.
  intros Hs Hj Hco. unfold FDExplicitEu.traverse_grid. rewrite Hj. unfold Np.irange.
  destruct (time_loop_spec co (M s) (N s) (N s) (grid s) Hs Hco (le_n _))
    as (g' & E & Hs' & Hin & Hout).
  rewrite E. cbn [rbind]. eexists. split; [reflexivity |]. cbn.
  split; [done |]. split; [exact Hs' |]. split; done.
Qed.

(** C1: the explicit traversal returns a grid in which, for every time
    index [j] in [0..N-1] and every price index [i] in [2..M-1],
    [Grid[i,j] = a[i]*Grid[i-1,j+1] + b[i]*Grid[i,j+1] + c[i]*Grid[i+1,j+1]];
    the right-hand side reads column [j+1] only, and no other cell of the
    grid is written. *)
Theorem explicit_traverse_grid_recursion
    (s : FiniteDifferences) (co : FDExplicitEu.coefficients) :
  shape (grid s) (M s + 1) (N s + 1) ->
  j_values s = Np.irange (N s) ->
  length (FDExplicitEu.a co) = M s ->
  length (FDExplicitEu.b co) = M s ->
  length (FDExplicitEu.c co) = M s ->
  exists s',
    FDExplicitEu.traverse_grid s co = Ok s' /\
    (forall i j, (j < N s)%nat -> (2 <= i < M s)%nat ->
       exists ai bi ci,
         Np.get (FDExplicitEu.a co) i = Ok ai /\
         Np.get (FDExplicitEu.b co) i = Ok bi /\
         Np.get (FDExplicitEu.c co) i = Ok ci /\
         grid_get (grid s') i j = Ok (cell (grid s') i j) /\
         cell (grid s') i j
         = ai * cell (grid s') (i - 1) (j + 1)
           + bi * cell (grid s') i (j + 1)
           + ci * cell (grid s') (i + 1) (j + 1)) /\
    (forall i j, ~ ((j < N s)%nat /\ (2 <= i < M s)%nat) ->
       cell (grid s') i j = cell (grid s) i j).
Proof.
  intros Hs Hj Ha Hb Hc.
  destruct (traverse_grid_spec s co Hs Hj) as (s' & E & _ & Hs' & Hin & Hout).
  { unfold coefficients_cover. lia. }
  exists s'. split; [done |]. split; [| done].
  intros i j Hjn Hi.
  exists (coef (FDExplicitEu.a co) i), (coef (FDExplicitEu.b co) i),
         (coef (FDExplicitEu.c co) i).
  rewrite !get_coef by lia.
  rewrite (grid_get_cell _ _ _ i j Hs') by lia.
  repeat split; try done. by apply Hin.
Qed.

Lemma explicit_traverse_grid_recursion_witness :
  exists s',
    FDExplicitEu.traverse_grid sample_explicit sample_coefficients = Ok s' /\
    (forall i j, (j < 2)%nat -> (2 <= i < 4)%nat ->
       exists ai bi ci,
         Np.get (FDExplicitEu.a sample_coefficients) i = Ok ai /\
         Np.get (FDExplicitEu.b sample_coefficients) i = Ok bi /\
         Np.get (FDExplicitEu.c sample_coefficients) i = Ok ci /\
         grid_get (grid s') i j = Ok (cell (grid s') i j) /\
         cell (grid s') i j
         = ai * cell (grid s') (i - 1) (j + 1)
           + bi * cell (grid s') i (j + 1)
           + ci * cell (grid s') (i + 1) (j + 1)) /\
    (forall i j, ~ ((j < 2)%nat /\ (2 <= i < 4)%nat) ->
       cell (grid s') i j = cell (grid sample_explicit) i j).
Proof.
  apply (explicit_traverse_grid_recursion sample_explicit sample_coefficients).
  - apply shape_zeros2.
  - reflexivity.
  - reflexivity.
  - reflexivity.
  - reflexivity.
Defined.

(** ** Boundary and terminal conditions *)

Lemma sequence_Ok {A} (l : list (result A)) (l' : list A) :
  Forall2 (fun c x => c = Ok x) l l' -> Np.sequence l = Ok l'.
Proof.
  induction 1 as [| c x l l' -> _ IH]; [done |]. cbn. by rewrite IH.
Qed.

Lemma broadcast_to_same n v : length v = n -> Np.broadcast_to n v = Ok v.
Proof. intros H. unfold Np.broadcast_to. by rewrite decide_True. Qed.

Lemma set_in_range {A} (l : list A) i x :
  (i < length l)%nat -> Np.set l i x = Ok (<[i:=x]> l).
Proof. intros H. unfold Np.set. by rewrite decide_True. Qed.

Lemma set_last_column_spec g rows n v :
  shape g rows (n + 1) -> length v = rows ->
  exists g', set_last_column g v = Ok g' /\ shape g' rows (n + 1) /\
    forall i j, cell g' i j
                = if decide (j = n /\ (i < rows)%nat) then coef v i else cell g i j.
Proof.
  intros [Hlen Hall] Hv. exists (zip_with (fun row x => <[n:=x]> row) g v).
  split; [| split].
  - unfold set_last_column. rewrite broadcast_to_same by lia. cbn [rbind].
    apply sequence_Ok. clear Hlen Hv. revert v.
    induction Hall as [| row g Hrow _ IH]; intros v; [constructor |].
    destruct v as [| x v]; [constructor |]. cbn. constructor; [| apply IH].
    unfold Np.set_back. rewrite decide_True by lia.
    rewrite set_in_range by lia. f_equal. f_equal. lia.
  - split.
    + rewrite length_zip_with. lia.
    + apply Forall_forall. intros row' Hin.
      apply elem_of_lookup_zip_with in Hin as (i & row & x & -> & Hrow & _).
      rewrite length_insert. rewrite Forall_lookup in Hall. by eapply Hall.
  - intros i j. unfold cell, coef. rewrite lookup_zip_with.
    destruct (g !! i) as [row|] eqn:Hrow; cbn.
    + assert (Hi : (i < rows)%nat) by (apply lookup_lt_Some in Hrow; lia).
      destruct (lookup_lt_is_Some_2 v i) as [x Hx]; [lia |]. rewrite Hx. cbn.
      assert (length row = (n + 1)%nat) as Hr
        by (rewrite Forall_lookup in Hall; by eapply Hall).
      destruct (decide (j = n)) as [-> | Hne].
      * rewrite list_lookup_insert_eq by lia. by rewrite decide_True.
      * rewrite list_lookup_insert_ne by done. by rewrite decide_False by tauto.
    + apply lookup_ge_None in Hrow. rewrite decide_False by lia. done.
Qed.

Lemma set_init_spec row n v :
  length row = (n + 1)%nat -> length v = n ->
  set_init row v = Ok (v ++ drop n row) /\
  length (v ++ drop n row) = (n + 1)%nat /\
  forall j, (v ++ drop n row) !! j = if decide (j < n)%nat then v !! j else row !! j.
Proof.
  intros Hr Hv. unfold set_init. replace (length row - 1)%nat with n by lia.
  rewrite broadcast_to_same by done. split; [done |]. split.
  - rewrite length_app, length_drop. lia.
  - intros j. destruct (decide (j < n)%nat).
    + rewrite lookup_app_l by lia. done.
    + rewrite lookup_app_r by lia. rewrite lookup_drop. f_equal. lia.
Qed.

Lemma insert_row_init_spec g rows n i0 row v :
  shape g rows (n + 1) -> g !! i0 = Some row -> length v = n ->
  shape (<[i0 := v ++ drop n row]> g) rows (n + 1) /\
  forall i j, cell (<[i0 := v ++ drop n row]> g) i j
              = if decide (i = i0 /\ (j < n)%nat) then coef v j else cell g i j.
Proof.
  intros Hs Hrow Hv. pose proof (shape_lookup _ _ _ _ _ Hs Hrow) as Hr.
  destruct (set_init_spec row n v Hr Hv) as (_ & Hl & Hlk).
  pose proof (lookup_lt_Some _ _ _ Hrow) as Hi0.
  destruct Hs as [Hlen Hall]. split.
  - split; [by rewrite length_insert |]. by apply Forall_insert.
  - intros i j. unfold cell, coef. destruct (decide (i = i0)) as [-> | Hne].
    + rewrite list_lookup_insert_eq by done. cbn. rewrite Hlk, Hrow. cbn.
      destruct (decide (j < n)%nat).
      * by rewrite decide_True.
      * by rewrite decide_False by tauto.
    + rewrite list_lookup_insert_ne by done. by rewrite decide_False by tauto.
Qed.

Lemma set_first_row_init_spec g m n v :
  shape g (m + 1) (n + 1) -> length v = n ->
  exists g', set_first_row_init g v = Ok g' /\ shape g' (m + 1) (n + 1) /\
    forall i j, cell g' i j
                = if decide (i = O /\ (j < n)%nat) then coef v j else cell g i j.
Proof.
  intros Hs Hv. destruct (shape_row g _ _ O Hs ltac:(lia)) as (row & Hrow & Hr).
  exists (<[O := v ++ drop n row]> g).
  destruct (set_init_spec row n v Hr Hv) as (E & _ & _).
  split; [| by apply insert_row_init_spec].
  unfold set_first_row_init, Np.get. rewrite Hrow. cbn [rbind]. rewrite E. cbn [rbind].
  apply set_in_range. destruct Hs as [-> _]. lia.
Qed.

Lemma set_last_row_init_spec g m n v :
  shape g (m + 1) (n + 1) -> length v = n ->
  exists g', set_last_row_init g v = Ok g' /\ shape g' (m + 1) (n + 1) /\
    forall i j, cell g' i j
                = if decide (i = m /\ (j < n)%nat) then coef v j else cell g i j.
Proof.
  intros Hs Hv. destruct (shape_row g _ _ m Hs ltac:(lia)) as (row & Hrow & Hr).
  exists (<[m := v ++ drop n row]> g).
  destruct (set_init_spec row n v Hr Hv) as (E & _ & _).
  assert (length g = (m + 1)%nat) as Hlen by apply Hs.
  split; [| by apply insert_row_init_spec].
  unfold set_last_row_init, Np.get_back, Np.set_back, Np.get.
  rewrite !decide_True by lia. replace (length g - 1)%nat with m by lia.
  rewrite Hrow. cbn [rbind]. rewrite E. cbn [rbind].
  rewrite decide_True by lia. replace (length g - 1)%nat with m by lia.
  apply set_in_range. lia.
Qed.

Lemma coef_fmap (f : R -> R) l i :
  (i < length l)%nat -> coef (f <$> l) i = f (coef l i).
Proof.
  intros H. destruct (lookup_lt_is_Some_2 l i H) as [x Hx].
  unfold coef. rewrite list_lookup_fmap, Hx. done.
Qed.

Lemma coef_discounted s dt factor j :
  j_values s = Np.irange (N s) -> (j < N s)%nat ->
  coef (FDExplicitEu.discounted s dt factor) j
  = factor * exp (- r s * dt * (INR (N s) - INR j)).
Proof.
  intros Hj Hlt. unfold coef, FDExplicitEu.discounted. rewrite Hj. unfold Np.irange.
  rewrite list_lookup_fmap, lookup_seq_lt by done. done.
Qed.

Lemma length_discounted s dt factor :
  j_values s = Np.irange (N s) -> length (FDExplicitEu.discounted s dt factor) = N s.
Proof.
  intros Hj. unfold FDExplicitEu.discounted. rewrite Hj. unfold Np.irange.
  by rewrite length_fmap, length_seq.
Qed.

Lemma dt_Ok s : N s <> O -> dt s = Ok (T s / INR (N s)).
Proof. unfold dt, pydiv. by destruct (N s). Qed.

Lemma well_formed_with_grid s g :
  well_formed s -> shape g (M s + 1) (N s + 1) -> well_formed (with_grid s g).
Proof. intros (_ & Hj & Hb) Hs. split; [exact Hs | split; assumption]. Qed.

Lemma setup_boundary_conditions_spec (s : FiniteDifferences) :
  well_formed s -> N s <> O ->
  exists g',
    FDExplicitEu.setup_boundary_conditions s = Ok (with_grid s g') /\
    shape g' (M s + 1) (N s + 1) /\
    forall i j, cell g' i j = boundary_cell s (grid s) i j.
Proof.
  intros (Hs & Hj & Hb) HN.
  unfold FDExplicitEu.setup_boundary_conditions, boundary_cell.
  destruct (is_call s).
  - destruct (set_last_column_spec (grid s) (M s + 1) (N s)
                (Np.maximum0 ((fun x => x - K s) <$> boundary_conds s)) Hs)
      as (g1 & E1 & Hs1 & C1).
    { unfold Np.maximum0. by rewrite !length_fmap. }
    rewrite E1, dt_Ok by done. cbn [rbind].
    destruct (set_last_row_init_spec g1 (M s) (N s)
                (FDExplicitEu.discounted s (T s / INR (N s)) (Smax s - K s)) Hs1)
      as (g2 & E2 & Hs2 & C2).
    { by apply length_discounted. }
    rewrite E2. cbn [rbind]. exists g2. split; [done |]. split; [done |].
    intros i j. rewrite C2, C1.
    destruct (decide (i = M s /\ (j < N s)%nat)) as [[-> Hlt] | Hn].
    + by rewrite coef_discounted.
    + destruct (decide (j = N s /\ (i < M s + 1)%nat)) as [[-> Hlt] | Hn2]; [| done].
      unfold Np.maximum0. rewrite !coef_fmap; [done | lia |].
      rewrite length_fmap. lia.
  - destruct (set_last_column_spec (grid s) (M s + 1) (N s)
                (Np.maximum0 ((fun x => K s - x) <$> boundary_conds s)) Hs)
      as (g1 & E1 & Hs1 & C1).
    { unfold Np.maximum0. by rewrite !length_fmap. }
    rewrite E1, dt_Ok by done. cbn [rbind].
    destruct (set_first_row_init_spec g1 (M s) (N s)
                (FDExplicitEu.discounted s (T s / INR (N s)) (K s - Smax s)) Hs1)
      as (g2 & E2 & Hs2 & C2).
    { by apply length_discounted. }
    rewrite E2. cbn [rbind]. exists g2. split; [done |]. split; [done |].
    intros i j. rewrite C2, C1.
    destruct (decide (i = O /\ (j < N s)%nat)) as [[-> Hlt] | Hn].
    + by rewrite coef_discounted.
    + destruct (decide (j = N s /\ (i < M s + 1)%nat)) as [[-> Hlt] | Hn2]; [| done].
      unfold Np.maximum0. rewrite !coef_fmap; [done | lia |].
      rewrite length_fmap. lia.
Qed.

Lemma length_linspace a b n : length (Np.linspace a b n) = n.
Proof. unfold Np.linspace. by rewrite length_fmap, length_seq. Qed.

Lemma coef_linspace a b n i :
  (i < n)%nat -> coef (Np.linspace a b n) i = a + INR i * ((b - a) / INR (n - 1)).
Proof.
  intros H. unfold coef, Np.linspace.
  rewrite list_lookup_fmap, lookup_seq_lt by done. done.
Qed.

Lemma well_formed_init S0 K r T sigma Smax M N is_put :
  well_formed (init S0 K r T sigma Smax M N is_put).
Proof.
  split; [apply shape_zeros2 |]. split; [done |]. cbn. apply length_linspace.
Qed.

(** ** European put: the two price boundaries *)

Lemma discount_pos s j : 0 < discount s j.
Proof. apply exp_pos. Qed.

Lemma last_node start stop m :
  m <> O -> coef (Np.linspace start stop (m + 1)) m = stop.
Proof.
  intros Hm. rewrite coef_linspace by lia. replace (m + 1 - 1)%nat with m by lia.
  assert (INR m <> 0) by (by apply not_0_INR). field. done.
Qed.

(** What [setup_boundary_conditions] leaves in rows [0] and [M] of the grid
    of a freshly constructed put solver. *)
Lemma put_boundary_rows S0 K r T sigma Smax M N :
  N <> O -> M <> O -> K < Smax ->
  let s := init S0 K r T sigma Smax M N true in
  exists g',
    FDExplicitEu.setup_boundary_conditions s = Ok (with_grid s g') /\
    (forall j, (j <= N)%nat -> cell g' M j = 0) /\
    (forall j, (j < N)%nat ->
       cell g' O j = (K - Smax) * discount s j /\ cell g' O j < 0) /\
    cell g' O N = Rmax 0 K.
Proof.
  intros HN HM HK s.
  destruct (setup_boundary_conditions_spec s (well_formed_init _ _ _ _ _ _ _ _ _) HN)
    as (g' & E & Hs & C).
  exists g'. split; [done |]. unfold boundary_cell in C. cbn in C.
  split; [| split].
  - intros j Hj. rewrite C. rewrite decide_False by lia.
    destruct (decide (j = N /\ (M < M + 1)%nat)) as [[-> _] | Hn].
    + rewrite last_node by done. apply Rmax_left. lra.
    + apply cell_zeros2.
  - intros j Hj. rewrite C. rewrite decide_True by done. split; [done |].
    pose proof (discount_pos s j). nra.
  - rewrite C. rewrite decide_False by lia. rewrite decide_True by lia.
    rewrite coef_linspace by lia. cbn [INR]. f_equal. lra.
Qed.

(** C3 at the put [FDExplicitEu(50, 50, 0.1, 5/12, 0.4, 100, 4, 2, True)]:
    the upper boundary row is [0] at every time column, but the lower
    boundary row holds the negative value [(K-Smax)*exp(-r*dt*(N-j))] for
    [j < N], not the discounted strike [K*exp(-r*dt*(N-j))] that
    [FDCnAm.setup_boundary_conditions] uses for the same edge. *)
Theorem put_lower_boundary_is_not_discounted_strike :
  exists g',
    FDExplicitEu.setup_boundary_conditions sample_explicit
      = Ok (with_grid sample_explicit g') /\
    (forall j, (j <= 2)%nat -> cell g' 4 j = 0) /\
    (forall j, (j < 2)%nat ->
       cell g' 0 j = (50 - 100) * discount sample_explicit j /\
       cell g' 0 j < 0 /\
       cell g' 0 j <> 50 * discount sample_explicit j) /\
    exists bc,
      FDCnAm.setup_boundary_conditions sample_american = Ok bc /\
      forall j, (j < 2)%nat ->
        Np.get (FDCnAm.boundary_values bc) j = Ok (50 * discount sample_explicit j).
Proof.
  destruct (put_boundary_rows 50 50 0.1 (5 / 12) 0.4 100 4 2)
    as (g' & E & Hup & Hlow & _); [lia | lia | lra |].
  exists g'. split; [exact E |]. split; [exact Hup |]. split.
  - intros j Hj. destruct (Hlow j Hj) as [Heq Hneg]. split; [exact Heq |].
    split; [exact Hneg |].
    pose proof (discount_pos sample_explicit j). lra.
  - eexists. split; [reflexivity |]. intros j Hj.
    assert (j = 0 \/ j = 1)%nat as [-> | ->] by lia; reflexivity.
Qed.

(** ** Interpolation *)

Lemma increasing_tail x0 l : increasing (x0 :: l) -> increasing l.
Proof.
  intros H i j x y Hi Hj Hlt. apply (H (S i) (S j) x y); [done | done | lia].
Qed.

Lemma increasing_head x0 l i x : increasing (x0 :: l) -> l !! i = Some x -> x0 < x.
Proof. intros H Hi. apply (H O (S i) x0 x); [done | done | lia]. Qed.

Lemma last_default {A} (l : list A) (x d d' : A) :
  List.last (x :: l) d = List.last (x :: l) d'.
Proof.
  revert x. induction l as [| y l IH]; intros x; [done |].
  change (List.last (y :: l) d = List.last (y :: l) d'). apply IH.
Qed.

Lemma last_cons_lookup {A} (l : list A) (x0 : A) :
  (x0 :: l) !! length l = Some (List.last l x0).
Proof.
  revert x0. induction l as [| x1 l IH]; intros x0; [done |].
  cbn [length]. rewrite lookup_cons. cbn. rewrite (IH x1).
  destruct l as [| y l]; [done |]. f_equal. apply last_default.
Qed.

Lemma node_le_last x0 l i x :
  increasing (x0 :: l) -> (x0 :: l) !! i = Some x -> x <= List.last l x0.
Proof.
  intros Hinc Hi. pose proof (last_cons_lookup l x0) as Hl.
  pose proof (lookup_lt_Some _ _ _ Hi) as Hlt. cbn in Hlt.
  destruct (decide (i = length l)) as [-> | Hne].
  - rewrite Hi in Hl. injection Hl as ->. lra.
  - left. apply (Hinc i (length l) x _ Hi Hl). lia.
Qed.

Lemma search_at_node xp' : forall fp' x0 y0 i x,
  increasing (x0 :: xp') -> length xp' = length fp' ->
  (x0 :: xp') !! i = Some x ->
  Np.search x x0 y0 xp' fp' = coef (y0 :: fp') i.
Proof.
  induction xp' as [| x1 xs IH]; intros fp' x0 y0 i x Hinc Hlen Hi.
  - destruct fp'; [| done]. destruct i; [done |]. done.
  - destruct fp' as [| y1 ys]; [done |]. cbn [Np.search].
    destruct i as [| i'].
    + injection Hi as ->.
      pose proof (increasing_head x (x1 :: xs) O x1 Hinc eq_refl).
      destruct (Rle_dec x1 x); [lra |].
      destruct (Req_dec_T x x); [done | lra].
    + cbn in Hi.
      assert (x1 <= x) as Hle.
      { destruct i'; [injection Hi as ->; lra |].
        left. eapply increasing_head; [by eapply increasing_tail | exact Hi]. }
      destruct (Rle_dec x1 x); [| lra].
      rewrite (IH ys x1 y1 i' x); [done | by eapply increasing_tail | | done].
      cbn in Hlen. lia.
Qed.

Lemma interp_at_node xp fp i x :
  increasing xp -> length xp = length fp -> xp !! i = Some x ->
  Np.interp x xp fp = Ok (coef fp i).
Proof.
  intros Hinc Hlen Hi. destruct xp as [| x0 xp']; [done |].
  destruct fp as [| y0 fp']; [done |]. cbn in Hlen. unfold Np.interp.
  rewrite decide_True by lia.
  pose proof (node_le_last x0 xp' i x Hinc Hi).
  destruct (Rlt_dec (List.last xp' x0) x); [lra |].
  assert (x0 <= x).
  { destruct i; [injection Hi as ->; lra |]. left. by eapply increasing_head. }
  destruct (Rlt_dec x x0); [lra |].
  f_equal. apply search_at_node; [done | lia | done].
Qed.

Lemma interp_first_segment x0 x1 xs y0 y1 ys x :
  increasing (x0 :: x1 :: xs) -> length xs = length ys -> x0 <= x <= x1 ->
  Np.interp x (x0 :: x1 :: xs) (y0 :: y1 :: ys)
  = Ok ((y1 - y0) / (x1 - x0) * (x - x0) + y0).
Proof.
  intros Hinc Hlen [Hlo Hhi]. unfold Np.interp. cbn [length].
  rewrite decide_True by lia.
  pose proof (node_le_last x0 (x1 :: xs) 1 x1 Hinc eq_refl) as Hlast.
  pose proof (increasing_head x0 (x1 :: xs) O x1 Hinc eq_refl) as H01.
  destruct (Rlt_dec (List.last (x1 :: xs) x0) x); [lra |].
  destruct (Rlt_dec x x0); [lra |]. f_equal. cbn [Np.search].
  destruct (Rle_dec x1 x) as [Hge | Hlt].
  - assert (x = x1) as -> by lra.
    rewrite (search_at_node xs ys x1 y1 O x1);
      [| by eapply increasing_tail | done | done].
    unfold coef. cbn. field. lra.
  - destruct (Req_dec_T x0 x) as [-> | Hne]; [| done]. field. lra.
Qed.

Lemma linspace_increasing a b m : a < b -> increasing (Np.linspace a b (m + 1)).
Proof.
  intros Hab i j x y Hi Hj Hlt. unfold Np.linspace in *.
  rewrite list_lookup_fmap in Hi, Hj.
  destruct (seq 0 (m + 1) !! i) as [i'|] eqn:Ei; [| done].
  destruct (seq 0 (m + 1) !! j) as [j'|] eqn:Ej; [| done].
  apply lookup_seq in Ei as [-> _]. apply lookup_seq in Ej as [-> Hjm].
  cbn in Hi, Hj. injection Hi as <-. injection Hj as <-.
  replace (m + 1 - 1)%nat with m by lia.
  assert (0 < INR m) as Hm by (apply lt_0_INR; lia).
  assert (INR i < INR j) as Hij by (by apply lt_INR).
  assert (0 < (b - a) / INR m) as Hstep.
  { apply Rdiv_lt_0_compat; lra. }
  cbn [Nat.add]. nra.
Qed.

Lemma column_spec g rows cols j :
  shape g rows cols -> (j < cols)%nat ->
  exists col, column j g = Ok col /\ length col = rows /\
    forall i, coef col i = cell g i j.
Proof.
  intros [Hlen Hall] Hj. exists ((fun row => coef row j) <$> g).
  split; [| split].
  - unfold column. apply sequence_Ok. clear Hlen.
    induction Hall as [| row g Hrow _ IH]; [constructor |].
    cbn. constructor; [| exact IH]. apply get_coef. lia.
  - by rewrite length_fmap.
  - intros i. unfold coef at 1, cell. rewrite list_lookup_fmap.
    destruct (g !! i) as [row|] eqn:E; [| done]. cbn. done.
Qed.

Lemma interpolate_spec s :
  shape (grid s) (M s + 1) (N s + 1) ->
  exists col, interpolate s = Np.interp (S0 s) (boundary_conds s) col /\
    length col = (M s + 1)%nat /\ forall i, coef col i = cell (grid s) i 0.
Proof.
  intros Hs. destruct (column_spec _ _ _ O Hs ltac:(lia)) as (col & E & Hl & Hc).
  exists col. unfold interpolate. rewrite E. done.
Qed.

Lemma node_lookup lo hi m i :
  (i <= m)%nat ->
  Np.linspace lo hi (m + 1) !! i = Some (coef (Np.linspace lo hi (m + 1)) i).
Proof.
  intros Hi. destruct (lookup_lt_is_Some_2 (Np.linspace lo hi (m + 1)) i) as [x Hx].
  { rewrite length_linspace. lia. }
  unfold coef. by rewrite Hx.
Qed.

(** C9: interpolating at the exact price of a grid node returns the value
    stored at that node: [grid[i,0]] for the solvers that interpolate over
    the grid (price nodes [linspace(lo, Smax, M+1)] with [lo < Smax], where
    [lo] is [0] or the barrier), and [values[k]] for the American solver. *)
Theorem interpolate_at_grid_node
    (s : FiniteDifferences) (lo : R) (i : nat)
    (am : FDCnAm.t) (values : list R) (k : nat) :
  well_formed s ->
  boundary_conds s = Np.linspace lo (Smax s) (M s + 1) ->
  lo < Smax s ->
  (i <= M s)%nat ->
  boundary_conds (FDCnAm.fd am)
    = Np.linspace 0 (Smax (FDCnAm.fd am)) (M (FDCnAm.fd am) + 1) ->
  0 < Smax (FDCnAm.fd am) ->
  length values = (M (FDCnAm.fd am) + 1)%nat ->
  (k <= M (FDCnAm.fd am))%nat ->
  (interpolate (with_S0 s (coef (boundary_conds s) i)) = Ok (cell (grid s) i 0) /\
   grid_get (grid s) i 0 = Ok (cell (grid s) i 0)) /\
  (FDCnAm.interpolate
     (am_with_S0 am (coef (boundary_conds (FDCnAm.fd am)) k)) values
   = Ok (coef values k) /\
   Np.get values k = Ok (coef values k)).
Proof.
  intros Hwf Hbc Hlo Hi Hbc' Hlo' Hlen Hk. split; split.
  - destruct Hwf as (Hs & _ & Hb).
    destruct (interpolate_spec (with_S0 s (coef (boundary_conds s) i)) Hs)
      as (col & E & Hl & Hc).
    rewrite E. cbn [S0 boundary_conds with_S0]. rewrite <- Hc.
    apply interp_at_node.
    + rewrite Hbc. by apply linspace_increasing.
    + cbn in Hl. lia.
    + rewrite Hbc. by apply node_lookup.
  - destruct Hwf as (Hs & _ & _).
    apply (grid_get_cell _ _ _ _ _ Hs); lia.
  - unfold FDCnAm.interpolate. cbn [S0 boundary_conds with_S0 am_with_S0 FDCnAm.fd].
    apply interp_at_node.
    + rewrite Hbc'. by apply linspace_increasing.
    + rewrite Hbc', length_linspace. lia.
    + rewrite Hbc'. by apply node_lookup.
  - apply get_coef. lia.
Qed.

Lemma interpolate_at_grid_node_witness :
  (interpolate (with_S0 sample_explicit (coef (boundary_conds sample_explicit) 3))
   = Ok (cell (grid sample_explicit) 3 0) /\
   grid_get (grid sample_explicit) 3 0 = Ok (cell (grid sample_explicit) 3 0)) /\
  (FDCnAm.interpolate
     (am_with_S0 sample_american
        (coef (boundary_conds (FDCnAm.fd sample_american)) 2))
     [7; 5; 3; 1; 0]
   = Ok (coef [7; 5; 3; 1; 0] 2) /\
   Np.get [7; 5; 3; 1; 0] 2 = Ok (coef [7; 5; 3; 1; 0] 2)).
Proof.
  apply (interpolate_at_grid_node sample_explicit 0 3 sample_american [7; 5; 3; 1; 0] 2).
  - apply well_formed_init.
  - reflexivity.
  - simpl. lra.
  - simpl. lia.
  - reflexivity.
  - simpl. lra.
  - reflexivity.
  - simpl. lia.
Defined.

(** ** FDExplicitEu: the whole pricing run *)

Lemma setup_coefficients_Ok s :
  N s <> O ->
  exists co, FDExplicitEu.setup_coefficients s = Ok co /\
    length (FDExplicitEu.a co) = length (i_values s) /\
    length (FDExplicitEu.b co) = length (i_values s) /\
    length (FDExplicitEu.c co) = length (i_values s).
Proof.
  intros HN. unfold FDExplicitEu.setup_coefficients. rewrite dt_Ok by done.
  cbn [rbind]. eexists. split; [reflexivity |]. cbn. by rewrite !length_fmap.
Qed.

Lemma interp_Ok x xp fp :
  xp <> [] -> length xp = length fp -> exists p, Np.interp x xp fp = Ok p.
Proof.
  intros Hne Hlen. destruct xp as [| x0 xp']; [done |].
  destruct fp as [| y0 fp']; [done |]. unfold Np.interp. cbn in Hlen.
  rewrite decide_True by lia.
  destruct (Rlt_dec _ _); [eauto |]. destruct (Rlt_dec _ _); eauto.
Qed.

(** The three steps of [price] before the interpolation, on a freshly
    constructed solver. *)
Lemma explicit_run S0 K r T sigma Smax M N is_put :
  N <> O ->
  let s := init S0 K r T sigma Smax M N is_put in
  exists g1 co g2,
    FDExplicitEu.setup_boundary_conditions s = Ok (with_grid s g1) /\
    (forall i j, cell g1 i j = boundary_cell s (grid s) i j) /\
    FDExplicitEu.setup_coefficients (with_grid s g1) = Ok co /\
    FDExplicitEu.traverse_grid (with_grid s g1) co = Ok (with_grid s g2) /\
    shape g2 (M + 1) (N + 1) /\
    (forall i j, ~ ((j < N)%nat /\ (2 <= i < M)%nat) -> cell g2 i j = cell g1 i j) /\
    FDExplicitEu.price s = interpolate (with_grid s g2).
Proof.
  intros HN s.
  pose proof (well_formed_init S0 K r T sigma Smax M N is_put) as Hwf. fold s in Hwf.
  destruct (setup_boundary_conditions_spec s Hwf HN) as (g1 & E1 & Hs1 & C1).
  destruct (setup_coefficients_Ok (with_grid s g1) HN) as (co & E2 & La & Lb & Lc).
  cbn in La, Lb, Lc. rewrite length_arange in La, Lb, Lc.
  destruct (traverse_grid_spec (with_grid s g1) co Hs1 eq_refl)
    as (s2 & E3 & Hs2eq & Hs2 & _ & Hout).
  { unfold coefficients_cover. cbn. lia. }
  exists g1, co, (grid s2). rewrite Hs2eq in E3. cbn in E3, Hs2, Hout.
  repeat split; try done; try apply Hs2.
  unfold FDExplicitEu.price. rewrite E1. cbn [rbind]. rewrite E2. cbn [rbind].
  rewrite E3. done.
Qed.

Lemma setup_boundary_conditions_no_time_step s :
  well_formed s -> N s = O ->
  FDExplicitEu.setup_boundary_conditions s = Raise ZeroDivisionError.
Proof.
  intros (Hs & _ & Hb) HN. unfold FDExplicitEu.setup_boundary_conditions.
  assert (forall v, length v = (M s + 1)%nat ->
            exists g1, set_last_column (grid s) v = Ok g1) as Hcol.
  { intros v Hv.
    destruct (set_last_column_spec (grid s) (M s + 1) (N s) v) as (g1 & E & _);
      [done | done | eauto]. }
  assert (dt s = Raise ZeroDivisionError) as Hdt by (unfold dt; by rewrite HN).
  destruct (is_call s).
  - destruct (Hcol (Np.maximum0 ((fun x => x - K s) <$> boundary_conds s))) as (g1 & E).
    { unfold Np.maximum0. by rewrite !length_fmap. }
    rewrite E, Hdt. done.
  - destruct (Hcol (Np.maximum0 ((fun x => K s - x) <$> boundary_conds s))) as (g1 & E).
    { unfold Np.maximum0. by rewrite !length_fmap. }
    rewrite E, Hdt. done.
Qed.

Lemma float_max_pos : 0 < FDCnAm.float_max.
Proof.
  unfold FDCnAm.float_max. apply Rmult_lt_0_compat.
  - assert (/ 2 ^ 52 <= 1).
    { rewrite <- Rinv_1. apply Rinv_le_contravar; [lra |].
      apply pow_R1_Rle. lra. }
    lra.
  - apply pow_lt. lra.
Qed.

Lemma float_max_ge_1 : 1 <= FDCnAm.float_max.
Proof.
  unfold FDCnAm.float_max.
  assert (/ 2 ^ 52 <= 1).
  { rewrite <- Rinv_1. apply Rinv_le_contravar; [lra |]. apply pow_R1_Rle. lra. }
  assert (1 <= 2 ^ 1023) by (apply pow_R1_Rle; lra).
  nra.
Qed.

(** [price] of the explicit solver: no time step, or a volatility whose
    square is a float. *)
Lemma explicit_price_total S0 K r T sigma Smax M N is_put :
  match N with
  | O => FDExplicitEu.price (init S0 K r T sigma Smax M N is_put)
         = Raise ZeroDivisionError
  | S _ => sigma ^ 2 <= FDCnAm.float_max ->
           exists p, FDExplicitEu.price (init S0 K r T sigma Smax M N is_put) = Ok p
  end.
Proof.
  destruct N as [| n].
  - unfold FDExplicitEu.price.
    rewrite setup_boundary_conditions_no_time_step;
      [done | apply well_formed_init | done].
  - intros _.
    destruct (explicit_run S0 K r T sigma Smax M (S n) is_put ltac:(lia))
      as (g1 & co & g2 & _ & _ & _ & _ & Hs2 & _ & ->).
    destruct (interpolate_spec (with_grid (init S0 K r T sigma Smax M (S n) is_put) g2))
      as (col & -> & Hl & _); [exact Hs2 |].
    apply interp_Ok.
    + cbn. unfold Np.linspace. replace (M + 1)%nat with (S M) by lia. done.
    + cbn. rewrite length_linspace. cbn in Hl. lia.
Qed.

(** C7, as the code has it: no parameter is validated.  The constructor
    allocates the zero grid of [M+1] by [N+1] cells for every parameter
    set.  With [N = 0], [price] on the explicit solver stops with the
    [ZeroDivisionError] of [dt], raised after the grid exists; with
    [N >= 1] it returns a value, whatever the signs of [T], [sigma], [K],
    [Smax] and for [M = 0] too, as long as [sigma**2] is in the range of
    the floats (beyond [sys.float_info.max] Python's power raises
    [OverflowError], which is not an [InvalidParameters] either). *)
Theorem price_validates_nothing (S0 K r T sigma Smax : R) (M N : nat) (is_put : bool) :
  shape (grid (init S0 K r T sigma Smax M N is_put)) (M + 1) (N + 1) /\
  (forall i j, cell (grid (init S0 K r T sigma Smax M N is_put)) i j = 0) /\
  match N with
  | O => FDExplicitEu.price (init S0 K r T sigma Smax M N is_put)
         = Raise ZeroDivisionError
  | S _ => sigma ^ 2 <= FDCnAm.float_max ->
           exists p, FDExplicitEu.price (init S0 K r T sigma Smax M N is_put) = Ok p
  end.
Proof.
  split; [apply shape_zeros2 |]. split; [intros i j; apply cell_zeros2 |].
  apply explicit_price_total.
Qed.

Lemma price_validates_nothing_witness :
  0.4 ^ 2 <= FDCnAm.float_max /\
  exists p, FDExplicitEu.price (init 50 50 0.1 (5 / 12) 0.4 100 4 2 false) = Ok p.
Proof.
  assert (H : 0.4 ^ 2 <= FDCnAm.float_max).
  { pose proof float_max_ge_1. lra. }
  split; [exact H |].
  exact (proj2 (proj2 (price_validates_nothing 50 50 0.1 (5 / 12) 0.4 100 4 2 false)) H).
Defined.

(** C7, as the specification states it, fails: with [K], [T], [sigma],
    [Smax] and [M] all non-positive (and [Smax] below the strike and the
    spot) a price is returned. *)
Lemma nonpositive_parameters_are_priced :
  exists p, FDExplicitEu.price (init 50 (-50) 0.1 (-1) 0 (-100) 0 2 false) = Ok p.
Proof.
  apply (explicit_price_total 50 (-50) 0.1 (-1) 0 (-100) 0 2 false).
  pose proof float_max_pos. lra.
Qed.

(** ** FDExplicitEu: the row next to the lower boundary *)

Lemma two_heads (l : list R) :
  (2 <= length l)%nat ->
  exists xs, l = coef l 0 :: coef l 1 :: xs /\ length xs = (length l - 2)%nat.
Proof.
  intros H. destruct l as [| x0 [| x1 xs]]; cbn in H; [lia | lia |].
  exists xs. split; [done |]. cbn. lia.
Qed.

(** C10: the explicit traversal does not write row [1]; after the run of
    [price] on a fresh solver with [M >= 2] and [N >= 1] that row is still
    [0] in every column [j < N], and for a spot between the first two price
    nodes the price is the line from [grid[0,0]] to that [0]. *)
Theorem explicit_row_one_stays_zero (S0 K r T sigma Smax : R) (M N : nat) (is_put : bool) :
  (2 <= M)%nat -> N <> O -> 0 < Smax -> 0 <= S0 <= Smax / INR M ->
  let s := init S0 K r T sigma Smax M N is_put in
  exists g1 co g2,
    FDExplicitEu.setup_boundary_conditions s = Ok (with_grid s g1) /\
    FDExplicitEu.setup_coefficients (with_grid s g1) = Ok co /\
    FDExplicitEu.traverse_grid (with_grid s g1) co = Ok (with_grid s g2) /\
    (forall j, cell g2 1 j = cell g1 1 j) /\
    (forall j, (j < N)%nat -> cell g2 1 j = 0 /\ grid_get g2 1 j = Ok 0) /\
    cell g2 0 0 = (if is_put then (K - Smax) * discount s 0 else 0) /\
    FDExplicitEu.price s = Ok ((0 - cell g2 0 0) / (Smax / INR M) * S0 + cell g2 0 0).
Proof.
  intros HM HN HSmax HS0 s.
  destruct (explicit_run S0 K r T sigma Smax M N is_put HN)
    as (g1 & co & g2 & E1 & C1 & E2 & E3 & Hs2 & Hout & Hprice).
  fold s in E1, C1, E2, E3, Hprice.
  exists g1, co, g2. split; [done |]. split; [done |]. split; [done |].
  assert (Hrow1 : forall j, (j < N)%nat -> cell g2 1 j = 0).
  { intros j Hj. rewrite Hout by lia. rewrite C1. unfold boundary_cell. cbn.
    destruct is_put; cbn; rewrite !decide_False by lia; apply cell_zeros2. }
  assert (H00 : cell g2 0 0 = if is_put then (K - Smax) * discount s 0 else 0).
  { rewrite Hout by lia. rewrite C1. unfold boundary_cell. cbn.
    destruct is_put; cbn.
    - by rewrite decide_True by lia.
    - rewrite !decide_False by lia. apply cell_zeros2. }
  split; [intros j; apply Hout; lia |]. split.
  { intros j Hj. split; [by apply Hrow1 |].
    rewrite (grid_get_cell _ _ _ 1 j Hs2) by lia. f_equal. by apply Hrow1. }
  split; [exact H00 |].
  rewrite Hprice.
  destruct (interpolate_spec (with_grid s g2) Hs2) as (col & -> & Hl & Hc).
  subst s. cbn in Hl, Hc |- *.
  destruct (two_heads (Np.linspace 0 Smax (M + 1))) as (xs & Hxp & Hxs).
  { rewrite length_linspace. lia. }
  destruct (two_heads col) as (ys & Hfp & Hys); [lia |].
  rewrite length_linspace in Hxs.
  assert (Hinc := linspace_increasing 0 Smax M HSmax).
  rewrite !coef_linspace in Hxp by lia.
  replace (M + 1 - 1)%nat with M in Hxp by lia.
  assert (0 < INR M) as HposM by (apply lt_0_INR; lia).
  rewrite Hxp in Hinc |- *. rewrite Hfp.
  rewrite interp_first_segment; [| exact Hinc | lia |].
  - rewrite !Hc, Hrow1 by lia. f_equal. cbn [INR]. field. lra.
  - cbn [INR]. split; [lra |].
    replace (0 + 1 * ((Smax - 0) / INR M)) with (Smax / INR M) by (field; lra). lra.
Qed.

Lemma explicit_row_one_stays_zero_witness :
  let s := init 20 50 0.1 (5 / 12) 0.4 100 4 2 true in
  exists g1 co g2,
    FDExplicitEu.setup_boundary_conditions s = Ok (with_grid s g1) /\
    FDExplicitEu.setup_coefficients (with_grid s g1) = Ok co /\
    FDExplicitEu.traverse_grid (with_grid s g1) co = Ok (with_grid s g2) /\
    (forall j, cell g2 1 j = cell g1 1 j) /\
    (forall j, (j < 2)%nat -> cell g2 1 j = 0 /\ grid_get g2 1 j = Ok 0) /\
    cell g2 0 0 = (50 - 100) * discount s 0 /\
    FDExplicitEu.price s = Ok ((0 - cell g2 0 0) / (100 / INR 4) * 20 + cell g2 0 0).
Proof.
  apply (explicit_row_one_stays_zero 20 50 0.1 (5 / 12) 0.4 100 4 2 true).
  - lia.
  - lia.
  - lra.
  - simpl. lra.
Defined.

(** ** FDCnEu: the two tridiagonal operators *)

Lemma lookup_slice {A} lo hi (l : list A) i :
  Np.slice lo hi l !! i = if decide (i < hi - lo)%nat then l !! (lo + i)%nat else None.
Proof.
  unfold Np.slice. destruct (decide (i < hi - lo)%nat).
  - rewrite lookup_take_lt by done. apply lookup_drop.
  - apply lookup_take_ge. lia.
Qed.

Lemma length_slice {A} lo hi (l : list A) :
  (hi <= length l)%nat -> length (Np.slice lo hi l) = (hi - lo)%nat.
Proof. intros H. unfold Np.slice. rewrite length_take, length_drop. lia. Qed.

Lemma coef_slice lo hi l i :
  (i < hi - lo)%nat -> coef (Np.slice lo hi l) i = coef l (lo + i).
Proof. intros H. unfold coef. rewrite lookup_slice. by rewrite decide_True. Qed.

Lemma cell_rows (f : nat -> nat -> R) n i j :
  (i < n)%nat -> (j < n)%nat ->
  cell ((fun i => (fun j => f i j) <$> seq 0 n) <$> seq 0 n) i j = f i j.
Proof.
  intros Hi Hj. unfold cell. rewrite list_lookup_fmap, lookup_seq_lt by done. cbn.
  rewrite list_lookup_fmap, lookup_seq_lt by done. done.
Qed.

Lemma shape_rows (f : nat -> nat -> R) n :
  shape ((fun i => (fun j => f i j) <$> seq 0 n) <$> seq 0 n) n n.
Proof.
  split; [by rewrite length_fmap, length_seq |].
  apply Forall_fmap, Forall_forall. intros i _. cbn.
  by rewrite length_fmap, length_seq.
Qed.

Lemma shape_diag v k : 
  shape (Np.diag v k) (length v + Z.abs_nat k) (length v + Z.abs_nat k).
Proof. unfold Np.diag. apply shape_rows. Qed.

Lemma cell_diag v k i j :
  (i < length v + Z.abs_nat k)%nat -> (j < length v + Z.abs_nat k)%nat ->
  cell (Np.diag v k) i j
  = if decide (Z.of_nat j - Z.of_nat i = k)%Z then coef v (Nat.min i j) else 0.
Proof.
  intros Hi Hj. unfold Np.diag.
  rewrite (cell_rows (fun i j =>
             if decide (Z.of_nat j - Z.of_nat i = k)%Z
             then default 0 (v !! Nat.min i j) else 0)) by done.
  done.
Qed.

Lemma mat_neg_spec A n :
  shape A n n ->
  shape (Np.mat_neg A) n n /\ forall i j, cell (Np.mat_neg A) i j = - cell A i j.
Proof.
  intros [Hl Hall]. unfold Np.mat_neg. split.
  - split; [by rewrite length_fmap |].
    apply Forall_fmap. eapply Forall_impl; [exact Hall |].
    intros row Hrow. cbn. by rewrite length_fmap.
  - intros i j. unfold cell. rewrite list_lookup_fmap.
    destruct (A !! i) as [row|]; cbn; [| lra].
    rewrite list_lookup_fmap. destruct (row !! j); cbn; lra.
Qed.

Lemma vec_op_same f u v :
  length u = length v -> Np.vec_op f u v = Ok (zip_with f u v).
Proof.
  intros H. unfold Np.vec_op, Np.broadcast2. rewrite decide_True by done.
  cbn [rbind]. apply sequence_Ok. clear H. revert v.
  induction u as [| x u IH]; intros [| y v]; cbn; constructor; [done | apply IH].
Qed.

Lemma mat_op_spec f A B n :
  shape A n n -> shape B n n ->
  exists C, Np.mat_op f A B = Ok C /\ shape C n n /\
    forall i j, (i < n)%nat -> (j < n)%nat -> cell C i j = f (cell A i j) (cell B i j).
Proof.
  intros [HlA HA] [HlB HB]. exists (zip_with (zip_with f) A B).
  assert (Hrows : forall i ra rb, A !! i = Some ra -> B !! i = Some rb ->
                    length ra = n /\ length rb = n).
  { intros i ra rb Ha Hb. rewrite Forall_lookup in HA, HB.
    split; [by eapply HA | by eapply HB]. }
  split; [| split].
  - unfold Np.mat_op, Np.broadcast2. rewrite decide_True by lia. cbn [rbind].
    apply sequence_Ok. clear HlA HlB Hrows. revert B HB.
    induction HA as [| ra A Hra _ IH]; intros B HB; [constructor |].
    destruct HB as [| rb B Hrb HB]; [constructor |]. cbn. constructor; [| by apply IH].
    apply vec_op_same. lia.
  - split; [rewrite length_zip_with; lia |].
    apply Forall_forall. intros row Hin.
    apply elem_of_lookup_zip_with in Hin as (i & ra & rb & -> & Ha & Hb).
    destruct (Hrows i ra rb Ha Hb). rewrite length_zip_with. lia.
  - intros i j Hi Hj. unfold cell. rewrite lookup_zip_with.
    destruct (lookup_lt_is_Some_2 A i) as [ra Ha]; [lia |].
    destruct (lookup_lt_is_Some_2 B i) as [rb Hb]; [lia |].
    rewrite Ha, Hb. cbn. destruct (Hrows i ra rb Ha Hb) as [Hra Hrb].
    rewrite lookup_zip_with.
    destruct (lookup_lt_is_Some_2 ra j) as [x Hx]; [lia |].
    destruct (lookup_lt_is_Some_2 rb j) as [y Hy]; [lia |].
    rewrite Hx, Hy. done.
Qed.

Lemma cn_setup_coefficients_spec (s : FiniteDifferences) :
  N s <> O -> (2 <= M s)%nat -> (M s <= length (i_values s))%nat ->
  exists co,
    FDCnEu.setup_coefficients s = Ok co /\
    length (FDCnEu.alpha co) = length (i_values s) /\
    length (FDCnEu.beta co) = length (i_values s) /\
    length (FDCnEu.gamma co) = length (i_values s) /\
    shape (FDCnEu.M1 co) (M s - 1) (M s - 1) /\
    shape (FDCnEu.M2 co) (M s - 1) (M s - 1) /\
    forall k l, (k < M s - 1)%nat -> (l < M s - 1)%nat ->
      cell (FDCnEu.M1 co) k l
      = tridiagonal (- coef (FDCnEu.alpha co) (k + 1))
                    (1 - coef (FDCnEu.beta co) (k + 1))
                    (- coef (FDCnEu.gamma co) (k + 1)) k l /\
      cell (FDCnEu.M2 co) k l
      = tridiagonal (coef (FDCnEu.alpha co) (k + 1))
                    (1 + coef (FDCnEu.beta co) (k + 1))
                    (coef (FDCnEu.gamma co) (k + 1)) k l.
Proof.
  intros HN HM Hiv. unfold FDCnEu.setup_coefficients. rewrite dt_Ok by done.
  cbn [rbind].
  set (alpha := (fun i => 0.25 * _ * _) <$> i_values s).
  set (beta := (fun i => - _ * 0.5 * _) <$> i_values s).
  set (gamma := (fun i => 0.25 * _ * _) <$> i_values s).
  assert (La : length alpha = length (i_values s)) by apply length_fmap.
  assert (Lb : length beta = length (i_values s)) by apply length_fmap.
  assert (Lg : length gamma = length (i_values s)) by apply length_fmap.
  set (sub := Np.diag (Np.slice 2 (M s) alpha) (-1)).
  set (sup := Np.diag (Np.slice 1 (M s - 1) gamma) 1).
  set (d1 := Np.diag ((fun x => 1 - x) <$> Np.slice 1 (M s) beta) 0).
  set (d2 := Np.diag ((fun x => 1 + x) <$> Np.slice 1 (M s) beta) 0).
  set (n := (M s - 1)%nat).
  assert (Hsub : shape sub n n).
  { pose proof (shape_diag (Np.slice 2 (M s) alpha) (-1)) as H.
    rewrite length_slice in H by lia.
    replace (M s - 2 + Z.abs_nat (-1))%nat with n in H by (subst n; cbn; lia). done. }
  assert (Hsup : shape sup n n).
  { pose proof (shape_diag (Np.slice 1 (M s - 1) gamma) 1) as H.
    rewrite length_slice in H by lia.
    replace (M s - 1 - 1 + Z.abs_nat 1)%nat with n in H by (subst n; cbn; lia). done. }
  assert (Hd1 : shape d1 n n).
  { pose proof (shape_diag ((fun x => 1 - x) <$> Np.slice 1 (M s) beta) 0) as H.
    rewrite length_fmap, length_slice in H by lia.
    replace (M s - 1 + Z.abs_nat 0)%nat with n in H by (subst n; cbn; lia). done. }
  assert (Hd2 : shape d2 n n).
  { pose proof (shape_diag ((fun x => 1 + x) <$> Np.slice 1 (M s) beta) 0) as H.
    rewrite length_fmap, length_slice in H by lia.
    replace (M s - 1 + Z.abs_nat 0)%nat with n in H by (subst n; cbn; lia). done. }
  destruct (mat_neg_spec sub n Hsub) as [Hnsub Cnsub].
  destruct (mat_op_spec Rplus _ _ n Hnsub Hd1) as (m1 & E1 & Hm1 & C1).
  destruct (mat_op_spec Rminus _ _ n Hm1 Hsup) as (M1 & E2 & HM1 & C2).
  destruct (mat_op_spec Rplus _ _ n Hsub Hd2) as (m2 & E3 & Hm2 & C3).
  destruct (mat_op_spec Rplus _ _ n Hm2 Hsup) as (M2 & E4 & HM2 & C4).
  rewrite E1. cbn [rbind]. rewrite E2. cbn [rbind]. rewrite E3. cbn [rbind].
  rewrite E4. cbn [rbind]. eexists. split; [reflexivity |].
  cbn [FDCnEu.alpha FDCnEu.beta FDCnEu.gamma FDCnEu.M1 FDCnEu.M2].
  do 5 (split; [done |]).
  intros k l Hk Hl.
  assert (Csub : cell sub k l
                 = if decide (S l = k) then coef alpha (k + 1) else 0).
  { subst sub. rewrite cell_diag by (rewrite length_slice by lia; cbn; lia).
    destruct (decide (S l = k)) as [<- | Hne].
    - rewrite decide_True by lia. rewrite Nat.min_r by lia.
      rewrite coef_slice by lia. f_equal. lia.
    - by rewrite decide_False by lia. }
  assert (Csup : cell sup k l
                 = if decide (l = S k) then coef gamma (k + 1) else 0).
  { subst sup. rewrite cell_diag by (rewrite length_slice by lia; cbn; lia).
    destruct (decide (l = S k)) as [-> | Hne].
    - rewrite decide_True by lia. rewrite Nat.min_l by lia.
      rewrite coef_slice by lia. f_equal. lia.
    - by rewrite decide_False by lia. }
  assert (Cd : forall f : R -> R,
            cell (Np.diag (f <$> Np.slice 1 (M s) beta) 0) k l
            = if decide (l = k) then f (coef beta (k + 1)) else 0).
  { intros f.
    rewrite cell_diag by (rewrite length_fmap, length_slice by lia; cbn; lia).
    destruct (decide (l = k)) as [-> | Hne].
    - rewrite decide_True by lia. rewrite Nat.min_id.
      rewrite coef_fmap by (rewrite length_slice by lia; lia).
      rewrite coef_slice by lia. do 2 f_equal. lia.
    - by rewrite decide_False by lia. }
  rewrite C2, C1, C4, C3, Cnsub, Csub, Csup by done.
  subst d1 d2. rewrite !Cd. unfold tridiagonal.
  repeat case_decide; try lia; split; lra.
Qed.

(** C4: the two Crank-Nicolson operators are the [M-1] by [M-1]
    tridiagonal matrices whose row for the interior index [i = k+1] holds
    [(-alpha[i], 1-beta[i], -gamma[i])] in [M1] and
    [(alpha[i], 1+beta[i], gamma[i])] in [M2] below, on and above the
    diagonal, and [M1 + M2 = 2*I] entry by entry. *)
Theorem crank_nicolson_operators_mirror (s : FiniteDifferences) :
  N s <> O -> (2 <= M s)%nat -> (M s <= length (i_values s))%nat ->
  exists co,
    FDCnEu.setup_coefficients s = Ok co /\
    shape (FDCnEu.M1 co) (M s - 1) (M s - 1) /\
    shape (FDCnEu.M2 co) (M s - 1) (M s - 1) /\
    forall k l, (k < M s - 1)%nat -> (l < M s - 1)%nat ->
      exists a_i b_i c_i,
        Np.get (FDCnEu.alpha co) (k + 1) = Ok a_i /\
        Np.get (FDCnEu.beta co) (k + 1) = Ok b_i /\
        Np.get (FDCnEu.gamma co) (k + 1) = Ok c_i /\
        cell (FDCnEu.M1 co) k l = tridiagonal (- a_i) (1 - b_i) (- c_i) k l /\
        cell (FDCnEu.M2 co) k l = tridiagonal a_i (1 + b_i) c_i k l /\
        cell (FDCnEu.M1 co) k l + cell (FDCnEu.M2 co) k l
        = (if decide (k = l) then 2 else 0).
Proof.
  intros HN HM Hiv.
  destruct (cn_setup_coefficients_spec s HN HM Hiv)
    as (co & E & La & Lb & Lg & H1 & H2 & C).
  exists co. do 3 (split; [done |]). intros k l Hk Hl.
  exists (coef (FDCnEu.alpha co) (k + 1)), (coef (FDCnEu.beta co) (k + 1)),
         (coef (FDCnEu.gamma co) (k + 1)).
  rewrite !get_coef by lia. do 3 (split; [done |]).
  destruct (C k l Hk Hl) as [-> ->]. do 2 (split; [done |]).
  unfold tridiagonal. repeat case_decide; try lia; lra.
Qed.

Lemma crank_nicolson_operators_mirror_witness :
  exists co,
    FDCnEu.setup_coefficients sample_cn = Ok co /\
    shape (FDCnEu.M1 co) 3 3 /\
    shape (FDCnEu.M2 co) 3 3 /\
    forall k l, (k < 3)%nat -> (l < 3)%nat ->
      exists a_i b_i c_i,
        Np.get (FDCnEu.alpha co) (k + 1) = Ok a_i /\
        Np.get (FDCnEu.beta co) (k + 1) = Ok b_i /\
        Np.get (FDCnEu.gamma co) (k + 1) = Ok c_i /\
        cell (FDCnEu.M1 co) k l = tridiagonal (- a_i) (1 - b_i) (- c_i) k l /\
        cell (FDCnEu.M2 co) k l = tridiagonal a_i (1 + b_i) c_i k l /\
        cell (FDCnEu.M1 co) k l + cell (FDCnEu.M2 co) k l
        = (if decide (k = l) then 2 else 0).
Proof.
  apply (crank_nicolson_operators_mirror sample_cn).
  - simpl. lia.
  - simpl. lia.
  - simpl. lia.
Defined.

(** ** FDCnDo: the barrier row *)

Lemma sequence_length {A} (l : list (result A)) (l' : list A) :
  Np.sequence l = Ok l' -> length l' = length l.
Proof.
  revert l'. induction l as [| c l IH]; intros l' H; cbn in H.
  - by injection H as <-.
  - destruct c as [x | e]; [| done]. cbn in H.
    destruct (Np.sequence l) as [xs | e]; [| done]. cbn in H.
    injection H as <-. cbn. f_equal. by apply IH.
Qed.

(** An assignment to [grid[1:hi, j]] leaves row [0] alone. *)
Lemma set_column_slice_first_row hi j g x g' :
  set_column_slice 1 hi j g x = Ok g' -> g' !! O = g !! O.
Proof.
  unfold set_column_slice. intros H.
  destruct (Np.broadcast_to _ x) as [x' | e]; [| done]. cbn [rbind] in H.
  destruct (Np.sequence _) as [rows' | e] eqn:E; [| done]. cbn [rbind] in H.
  injection H as <-. destruct g as [| row0 g]; [| done].
  unfold Np.slice in E. rewrite drop_nil, take_nil in E.
  apply sequence_length in E. cbn in E. by destruct rows'.
Qed.

Lemma cn_time_step_first_row solve s co L U g j g' :
  FDCnEu.time_step solve s co L U g j = Ok g' -> g' !! O = g !! O.
Proof.
  unfold FDCnEu.time_step. intros H.
  destruct (column_slice _ _ _ _) as [v | e]; [| done]. cbn [rbind] in H.
  destruct (Np.dot _ _) as [rhs | e]; [| done]. cbn [rbind] in H.
  destruct (solve _ rhs) as [x1 | e]; [| done]. cbn [rbind] in H.
  destruct (solve _ x1) as [x2 | e]; [| done]. cbn [rbind] in H.
  by eapply set_column_slice_first_row.
Qed.

Lemma cn_traverse_grid_first_row lu solve s co s' :
  FDCnEu.traverse_grid lu solve s co = Ok s' ->
  s' = with_grid s (grid s') /\ grid s' !! O = grid s !! O.
Proof.
  unfold FDCnEu.traverse_grid. intros H.
  destruct (lu _) as [plu | e]; [| done]. cbn [rbind] in H.
  destruct (for_each _ _ _) as [g | e] eqn:E; [| done].
  cbn [rbind] in H. injection H as <-. split; [done |]. cbn [grid with_grid].
  revert E. generalize (grid s) as g0. generalize (rev (seq 0 (N s))) as js.
  induction js as [| j js IH]; intros g0 E; cbn in E.
  - by injection E as <-.
  - destruct (FDCnEu.time_step _ _ _ _ _ g0 j) as [g1 | e] eqn:E1; [| done].
    cbn [rbind] in E. rewrite (IH g1 E).
    exact (cn_time_step_first_row solve s co _ _ g0 j g1 E1).
Qed.

Lemma cell_first_row g g' j : g' !! O = g !! O -> cell g' O j = cell g O j.
Proof. intros H. unfold cell. by rewrite H. Qed.


Lemma Ok_inj {A} (x y : A) : Ok x = Ok y -> x = y.
Proof. congruence. Qed.

(** Row [0] of the grid of a barrier solver after boundary setup and
    traversal. *)
Lemma barrier_row lu solve spot strike rate mat vol bar top m n is_put d s2 :
  FDCnDo.init spot strike rate mat vol bar top m n is_put = Ok d ->
  cn_traversed lu solve (FDCnDo.fd d) = Ok s2 ->
  m <> O /\ n <> O /\
  forall j, cell (grid s2) O j
            = if is_put
              then if decide (j < n)%nat then (strike - top) * discount (FDCnDo.fd d) j
                   else if decide (j = n) then Rmax 0 (strike - bar) else 0
              else if decide (j = n) then Rmax 0 (bar - strike) else 0.
Proof.
  intros Hinit Hrun. unfold FDCnDo.init, FDCnDo.dS, pydiv in Hinit.
  destruct m as [| m]; [done |]. cbn [rbind] in Hinit.
  apply Ok_inj in Hinit. subst d. cbn [FDCnDo.fd] in *.
  set (s := {| S0 := spot |}) in *.
  assert (Hwf : well_formed s).
  { split; [apply shape_zeros2 |]. split; [done |]. apply length_linspace. }
  assert (HN : n <> O).
  { intros ->. unfold cn_traversed in Hrun.
    by rewrite (setup_boundary_conditions_no_time_step s Hwf eq_refl) in Hrun. }
  split; [done |]. split; [done |]. intros j.
  destruct (setup_boundary_conditions_spec s Hwf HN) as (g1 & E1 & Hs1 & C1).
  unfold cn_traversed in Hrun. rewrite E1 in Hrun. cbn [rbind] in Hrun.
  destruct (FDCnEu.setup_coefficients _) as [co | e]; [| done]. cbn [rbind] in Hrun.
  apply cn_traverse_grid_first_row in Hrun as [_ Hrow].
  rewrite (cell_first_row _ _ j Hrow). cbn [grid with_grid]. rewrite C1.
  unfold boundary_cell.
  change (is_call s) with (negb is_put). change (M s) with (S m).
  change (N s) with n. change (K s) with strike. change (Smax s) with top.
  change (boundary_conds s) with (Np.linspace bar top (S m + 1)).
  change (grid s) with (Np.zeros2 (S m + 1) (n + 1)).
  assert (coef (Np.linspace bar top (S m + 1)) 0 = bar) as Hnode.
  { rewrite coef_linspace by lia. cbn [INR]. lra. }
  rewrite Hnode, cell_zeros2.
  destruct is_put; cbn [negb].
  - destruct (decide (j < n)%nat).
    + by rewrite decide_True by lia.
    + rewrite (decide_False (P := _ /\ (j < n)%nat)) by lia.
      destruct (decide (j = n)).
      * by rewrite decide_True by lia.
      * by rewrite decide_False by lia.
  - rewrite (decide_False (P := O = S m /\ _)) by lia.
    destruct (decide (j = n)).
    + by rewrite decide_True by lia.
    + by rewrite decide_False by lia.
Qed.

(** C8, as the code has it: for a down-and-out call, after boundary setup
    and traversal the grid value at the barrier row [i = 0] is [0] at every
    time step [j < N], and at maturity it is the payoff
    [max(0, Sbarrier - K)], so the whole row is [0] when [Sbarrier <= K]. *)
Theorem barrier_row_of_call lu solve (S0 K r T sigma Sbarrier Smax : R) (M N : nat) d s2 :
  FDCnDo.init S0 K r T sigma Sbarrier Smax M N false = Ok d ->
  cn_traversed lu solve (FDCnDo.fd d) = Ok s2 ->
  (forall j, (j < N)%nat -> cell (grid s2) O j = 0) /\
  cell (grid s2) O N = Rmax 0 (Sbarrier - K) /\
  (Sbarrier <= K -> forall j, (j <= N)%nat -> cell (grid s2) O j = 0).
Proof.
  intros Hinit Hrun.
  destruct (barrier_row lu solve _ _ _ _ _ _ _ _ _ _ d s2 Hinit Hrun) as (HM & HN & C).
  assert (Hlow : forall j, (j < N)%nat -> cell (grid s2) O j = 0).
  { intros j Hj. rewrite C. by rewrite decide_False by lia. }
  assert (Hend : cell (grid s2) O N = Rmax 0 (Sbarrier - K)).
  { rewrite C. by rewrite decide_True. }
  split; [done |]. split; [done |]. intros Hle j Hj.
  destruct (decide (j = N)) as [-> | Hne].
  - rewrite Hend. apply Rmax_left. lra.
  - apply Hlow. lia.
Qed.

Lemma barrier_row_of_call_witness :
  exists d s2,
    FDCnDo.init 50 50 0.1 (5 / 12) 0.4 40 100 3 1 false = Ok d /\
    cn_traversed lu_stub solve_stub (FDCnDo.fd d) = Ok s2 /\
    (forall j, (j < 1)%nat -> cell (grid s2) O j = 0) /\
    cell (grid s2) O 1 = Rmax 0 (40 - 50) /\
    (40 <= 50 -> forall j, (j <= 1)%nat -> cell (grid s2) O j = 0).
Proof.
  eexists. eexists. split; [reflexivity |]. split; [reflexivity |].
  eapply (barrier_row_of_call lu_stub solve_stub 50 50 0.1 (5 / 12) 0.4 40 100 3 1).
  - reflexivity.
  - reflexivity.
Defined.

(** C8, as the specification states it, fails.  For the down-and-out put
    [FDCnDo(50, 50, 0.1, 5/12, 0.4, 40, 100, 3, 1, True)] the barrier row
    holds [(K - Smax)*exp(-r*dt*N) < 0] at time step [0]; for the call
    [FDCnDo(80, 50, 0.1, 5/12, 0.4, 60, 100, 3, 1)], whose barrier is above
    the strike, it holds the payoff [10] at maturity.  Both hold whatever
    the two library routines return, and the run with the stand-ins shows
    that a traversal does return. *)
Lemma barrier_row_not_zero :
  (exists d,
     FDCnDo.init 50 50 0.1 (5 / 12) 0.4 40 100 3 1 true = Ok d /\
     (forall lu solve s2,
        cn_traversed lu solve (FDCnDo.fd d) = Ok s2 ->
        cell (grid s2) O O = (50 - 100) * discount (FDCnDo.fd d) 0 /\
        cell (grid s2) O O <> 0) /\
     exists s2, cn_traversed lu_stub solve_stub (FDCnDo.fd d) = Ok s2) /\
  (exists d,
     FDCnDo.init 80 50 0.1 (5 / 12) 0.4 60 100 3 1 false = Ok d /\
     (forall lu solve s2,
        cn_traversed lu solve (FDCnDo.fd d) = Ok s2 ->
        cell (grid s2) O 1 = 10 /\
        cell (grid s2) O 1 <> 0) /\
     exists s2, cn_traversed lu_stub solve_stub (FDCnDo.fd d) = Ok s2).
Proof.
  split.
  - assert (exists d, FDCnDo.init 50 50 0.1 (5 / 12) 0.4 40 100 3 1 true = Ok d)
      as (d & Ed) by (eexists; reflexivity).
    exists d. split; [exact Ed |]. split.
    + intros lu solve s2 E.
      destruct (barrier_row lu solve _ _ _ _ _ _ _ _ _ _ d s2 Ed E) as (_ & _ & C).
      rewrite C. rewrite decide_True by lia. split; [reflexivity |].
      pose proof (discount_pos (FDCnDo.fd d) 0). lra.
    + apply Ok_inj in Ed. subst d. eexists. reflexivity.
  - assert (exists d, FDCnDo.init 80 50 0.1 (5 / 12) 0.4 60 100 3 1 false = Ok d)
      as (d & Ed) by (eexists; reflexivity).
    exists d. split; [exact Ed |]. split.
    + intros lu solve s2 E.
      destruct (barrier_row lu solve _ _ _ _ _ _ _ _ _ _ d s2 Ed E) as (_ & _ & C).
      rewrite C. rewrite decide_True by lia.
      replace (60 - 50) with 10 by lra. rewrite Rmax_right by lra. split; [done | lra].
    + apply Ok_inj in Ed. subst d. eexists. reflexivity.
Qed.

(** ** FDCnAm: one pass of the relaxation loop *)

Lemma coef_insert (l : list R) i x j :
  coef (<[i:=x]> l) j = if decide (j = i /\ (i < length l)%nat) then x else coef l j.
Proof.
  unfold coef. destruct (decide (j = i /\ (i < length l)%nat)) as [[-> Hlt] | Hn].
  - by rewrite list_lookup_insert_eq.
  - destruct (decide (j = i)) as [-> | Hne].
    + rewrite list_insert_ge by lia. done.
    + by rewrite list_lookup_insert_ne.
Qed.

Lemma get_back_coef (l : list R) k :
  (1 <= k <= length l)%nat -> Np.get_back l k = Ok (coef l (length l - k)).
Proof.
  intros H. unfold Np.get_back. rewrite decide_True by lia. apply get_coef. lia.
Qed.

Lemma calculate_payoff_spec s co bc k rhs old new :
  am_shaped s co bc ->
  length rhs = (M (FDCnAm.fd s) - 1)%nat ->
  length old = (M (FDCnAm.fd s) - 1)%nat ->
  length new = (M (FDCnAm.fd s) - 1)%nat ->
  (1 <= k)%nat -> (k + 1 < M (FDCnAm.fd s) - 1)%nat ->
  FDCnAm.calculate_payoff s co bc k rhs old new
  = Ok (Rmax (coef (FDCnAm.payoffs bc) k)
             (interior_update s co k rhs old (coef new (k - 1)))).
Proof.
  intros (HM & La & Lb & Lg & _ & Lp & _) Lr Lo Ln Hk1 Hk2.
  unfold FDCnAm.calculate_payoff. rewrite !get_coef by lia. done.
Qed.

Lemma psor_inner_loop s co bc rhs old (n : nat) : forall a new,
  am_shaped s co bc ->
  length rhs = (M (FDCnAm.fd s) - 1)%nat ->
  length old = (M (FDCnAm.fd s) - 1)%nat ->
  length new = (M (FDCnAm.fd s) - 1)%nat ->
  (1 <= a)%nat -> (a + n + 1 <= M (FDCnAm.fd s) - 1)%nat ->
  exists new',
    for_each (seq a n)
      (fun new k =>
         do v <- FDCnAm.calculate_payoff s co bc k rhs old new; Np.set new k v)
      new = Ok new' /\
    length new' = (M (FDCnAm.fd s) - 1)%nat /\
    (forall k, (a <= k < a + n)%nat ->
       coef new' k = Rmax (coef (FDCnAm.payoffs bc) k)
                          (interior_update s co k rhs old (coef new' (k - 1)))) /\
    (forall k, ~ (a <= k < a + n)%nat -> coef new' k = coef new k).
Proof.
  induction n as [| n IH]; intros a new Hsh Lr Lo Ln Ha Han.
  - exists new. split; [done |]. split; [done |]. split; [intros k Hk; lia | done].
  - cbn [seq for_each].
    rewrite (calculate_payoff_spec s co bc a rhs old new) by (done || lia).
    cbn [rbind]. rewrite set_in_range by lia. cbn [rbind].
    set (v := Rmax _ _).
    destruct (IH (S a) (<[a:=v]> new)) as (new' & E & Ln' & Hin & Hout);
      try done; try lia.
    { by rewrite length_insert. }
    exists new'. split; [exact E |]. split; [done |]. split.
    + intros k Hk. destruct (decide (k = a)) as [-> | Hne].
      * rewrite !Hout by lia. rewrite !coef_insert.
        rewrite decide_True by lia. rewrite decide_False by lia. done.
      * apply Hin. lia.
    + intros k Hk. rewrite Hout by lia. rewrite coef_insert.
      rewrite decide_False by lia. done.
Qed.

Lemma start_boundary_spec s co bc rhs old :
  am_shaped s co bc ->
  length rhs = (M (FDCnAm.fd s) - 1)%nat ->
  length old = (M (FDCnAm.fd s) - 1)%nat ->
  FDCnAm.calculate_payoff_start_boundary s co bc rhs old
  = Ok (Rmax (coef (FDCnAm.payoffs bc) 0) (start_update s co rhs old)).
Proof.
  intros (HM & La & Lb & Lg & _ & Lp & _) Lr Lo.
  unfold FDCnAm.calculate_payoff_start_boundary. rewrite !get_coef by lia. done.
Qed.

Lemma end_boundary_spec s co bc rhs old new :
  am_shaped s co bc ->
  length rhs = (M (FDCnAm.fd s) - 1)%nat ->
  length old = (M (FDCnAm.fd s) - 1)%nat ->
  length new = (M (FDCnAm.fd s) - 1)%nat ->
  FDCnAm.calculate_payoff_end_boundary s co bc rhs old new
  = Ok (Rmax (coef (FDCnAm.payoffs bc) (M (FDCnAm.fd s) - 2))
             (end_update s co (M (FDCnAm.fd s) - 2) rhs old
                (coef new (M (FDCnAm.fd s) - 3)))).
Proof.
  intros (HM & La & Lb & Lg & _ & Lp & _) Lr Lo Ln.
  unfold FDCnAm.calculate_payoff_end_boundary, end_update.
  rewrite !get_back_coef by lia. cbn [rbind].
  rewrite La, Lb, Lr, Lo, Ln, Lp.
  replace (M (FDCnAm.fd s) - 1 - 1)%nat with (M (FDCnAm.fd s) - 2)%nat by lia.
  replace (M (FDCnAm.fd s) + 1 - 2)%nat with (M (FDCnAm.fd s) - 2 + 1)%nat by lia.
  replace (M (FDCnAm.fd s) - 1 - 2)%nat with (M (FDCnAm.fd s) - 3)%nat by lia.
  done.
Qed.

Lemma interior_indices m : (3 <= m)%nat -> drop 1 (seq 0 (m - 2)) = seq 1 (m - 3).
Proof.
  intros H. replace (m - 2)%nat with (S (m - 3)) by lia. done.
Qed.

Lemma sum_squares_nonneg (v : list R) : 0 <= Np.sum ((fun x => x * x) <$> v).
Proof.
  induction v as [| x v IH]; cbn; [lra |]. unfold Np.sum in IH. nra.
Qed.

Lemma norm_nonneg v : 0 <= Np.norm v.
Proof. unfold Np.norm. apply sqrt_pos. Qed.

Lemma sweep_spec s co bc st :
  am_shaped s co bc -> psor_shaped s st ->
  exists st',
    FDCnAm.sweep s co bc st = Ok st' /\
    psor_shaped s st' /\
    FDCnAm.rhs st' = FDCnAm.rhs st /\
    FDCnAm.past_values st' = FDCnAm.new_values st' /\
    FDCnAm.old_values st' = FDCnAm.new_values st' /\
    FDCnAm.error st'
      = Np.norm (zip_with Rminus (FDCnAm.new_values st') (FDCnAm.old_values st)) /\
    forall k, (k < M (FDCnAm.fd s) - 1)%nat ->
      coef (FDCnAm.new_values st') k
      = Rmax (coef (FDCnAm.payoffs bc) k)
             (relaxed s co k (FDCnAm.rhs st) (FDCnAm.old_values st)
                (FDCnAm.new_values st')).
Proof.
  intros Hsh (Lr & Lo & Ln). pose proof Hsh as (HM & _).
  unfold FDCnAm.sweep.
  rewrite start_boundary_spec by done. cbn [rbind].
  rewrite set_in_range by lia. cbn [rbind].
  set (v0 := Rmax _ _). rewrite interior_indices by done.
  destruct (psor_inner_loop s co bc (FDCnAm.rhs st) (FDCnAm.old_values st)
              (M (FDCnAm.fd s) - 3) 1 (<[O:=v0]> (FDCnAm.new_values st)))
    as (new1 & E1 & Ln1 & Hin & Hout); try done; try lia.
  { by rewrite length_insert. }
  rewrite E1. cbn [rbind].
  rewrite (end_boundary_spec s co bc _ _ new1) by done. cbn [rbind].
  set (vl := Rmax _ _).
  unfold Np.set_back. rewrite decide_True by lia.
  rewrite set_in_range by lia. cbn [rbind].
  rewrite vec_op_same by (rewrite length_insert; lia). cbn [rbind].
  eexists. split; [reflexivity |].
  cbn [FDCnAm.rhs FDCnAm.old_values FDCnAm.new_values FDCnAm.error FDCnAm.past_values].
  split.
  { unfold psor_shaped. cbn. rewrite length_insert. done. }
  do 4 (split; [done |]).
  intros k Hk. unfold relaxed. rewrite !coef_insert. rewrite Ln1.
  destruct (decide (k = O)) as [-> | Hk0].
  - rewrite decide_False by lia. rewrite Hout by lia. rewrite coef_insert.
    rewrite decide_True by lia. done.
  - destruct (decide (k = M (FDCnAm.fd s) - 2)%nat) as [-> | Hkl].
    + rewrite decide_True by lia. rewrite decide_False by lia.
      subst vl. do 3 f_equal. lia.
    + rewrite !decide_False by lia. apply Hin. lia.
Qed.

Lemma sweep_inv s co bc st :
  am_shaped s co bc -> psor_shaped s st ->
  exists st', FDCnAm.sweep s co bc st = Ok st' /\ psor_inv s bc st' /\
              0 <= FDCnAm.error st'.
Proof.
  intros Hsh Hst.
  destruct (sweep_spec s co bc st Hsh Hst) as (st' & E & Hst' & _ & Hp & _ & He & Hk).
  exists st'. split; [done |]. split.
  - split; [done |]. rewrite Hp. split; [apply Hst' |].
    intros k Hlt. destruct Hsh as (_ & _ & _ & _ & _ & Lp & _).
    rewrite Hk by lia. apply Rmax_l.
  - rewrite He. apply norm_nonneg.
Qed.

(** ** FDCnAm: the relaxation loop and the time loop *)

Lemma while_loop_inv s co bc fuel : forall st st',
  am_shaped s co bc -> psor_inv s bc st ->
  FDCnAm.while_loop s co bc fuel st = Some (Ok st') ->
  psor_inv s bc st' /\ FDCnAm.error st' <= FDCnAm.tol s.
Proof.
  induction fuel as [| fuel IH]; intros st st' Hsh Hinv H; cbn in H.
  - destruct (Rlt_dec _ _) as [Hlt | Hge]; [done |].
    injection H as <-. split; [done | lra].
  - destruct (Rlt_dec _ _) as [Hlt | Hge].
    + destruct (sweep_inv s co bc st Hsh (proj1 Hinv)) as (st1 & E & Hinv1 & _).
      rewrite E in H. by eapply IH.
    + injection H as <-. split; [done | lra].
Qed.

Lemma dot_Ok A v n :
  shape A n n -> length v = n -> n <> O ->
  exists p, Np.dot A v = Ok p /\ length p = n.
Proof.
  intros [Hl Hall] Hv Hn. unfold Np.dot. rewrite decide_True.
  - eexists. split; [reflexivity |]. by rewrite length_fmap.
  - split.
    + eapply Forall_impl; [exact Hall |]. intros row Hrow. cbn in *. lia.
    + intros ->. cbn in Hl. lia.
Qed.

Lemma enter_step_spec s co bc cr j :
  am_shaped s co bc -> carried_inv s bc cr -> (j < N (FDCnAm.fd s))%nat ->
  exists aux' st,
    FDCnAm.enter_step co bc cr j = Ok (aux', st) /\
    length aux' = (M (FDCnAm.fd s) - 1)%nat /\
    psor_inv s bc st /\
    FDCnAm.error st = FDCnAm.float_max /\
    FDCnAm.new_values st = FDCnAm.c_new_values cr /\
    FDCnAm.past_values st = FDCnAm.c_past_values cr.
Proof.
  intros (HM & La & Lb & Lg & HM2 & Lp & Lbv) (Laux & Lnew & Lpast & Hdom) Hj.
  unfold FDCnAm.enter_step. rewrite !get_coef by lia. cbn [rbind].
  rewrite set_in_range by lia. cbn [rbind].
  destruct (dot_Ok _ (FDCnAm.c_past_values cr) _ HM2 Lpast ltac:(lia)) as (p & -> & Lprod).
  cbn [rbind]. rewrite vec_op_same by (rewrite length_insert; lia). cbn [rbind].
  eexists. eexists. split; [reflexivity |]. cbn.
  split; [by rewrite length_insert |]. split; [| done].
  split; [| done]. unfold psor_shaped. cbn.
  rewrite length_zip_with, length_insert. repeat split; lia.
Qed.

Lemma time_step_inv s co bc fuel cr j cr' :
  am_shaped s co bc -> carried_inv s bc cr -> (j < N (FDCnAm.fd s))%nat ->
  FDCnAm.time_step s co bc fuel cr j = Some (Ok cr') -> carried_inv s bc cr'.
Proof.
  intros Hsh Hcr Hj H. unfold FDCnAm.time_step in H.
  destruct (enter_step_spec s co bc cr j Hsh Hcr Hj)
    as (aux' & st & E & Laux & Hinv & _).
  rewrite E in H.
  destruct (FDCnAm.while_loop s co bc fuel st) as [[st' | e] |] eqn:Ew; try done.
  injection H as <-.
  destruct (while_loop_inv s co bc fuel st st' Hsh Hinv Ew) as [(Hst' & Lp & Hd) _].
  split; [done |]. cbn. split; [apply Hst' |]. done.
Qed.

Lemma time_loop_inv s co bc fuel js : forall cr cr',
  am_shaped s co bc -> carried_inv s bc cr ->
  Forall (fun j => j < N (FDCnAm.fd s))%nat js ->
  FDCnAm.time_loop s co bc fuel js cr = Some (Ok cr') -> carried_inv s bc cr'.
Proof.
  induction js as [| j js IH]; intros cr cr' Hsh Hcr Hjs H; cbn in H.
  - by injection H as <-.
  - apply Forall_cons in Hjs as [Hj Hjs].
    destruct (FDCnAm.time_step s co bc fuel cr j) as [[cr1 | e] |] eqn:E; try done.
    eapply IH; [done | | done | exact H].
    by eapply time_step_inv.
Qed.

Lemma time_indices n j : j ∈ rev (seq 0 n) -> (j < n)%nat.
Proof.
  intros H. apply list_elem_of_In, in_rev, list_elem_of_In, elem_of_seq in H. lia.
Qed.

Lemma american_setup spot strike rate mat vol top m n w tau is_put :
  (3 <= m)%nat -> n <> O ->
  let s := FDCnAm.init spot strike rate mat vol top m n w tau is_put in
  exists bc co,
    FDCnAm.setup_boundary_conditions s = Ok bc /\
    FDCnEu.setup_coefficients (FDCnAm.fd s) = Ok co /\
    am_shaped s co bc /\ carried_inv s bc (am_start s bc).
Proof.
  intros Hm Hn s.
  destruct (cn_setup_coefficients_spec (FDCnAm.fd s)) as (co & Eco & La & Lb & Lg & _ & HM2 & _).
  { done. }
  { cbn. lia. }
  { cbn. rewrite length_arange. lia. }
  cbn [FDCnAm.fd s FDCnAm.init i_values M] in La, Lb, Lg, HM2.
  rewrite length_arange in La, Lb, Lg.
  unfold FDCnAm.setup_boundary_conditions. rewrite dt_Ok by done. cbn [rbind].
  eexists. exists co. split; [reflexivity |]. split; [exact Eco |].
  assert (Lp : length (Np.slice 1 m (Np.linspace 0 top (m + 1))) = (m - 1)%nat).
  { rewrite length_slice; [done |]. rewrite length_linspace. lia. }
  split.
  - split; [cbn; lia |]. do 4 (split; [done |]). cbn. split.
    + destruct is_put; cbn; unfold Np.maximum0; by rewrite !length_fmap.
    + unfold FDExplicitEu.discounted, Np.irange. cbn.
      by rewrite length_fmap, length_seq.
  - unfold carried_inv, am_start, Np.zeros. cbn.
    rewrite !length_replicate.
    split; [done |]. split; [done |]. split.
    + destruct is_put; cbn; unfold Np.maximum0; by rewrite !length_fmap.
    + intros k _. apply Rle_refl.
Qed.

(** C5: in the American solver every entry written by a pass of the
    relaxation loop -- first, interior and last -- is
    [max(payoffs[k], relaxed update)], the pass commits these entries as
    [past_values], and [past_values[k] >= payoffs[k]] holds for every
    interior [k] after every pass and after every time step. *)
Theorem american_values_dominate_payoffs
    (S0 K r T sigma Smax : R) (M N : nat) (omega tol : R) (is_put : bool) :
  (3 <= M)%nat -> N <> O ->
  let s := FDCnAm.init S0 K r T sigma Smax M N omega tol is_put in
  exists bc co,
    FDCnAm.setup_boundary_conditions s = Ok bc /\
    FDCnEu.setup_coefficients (FDCnAm.fd s) = Ok co /\
    (forall st, psor_shaped s st ->
       exists st',
         FDCnAm.sweep s co bc st = Ok st' /\
         FDCnAm.past_values st' = FDCnAm.new_values st' /\
         forall k, (k < M - 1)%nat ->
           Np.get (FDCnAm.new_values st') k
           = Ok (Rmax (coef (FDCnAm.payoffs bc) k)
                      (relaxed s co k (FDCnAm.rhs st) (FDCnAm.old_values st)
                         (FDCnAm.new_values st'))) /\
           coef (FDCnAm.payoffs bc) k <= coef (FDCnAm.past_values st') k) /\
    (forall fuel n cr',
       FDCnAm.time_loop s co bc fuel (take n (rev (seq 0 N))) (am_start s bc)
       = Some (Ok cr') ->
       forall k, (k < M - 1)%nat ->
         coef (FDCnAm.payoffs bc) k <= coef (FDCnAm.c_past_values cr') k).
Proof.
  intros HM HN s.
  destruct (american_setup S0 K r T sigma Smax M N omega tol is_put HM HN)
    as (bc & co & Ebc & Eco & Hsh & Hstart).
  fold s in Ebc, Eco, Hsh, Hstart.
  exists bc, co. split; [done |]. split; [done |]. split.
  - intros st Hst.
    destruct (sweep_spec s co bc st Hsh Hst) as (st' & E & Hst' & _ & Hp & _ & _ & Hk).
    exists st'. split; [done |]. split; [done |]. intros k Hlt.
    assert (length (FDCnAm.new_values st') = (M - 1)%nat) as Ln by apply Hst'.
    rewrite get_coef by lia. rewrite Hp. rewrite Hk by done.
    split; [done | apply Rmax_l].
  - intros fuel n cr' Hrun k Hk.
    assert (carried_inv s bc cr') as (_ & _ & _ & Hdom).
    { eapply (time_loop_inv s co bc fuel); [done | exact Hstart | | exact Hrun].
      apply Forall_forall. intros j Hin. apply elem_of_take in Hin as (i & Hin & _).
      apply list_elem_of_lookup_2 in Hin. by apply time_indices in Hin. }
    apply Hdom. destruct Hsh as (_ & _ & _ & _ & _ & -> & _). done.
Qed.

Lemma american_values_dominate_payoffs_witness :
  let s := sample_american in
  exists bc co,
    FDCnAm.setup_boundary_conditions s = Ok bc /\
    FDCnEu.setup_coefficients (FDCnAm.fd s) = Ok co /\
    (forall st, psor_shaped s st ->
       exists st',
         FDCnAm.sweep s co bc st = Ok st' /\
         FDCnAm.past_values st' = FDCnAm.new_values st' /\
         forall k, (k < 4 - 1)%nat ->
           Np.get (FDCnAm.new_values st') k
           = Ok (Rmax (coef (FDCnAm.payoffs bc) k)
                      (relaxed s co k (FDCnAm.rhs st) (FDCnAm.old_values st)
                         (FDCnAm.new_values st'))) /\
           coef (FDCnAm.payoffs bc) k <= coef (FDCnAm.past_values st') k) /\
    (forall fuel n cr',
       FDCnAm.time_loop s co bc fuel (take n (rev (seq 0 2))) (am_start s bc)
       = Some (Ok cr') ->
       forall k, (k < 4 - 1)%nat ->
         coef (FDCnAm.payoffs bc) k <= coef (FDCnAm.c_past_values cr') k).
Proof.
  apply (american_values_dominate_payoffs 50 50 0.1 (5 / 12) 0.4 100 4 2 1.2 0.001 true).
  - lia.
  - lia.
Defined.

(** ** FDCnAm: when the relaxation loop stops *)

Lemma while_loop_exit s co bc st fuel :
  FDCnAm.error st <= FDCnAm.tol s ->
  FDCnAm.while_loop s co bc fuel st = Some (Ok st).
Proof.
  intros H. destruct fuel; cbn; destruct (Rlt_dec _ _); (done || lra).
Qed.

Lemma while_loop_step s co bc st fuel :
  FDCnAm.tol s < FDCnAm.error st ->
  FDCnAm.while_loop s co bc (S fuel) st
  = match FDCnAm.sweep s co bc st with
    | Ok st' => FDCnAm.while_loop s co bc fuel st'
    | Raise e => Some (Raise e)
    end.
Proof. intros H. cbn. destruct (Rlt_dec _ _); (done || lra). Qed.

Lemma while_loop_returns s co bc fuel : forall st st',
  FDCnAm.while_loop s co bc fuel st = Some (Ok st') <->
  exists n, (n <= fuel)%nat /\ sweeps s co bc n st = Ok st' /\
    ~ FDCnAm.tol s < FDCnAm.error st' /\
    forall m stm, (m < n)%nat -> sweeps s co bc m st = Ok stm ->
      FDCnAm.tol s < FDCnAm.error stm.
Proof.
  induction fuel as [| fuel IH]; intros st st'.
  - split.
    + intros H. cbn in H. destruct (Rlt_dec _ _) as [Hlt | Hge]; [done |].
      injection H as <-. exists O. split; [lia |]. split; [done |].
      split; [done |]. intros m stm Hm. lia.
    + intros (n & Hn & Hs & He & _). assert (n = O) as -> by lia.
      cbn in Hs. injection Hs as <-. by apply while_loop_exit, Rnot_lt_le.
  - destruct (Rlt_dec (FDCnAm.tol s) (FDCnAm.error st)) as [Hlt | Hge].
    + rewrite while_loop_step by done. split.
      * intros H. destruct (FDCnAm.sweep s co bc st) as [st1 | e] eqn:E; [| done].
        apply IH in H as (n & Hn & Hs & He & Hbefore).
        exists (S n). split; [lia |]. split; [cbn; by rewrite E |].
        split; [done |]. intros [| m] stm Hm Hsm.
        -- cbn in Hsm. by injection Hsm as <-.
        -- cbn in Hsm. rewrite E in Hsm. apply (Hbefore m); [lia | done].
      * intros (n & Hn & Hs & He & Hbefore). destruct n as [| n].
        -- cbn in Hs. injection Hs as <-. done.
        -- cbn in Hs. destruct (FDCnAm.sweep s co bc st) as [st1 | e] eqn:E; [| done].
           cbn in Hs. apply IH. exists n. split; [lia |]. split; [done |].
           split; [done |]. intros m stm Hm Hsm.
           apply (Hbefore (S m)); [lia |]. cbn. by rewrite E.
    + rewrite while_loop_exit by (by apply Rnot_lt_le). split.
      * intros [= <-]. exists O. split; [lia |]. split; [done |].
        split; [done |]. intros m stm Hm. lia.
      * intros (n & Hn & Hs & He & Hbefore). destruct n as [| n].
        -- cbn in Hs. by injection Hs as <-.
        -- exfalso. by specialize (Hbefore O st ltac:(lia) eq_refl).
Qed.

Lemma while_loop_running s co bc fuel : forall st,
  FDCnAm.while_loop s co bc fuel st = None <->
  forall n, (n <= fuel)%nat ->
    exists stn, sweeps s co bc n st = Ok stn /\ FDCnAm.tol s < FDCnAm.error stn.
Proof.
  induction fuel as [| fuel IH]; intros st.
  - cbn. destruct (Rlt_dec _ _) as [Hlt | Hge]; split; try done.
    + intros _ n Hn. assert (n = O) as -> by lia. by exists st.
    + intros H. destruct (H O (le_n _)) as (stn & [= <-] & Hlt). lra.
  - destruct (Rlt_dec (FDCnAm.tol s) (FDCnAm.error st)) as [Hlt | Hge].
    + rewrite while_loop_step by done. split.
      * intros H [| n] Hn; [by exists st |].
        destruct (FDCnAm.sweep s co bc st) as [st1 | e] eqn:E; [| done].
        cbn. rewrite E. cbn. apply IH; [done | lia].
      * intros H. destruct (H 1%nat ltac:(lia)) as (st1 & Hs & _). cbn in Hs.
        destruct (FDCnAm.sweep s co bc st) as [st1' | e] eqn:E; [| done].
        apply IH. intros n Hn. destruct (H (S n) ltac:(lia)) as (stn & Hsn & Hlt').
        cbn in Hsn. rewrite E in Hsn. by exists stn.
    + rewrite while_loop_exit by lra. split; [done |].
      intros H. destruct (H O ltac:(lia)) as (stn & [= <-] & Hlt). lra.
Qed.

(** An exception leaves the loop only out of a pass. *)
Lemma while_loop_raises s co bc fuel : forall st e,
  FDCnAm.while_loop s co bc fuel st = Some (Raise e) <->
  exists n stn, (n < fuel)%nat /\ sweeps s co bc n st = Ok stn /\
    FDCnAm.sweep s co bc stn = Raise e /\
    forall m stm, (m <= n)%nat -> sweeps s co bc m st = Ok stm ->
      FDCnAm.tol s < FDCnAm.error stm.
Proof.
  induction fuel as [| fuel IH]; intros st e.
  - split.
    + intros H. cbn in H. destruct (Rlt_dec _ _); done.
    + intros (n & stn & Hn & _). lia.
  - destruct (Rlt_dec (FDCnAm.tol s) (FDCnAm.error st)) as [Hlt | Hge].
    + rewrite while_loop_step by done. split.
      * intros H. destruct (FDCnAm.sweep s co bc st) as [st1 | e1] eqn:E.
        -- apply IH in H as (n & stn & Hn & Hs & He & Hbefore).
           exists (S n), stn. split; [lia |]. split; [cbn; by rewrite E |].
           split; [done |]. intros [| m] stm Hm Hsm.
           ++ cbn in Hsm. by injection Hsm as <-.
           ++ cbn in Hsm. rewrite E in Hsm. apply (Hbefore m); [lia | done].
        -- injection H as ->. exists O, st. split; [lia |]. split; [done |].
           split; [done |]. intros m stm Hm Hsm. assert (m = O) as -> by lia.
           cbn in Hsm. by injection Hsm as <-.
      * intros (n & stn & Hn & Hs & He & Hbefore). destruct n as [| n].
        -- cbn in Hs. injection Hs as <-. by rewrite He.
        -- cbn in Hs. destruct (FDCnAm.sweep s co bc st) as [st1 | e1] eqn:E; [| done].
           cbn in Hs. apply IH. exists n, stn. split; [lia |]. split; [done |].
           split; [done |]. intros m stm Hm Hsm.
           apply (Hbefore (S m)); [lia |]. cbn. by rewrite E.
    + rewrite while_loop_exit by (by apply Rnot_lt_le). split; [done |].
      intros (n & stn & _ & _ & _ & Hbefore). exfalso.
      by specialize (Hbefore O st ltac:(lia) eq_refl).
Qed.

(** The loop variables at the first test of a time step. *)
Lemma enter_step_error co bc cr j aux' st :
  FDCnAm.enter_step co bc cr j = Ok (aux', st) ->
  FDCnAm.error st = FDCnAm.float_max /\
  FDCnAm.old_values st = FDCnAm.c_past_values cr /\
  FDCnAm.new_values st = FDCnAm.c_new_values cr.
Proof.
  intros H. unfold FDCnAm.enter_step in H.
  destruct (Np.get (FDCnEu.alpha co) 1) as [a1 | e]; [| done]. cbn [rbind] in H.
  destruct (Np.get (FDCnAm.boundary_values bc) j) as [bj | e]; [| done].
  cbn [rbind] in H.
  destruct (Np.get (FDCnAm.boundary_values bc) (j + 1)) as [bj1 | e]; [| done].
  cbn [rbind] in H.
  destruct (Np.set (FDCnAm.aux cr) 0 _) as [aux1 | e]; [| done]. cbn [rbind] in H.
  destruct (Np.dot _ _) as [prod | e]; [| done]. cbn [rbind] in H.
  destruct (Np.vec_op Rplus prod aux1) as [rhs | e]; [| done]. cbn [rbind] in H.
  apply Ok_inj in H. injection H as _ <-. done.
Qed.

(** C6, as the code has it: the relaxation loop is [while tol < error].
    The error is [sys.float_info.max] at the first test of a time step and
    the Euclidean norm of [new - old] after a pass.  The loop returns
    exactly at the first test that fails, and an exception leaves it only
    out of a pass; there is no bound on the number of passes and no failure
    for missing the tolerance: as long as every test holds the loop is
    still running, whatever the number of passes. *)
Theorem psor_loop_stops_only_at_tolerance
    (s : FDCnAm.t) (co : FDCnEu.coefficients) (bc : FDCnAm.boundary)
    (fuel : nat) (st : FDCnAm.psor) :
  (forall cr j aux' st0,
     FDCnAm.enter_step co bc cr j = Ok (aux', st0) ->
     FDCnAm.error st0 = FDCnAm.float_max) /\
  (forall st',
     FDCnAm.while_loop s co bc fuel st = Some (Ok st') <->
     exists n, (n <= fuel)%nat /\ sweeps s co bc n st = Ok st' /\
       ~ FDCnAm.tol s < FDCnAm.error st' /\
       forall m stm, (m < n)%nat -> sweeps s co bc m st = Ok stm ->
         FDCnAm.tol s < FDCnAm.error stm) /\
  (forall e,
     FDCnAm.while_loop s co bc fuel st = Some (Raise e) <->
     exists n stn, (n < fuel)%nat /\ sweeps s co bc n st = Ok stn /\
       FDCnAm.sweep s co bc stn = Raise e /\
       forall m stm, (m <= n)%nat -> sweeps s co bc m st = Ok stm ->
         FDCnAm.tol s < FDCnAm.error stm) /\
  (FDCnAm.while_loop s co bc fuel st = None <->
   forall n, (n <= fuel)%nat ->
     exists stn, sweeps s co bc n st = Ok stn /\ FDCnAm.tol s < FDCnAm.error stn) /\
  (forall st',
     FDCnAm.sweep s co bc st = Ok st' ->
     exists diff,
       Np.vec_op Rminus (FDCnAm.new_values st') (FDCnAm.old_values st) = Ok diff /\
       FDCnAm.error st' = Np.norm diff).
Proof.
  split; [intros cr j aux' st0 H; apply (enter_step_error co bc cr j aux' st0 H) |].
  split; [apply while_loop_returns |]. split; [apply while_loop_raises |].
  split; [apply while_loop_running |].
  intros st' H. unfold FDCnAm.sweep in H.
  destruct (FDCnAm.calculate_payoff_start_boundary _ _ _ _ _) as [v0 | e]; [| done].
  cbn [rbind] in H. destruct (Np.set _ O v0) as [new0 | e]; [| done].
  cbn [rbind] in H. destruct (for_each _ _ new0) as [new1 | e]; [| done].
  cbn [rbind] in H.
  destruct (FDCnAm.calculate_payoff_end_boundary _ _ _ _ _ _) as [vl | e]; [| done].
  cbn [rbind] in H. destruct (Np.set_back new1 1 vl) as [new2 | e]; [| done].
  cbn [rbind] in H. destruct (Np.vec_op Rminus new2 _) as [diff | e] eqn:E; [| done].
  cbn [rbind] in H. apply Ok_inj in H. subst st'. cbn. by exists diff.
Qed.

(** On a solver with [M >= 3] every pass returns, with an error that is a
    norm. *)
Lemma sweeps_total s co bc n : forall st,
  am_shaped s co bc -> psor_shaped s st ->
  exists stn,
    sweeps s co bc n st = Ok stn /\ psor_shaped s stn /\
    (n <> O -> 0 <= FDCnAm.error stn).
Proof.
  induction n as [| n IH]; intros st Hsh Hst.
  - exists st. cbn. done.
  - destruct (sweep_inv s co bc st Hsh Hst) as (st1 & E & Hinv & Herr).
    destruct n as [| n'].
    + exists st1. cbn. rewrite E. cbn. split; [done |]. split; [apply Hinv | done].
    + destruct (IH st1 Hsh (proj1 Hinv)) as (stn & Es & Hshn & Hn).
      exists stn. split; [| split; [done | intros _; by apply Hn]].
      change (sweeps s co bc (S (S n')) st)
        with (do st' <- FDCnAm.sweep s co bc st; sweeps s co bc (S n') st').
      rewrite E. exact Es.
Qed.

(** C6, as the specification states it, fails: on the American put
    [FDCnAm(50, 50, 0.1, 5/12, 0.4, 100, 4, 2, omega=1.2, tol=-1, True)]
    the test [tol < error] holds after every pass, the error being
    [sys.float_info.max] or a norm, so that the relaxation loop is still
    running after any number of passes, and [price] returns neither a
    value nor a failure. *)
Lemma psor_loop_without_cap :
  ~ exists fuel outcome,
      FDCnAm.price fuel (FDCnAm.init 50 50 0.1 (5 / 12) 0.4 100 4 2 1.2 (-1) true)
      = Some outcome.
Proof.
  intros (fuel & outcome & H).
  destruct (american_setup 50 50 0.1 (5 / 12) 0.4 100 4 2 1.2 (-1) true
              ltac:(lia) ltac:(lia)) as (bc & co & Ebc & Eco & Hsh & Hstart).
  set (s := FDCnAm.init _ _ _ _ _ _ _ _ _ _ _) in *.
  unfold FDCnAm.price in H. rewrite Ebc, Eco in H.
  unfold FDCnAm.traverse_grid in H. rewrite decide_False in H by (cbn; lia).
  fold (am_start s bc) in H.
  change (rev (seq 0 (N (FDCnAm.fd s)))) with [1%nat; O] in H.
  cbn [FDCnAm.time_loop] in H. unfold FDCnAm.time_step at 1 in H.
  destruct (enter_step_spec s co bc (am_start s bc) 1 Hsh Hstart)
    as (aux' & st & E & _ & Hinv & Herr & _).
  { cbn. lia. }
  rewrite E in H.
  assert (Hrun : FDCnAm.while_loop s co bc fuel st = None).
  { apply while_loop_running. intros n Hn.
    destruct (sweeps_total s co bc n st Hsh (proj1 Hinv)) as (stn & Es & _ & Hpos).
    exists stn. split; [done |]. change (FDCnAm.tol s) with (-1).
    destruct n as [| n'].
    - cbn in Es. apply Ok_inj in Es. subst stn. rewrite Herr.
      pose proof float_max_pos. lra.
    - specialize (Hpos ltac:(lia)). lra. }
  rewrite Hrun in H. done.
Qed.

(** * Further properties of the solvers *)

(** ** The stencil weights of the three schemes *)

(** X1: the weights of the explicit stencil add up to [1 - r*dt] at every
    index, and the upper weight exceeds the lower one by [r*dt*i]. *)
Theorem explicit_weights_sum (s : FiniteDifferences) co i x ai bi ci :
  FDExplicitEu.setup_coefficients s = Ok co ->
  i_values s !! i = Some x ->
  Np.get (FDExplicitEu.a co) i = Ok ai ->
  Np.get (FDExplicitEu.b co) i = Ok bi ->
  Np.get (FDExplicitEu.c co) i = Ok ci ->
  N s <> O /\
  ai + bi + ci = 1 - r s * (T s / INR (N s)) /\
  ci - ai = r s * (T s / INR (N s)) * x.
Proof.
  intros Hco Hx Ha Hb Hc. unfold FDExplicitEu.setup_coefficients, dt, pydiv in Hco.
  destruct (N s) as [| n] eqn:EN; [done |]. cbn [rbind] in Hco.
  set (d := T s / INR (S n)) in *.
  apply Ok_inj in Hco. subst co. cbn [FDExplicitEu.a FDExplicitEu.b FDExplicitEu.c] in *.
  apply get_Ok in Ha, Hb, Hc. rewrite list_lookup_fmap, Hx in Ha, Hb, Hc.
  apply fmap_Some in Ha as (? & [= <-] & ->).
  apply fmap_Some in Hb as (? & [= <-] & ->).
  apply fmap_Some in Hc as (? & [= <-] & ->).
  split; [done |]. cbv beta. split; lra.
Qed.

Lemma explicit_weights_sum_witness :
  N sample_explicit <> O /\
  coef (FDExplicitEu.a sample_coefficients) 3
  + coef (FDExplicitEu.b sample_coefficients) 3
  + coef (FDExplicitEu.c sample_coefficients) 3
  = 1 - r sample_explicit * (T sample_explicit / INR (N sample_explicit)) /\
  coef (FDExplicitEu.c sample_coefficients) 3
  - coef (FDExplicitEu.a sample_coefficients) 3
  = r sample_explicit * (T sample_explicit / INR (N sample_explicit)) * INR 3.
Proof.
  apply (explicit_weights_sum sample_explicit sample_coefficients 3 (INR 3)).
  - reflexivity.
  - reflexivity.
  - reflexivity.
  - reflexivity.
  - reflexivity.
Defined.

Lemma implicit_setup_spec (s : FiniteDifferences) :
  N s <> O -> (2 <= M s)%nat -> (M s <= length (i_values s))%nat ->
  exists co,
    FDImplicitEu.setup_coefficients s = Ok co /\
    length (FDImplicitEu.a co) = length (i_values s) /\
    FDImplicitEu.b co
    = (fun i => 1 + sigma s ^ 2 * (T s / INR (N s)) * i ^ 2 + r s * (T s / INR (N s)))
        <$> i_values s /\
    shape (FDImplicitEu.coeffs co) (M s - 1) (M s - 1) /\
    forall k l, (k < M s - 1)%nat -> (l < M s - 1)%nat ->
      exists a_i b_i c_i,
        Np.get (FDImplicitEu.a co) (k + 1) = Ok a_i /\
        Np.get (FDImplicitEu.b co) (k + 1) = Ok b_i /\
        Np.get (FDImplicitEu.c co) (k + 1) = Ok c_i /\
        cell (FDImplicitEu.coeffs co) k l = tridiagonal a_i b_i c_i k l /\
        a_i + b_i + c_i = 1 + r s * (T s / INR (N s)).
Proof.
  intros HN HM Hiv. unfold FDImplicitEu.setup_coefficients. rewrite dt_Ok by done.
  cbn [rbind]. set (d := T s / INR (N s)).
  set (fa := fun i : R => 0.5 * (r s * d * i - sigma s ^ 2 * d * i ^ 2)).
  set (fb := fun i : R => 1 + sigma s ^ 2 * d * i ^ 2 + r s * d).
  set (fc := fun i : R => - 0.5 * (r s * d * i + sigma s ^ 2 * d * i ^ 2)).
  set (a := fa <$> i_values s). set (b := fb <$> i_values s).
  set (c := fc <$> i_values s).
  assert (La : length a = length (i_values s)) by apply length_fmap.
  assert (Lb : length b = length (i_values s)) by apply length_fmap.
  assert (Lc : length c = length (i_values s)) by apply length_fmap.
  set (sub := Np.diag (Np.slice 2 (M s) a) (-1)).
  set (sup := Np.diag (Np.slice 1 (M s - 1) c) 1).
  set (dg := Np.diag (Np.slice 1 (M s) b) 0).
  set (n := (M s - 1)%nat).
  assert (Hsub : shape sub n n).
  { pose proof (shape_diag (Np.slice 2 (M s) a) (-1)) as H.
    rewrite length_slice in H by lia.
    replace (M s - 2 + Z.abs_nat (-1))%nat with n in H by (subst n; cbn; lia). done. }
  assert (Hsup : shape sup n n).
  { pose proof (shape_diag (Np.slice 1 (M s - 1) c) 1) as H.
    rewrite length_slice in H by lia.
    replace (M s - 1 - 1 + Z.abs_nat 1)%nat with n in H by (subst n; cbn; lia). done. }
  assert (Hdg : shape dg n n).
  { pose proof (shape_diag (Np.slice 1 (M s) b) 0) as H.
    rewrite length_slice in H by lia.
    replace (M s - 1 + Z.abs_nat 0)%nat with n in H by (subst n; cbn; lia). done. }
  destruct (mat_op_spec Rplus _ _ n Hsub Hdg) as (m1 & E1 & Hm1 & C1).
  destruct (mat_op_spec Rplus _ _ n Hm1 Hsup) as (m2 & E2 & Hm2 & C2).
  rewrite E1. cbn [rbind]. rewrite E2. cbn [rbind]. eexists. split; [reflexivity |].
  cbn [FDImplicitEu.a FDImplicitEu.b FDImplicitEu.c FDImplicitEu.coeffs].
  split; [done |]. split; [done |]. split; [done |]. intros k l Hk Hl.
  exists (coef a (k + 1)), (coef b (k + 1)), (coef c (k + 1)).
  rewrite !get_coef by lia. do 3 (split; [done |]).
  assert (Csub : cell sub k l = if decide (S l = k) then coef a (k + 1) else 0).
  { subst sub. rewrite cell_diag by (rewrite length_slice by lia; cbn; lia).
    destruct (decide (S l = k)) as [<- | Hne].
    - rewrite decide_True by lia. rewrite Nat.min_r by lia.
      rewrite coef_slice by lia. f_equal. lia.
    - by rewrite decide_False by lia. }
  assert (Csup : cell sup k l = if decide (l = S k) then coef c (k + 1) else 0).
  { subst sup. rewrite cell_diag by (rewrite length_slice by lia; cbn; lia).
    destruct (decide (l = S k)) as [-> | Hne].
    - rewrite decide_True by lia. rewrite Nat.min_l by lia.
      rewrite coef_slice by lia. f_equal. lia.
    - by rewrite decide_False by lia. }
  assert (Cdg : cell dg k l = if decide (l = k) then coef b (k + 1) else 0).
  { subst dg. rewrite cell_diag by (rewrite length_slice by lia; cbn; lia).
    destruct (decide (l = k)) as [-> | Hne].
    - rewrite decide_True by lia. rewrite Nat.min_id.
      rewrite coef_slice by lia. f_equal. lia.
    - by rewrite decide_False by lia. }
  split.
  - rewrite C2, C1, Csub, Csup, Cdg by done. unfold tridiagonal.
    repeat case_decide; try lia; lra.
  - subst a b c. rewrite !coef_fmap by lia. subst fa fb fc. cbv beta. lra.
Qed.

(** X2: the operator of the implicit scheme is the [M-1] by [M-1]
    tridiagonal matrix whose row for the interior index [i = k+1] holds
    [(a[i], b[i], c[i])] below, on and above the diagonal, and these three
    weights add up to [1 + r*dt]. *)
Theorem implicit_operator (s : FiniteDifferences) :
  N s <> O -> (2 <= M s)%nat -> (M s <= length (i_values s))%nat ->
  exists co,
    FDImplicitEu.setup_coefficients s = Ok co /\
    shape (FDImplicitEu.coeffs co) (M s - 1) (M s - 1) /\
    forall k l, (k < M s - 1)%nat -> (l < M s - 1)%nat ->
      exists a_i b_i c_i,
        Np.get (FDImplicitEu.a co) (k + 1) = Ok a_i /\
        Np.get (FDImplicitEu.b co) (k + 1) = Ok b_i /\
        Np.get (FDImplicitEu.c co) (k + 1) = Ok c_i /\
        cell (FDImplicitEu.coeffs co) k l = tridiagonal a_i b_i c_i k l /\
        a_i + b_i + c_i = 1 + r s * (T s / INR (N s)).
Proof.
  intros HN HM Hiv.
  destruct (implicit_setup_spec s HN HM Hiv) as (co & E & _ & _ & Hsh & C).
  exists co. split; [done |]. split; done.
Qed.

Lemma implicit_operator_witness :
  exists co,
    FDImplicitEu.setup_coefficients sample_cn = Ok co /\
    shape (FDImplicitEu.coeffs co) 3 3 /\
    forall k l, (k < 3)%nat -> (l < 3)%nat ->
      exists a_i b_i c_i,
        Np.get (FDImplicitEu.a co) (k + 1) = Ok a_i /\
        Np.get (FDImplicitEu.b co) (k + 1) = Ok b_i /\
        Np.get (FDImplicitEu.c co) (k + 1) = Ok c_i /\
        cell (FDImplicitEu.coeffs co) k l = tridiagonal a_i b_i c_i k l /\
        a_i + b_i + c_i = 1 + 0.1 * (5 / 12 / INR 2).
Proof.
  apply (implicit_operator sample_cn).
  - simpl. lia.
  - simpl. lia.
  - simpl. lia.
Defined.

Lemma cn_coefficient_arrays (s : FiniteDifferences) co :
  FDCnEu.setup_coefficients s = Ok co ->
  N s <> O /\
  FDCnEu.alpha co
  = (fun i => 0.25 * (T s / INR (N s)) * (sigma s ^ 2 * i ^ 2 - r s * i)) <$> i_values s /\
  FDCnEu.beta co
  = (fun i => - (T s / INR (N s)) * 0.5 * (sigma s ^ 2 * i ^ 2 + r s)) <$> i_values s /\
  FDCnEu.gamma co
  = (fun i => 0.25 * (T s / INR (N s)) * (sigma s ^ 2 * i ^ 2 + r s * i)) <$> i_values s.
Proof.
  intros H. unfold FDCnEu.setup_coefficients in H.
  destruct (decide (N s = O)) as [HN | HN].
  { unfold dt in H. rewrite HN in H. done. }
  rewrite dt_Ok in H by done. cbn [rbind] in H.
  destruct (Np.mat_op Rplus _ _) as [m1 | e]; [| done]. cbn [rbind] in H.
  destruct (Np.mat_op Rminus _ _) as [M1 | e]; [| done]. cbn [rbind] in H.
  destruct (Np.mat_op Rplus _ _) as [m2 | e]; [| done]. cbn [rbind] in H.
  destruct (Np.mat_op Rplus _ _) as [M2 | e]; [| done]. cbn [rbind] in H.
  apply Ok_inj in H. subst co. done.
Qed.

(** X3: the Crank-Nicolson weights add up to [-r*dt/2] at every index, so
    a full row of [M1] (interior index [i = k+1], [1 <= k <= M-3]) adds up
    to [1 + r*dt/2] and the same row of [M2] to [1 - r*dt/2]. *)
Theorem crank_nicolson_row_sums (s : FiniteDifferences) co k :
  FDCnEu.setup_coefficients s = Ok co ->
  (M s <= length (i_values s))%nat ->
  (1 <= k)%nat -> (k + 1 < M s - 1)%nat ->
  coef (FDCnEu.alpha co) (k + 1) + coef (FDCnEu.beta co) (k + 1)
  + coef (FDCnEu.gamma co) (k + 1) = - (r s * (T s / INR (N s)) / 2) /\
  cell (FDCnEu.M1 co) k (k - 1) + cell (FDCnEu.M1 co) k k
  + cell (FDCnEu.M1 co) k (k + 1) = 1 + r s * (T s / INR (N s)) / 2 /\
  cell (FDCnEu.M2 co) k (k - 1) + cell (FDCnEu.M2 co) k k
  + cell (FDCnEu.M2 co) k (k + 1) = 1 - r s * (T s / INR (N s)) / 2.
Proof.
  intros Hco Hiv Hk1 Hk2.
  destruct (cn_coefficient_arrays s co Hco) as (HN & Ea & Eb & Eg).
  destruct (cn_setup_coefficients_spec s HN ltac:(lia) Hiv)
    as (co' & Hco' & _ & _ & _ & _ & _ & C).
  rewrite Hco in Hco'. apply Ok_inj in Hco'. subst co'.
  assert (Hsum : coef (FDCnEu.alpha co) (k + 1) + coef (FDCnEu.beta co) (k + 1)
                 + coef (FDCnEu.gamma co) (k + 1) = - (r s * (T s / INR (N s)) / 2)).
  { rewrite Ea, Eb, Eg. rewrite !coef_fmap by lia. cbv beta. lra. }
  split; [exact Hsum |].
  destruct (C k (k - 1)%nat ltac:(lia) ltac:(lia)) as [-> ->].
  destruct (C k k ltac:(lia) ltac:(lia)) as [-> ->].
  destruct (C k (k + 1)%nat ltac:(lia) ltac:(lia)) as [-> ->].
  unfold tridiagonal.
  rewrite !(decide_False (P := (k - 1)%nat = k)) by lia.
  rewrite !(decide_True (P := S (k - 1) = k)) by lia.
  rewrite !(decide_True (P := k = k)) by done.
  rewrite !(decide_False (P := (k + 1)%nat = k)) by lia.
  rewrite !(decide_False (P := S (k + 1) = k)) by lia.
  rewrite !(decide_True (P := (k + 1)%nat = S k)) by lia.
  split; lra.
Qed.

Lemma crank_nicolson_row_sums_witness :
  coef (FDCnEu.alpha sample_cn_coefficients) 2
  + coef (FDCnEu.beta sample_cn_coefficients) 2
  + coef (FDCnEu.gamma sample_cn_coefficients) 2
  = - (r sample_cn * (T sample_cn / INR (N sample_cn)) / 2) /\
  cell (FDCnEu.M1 sample_cn_coefficients) 1 (1 - 1)
  + cell (FDCnEu.M1 sample_cn_coefficients) 1 1
  + cell (FDCnEu.M1 sample_cn_coefficients) 1 (1 + 1)
  = 1 + r sample_cn * (T sample_cn / INR (N sample_cn)) / 2 /\
  cell (FDCnEu.M2 sample_cn_coefficients) 1 (1 - 1)
  + cell (FDCnEu.M2 sample_cn_coefficients) 1 1
  + cell (FDCnEu.M2 sample_cn_coefficients) 1 (1 + 1)
  = 1 - r sample_cn * (T sample_cn / INR (N sample_cn)) / 2.
Proof.
  apply (crank_nicolson_row_sums sample_cn sample_cn_coefficients 1).
  - reflexivity.
  - simpl. lia.
  - lia.
  - simpl. lia.
Defined.

(** ** Terminal and boundary values of the European solvers *)

Lemma first_node lo hi m : coef (Np.linspace lo hi (m + 1)) O = lo.
Proof. rewrite coef_linspace by lia. cbn [INR]. lra. Qed.

Lemma vanilla_node hi m i :
  (i <= m)%nat -> coef (Np.linspace 0 hi (m + 1)) i = INR i * (hi / INR m).
Proof.
  intros Hi. rewrite coef_linspace by lia.
  replace (m + 1 - 1)%nat with m by lia. lra.
Qed.

(** X4: on a fresh solver with [N >= 1], [setup_boundary_conditions] fills
    the terminal column with the payoff at every price node
    [i*(Smax/M)] -- [max(0, S-K)] for a call, [max(0, K-S)] for a put, never
    negative --, for a call fills the upper row with
    [(Smax-K)*exp(-r*dt*(N-j))], and leaves every cell off the terminal
    column and off the boundary row at [0]. *)
Theorem terminal_payoff_and_call_boundary
    (S0 K r T sigma Smax : R) (M N : nat) (is_put : bool) :
  N <> O ->
  let s := init S0 K r T sigma Smax M N is_put in
  exists g',
    FDExplicitEu.setup_boundary_conditions s = Ok (with_grid s g') /\
    shape g' (M + 1) (N + 1) /\
    (forall i, (i <= M)%nat ->
       cell g' i N
       = Rmax 0 (if is_put then K - INR i * (Smax / INR M)
                 else INR i * (Smax / INR M) - K) /\
       0 <= cell g' i N) /\
    (is_put = false -> forall j, (j < N)%nat ->
       cell g' M j = (Smax - K) * discount s j) /\
    (forall i j, (j < N)%nat -> i <> (if is_put then O else M) -> cell g' i j = 0).
Proof.
  intros HN s.
  destruct (setup_boundary_conditions_spec s (well_formed_init _ _ _ _ _ _ _ _ _) HN)
    as (g' & E & Hs & C).
  exists g'. split; [done |]. split; [exact Hs |].
  unfold boundary_cell in C. cbn in C.
  split; [| split].
  - intros i Hi.
    assert (cell g' i N
            = Rmax 0 (if is_put then K - INR i * (Smax / INR M)
                      else INR i * (Smax / INR M) - K)) as ->.
    { rewrite C. destruct is_put; cbn.
      - rewrite decide_False by lia. rewrite decide_True by lia.
        by rewrite vanilla_node.
      - rewrite decide_False by lia. rewrite decide_True by lia.
        by rewrite vanilla_node. }
    split; [done | apply Rmax_l].
  - intros -> j Hj. rewrite C. cbn. by rewrite decide_True.
  - intros i j Hj Hi. rewrite C. destruct is_put; cbn.
    + rewrite !decide_False by lia. apply cell_zeros2.
    + rewrite !decide_False by lia. apply cell_zeros2.
Qed.

Lemma terminal_payoff_and_call_boundary_witness :
  let s := init 50 50 0.1 (5 / 12) 0.4 100 4 2 false in
  exists g',
    FDExplicitEu.setup_boundary_conditions s = Ok (with_grid s g') /\
    shape g' (4 + 1) (2 + 1) /\
    (forall i, (i <= 4)%nat ->
       cell g' i 2 = Rmax 0 (INR i * (100 / INR 4) - 50) /\ 0 <= cell g' i 2) /\
    (false = false -> forall j, (j < 2)%nat ->
       cell g' 4 j = (100 - 50) * discount s j) /\
    (forall i j, (j < 2)%nat -> i <> 4%nat -> cell g' i j = 0).
Proof.
  apply (terminal_payoff_and_call_boundary 50 50 0.1 (5 / 12) 0.4 100 4 2 false). lia.
Defined.

(** ** Interpolation away from the nodes *)

Lemma interp_outside xp fp x n :
  length xp = S n -> length fp = S n -> increasing xp ->
  (coef xp n < x -> Np.interp x xp fp = Ok (coef fp n)) /\
  (x < coef xp O -> Np.interp x xp fp = Ok (coef fp O)).
Proof.
  intros Lx Lf Hinc. destruct xp as [| x0 xp']; [done |].
  destruct fp as [| y0 fp']; [done |]. cbn in Lx, Lf.
  assert (length xp' = n) as Lx' by lia. assert (length fp' = n) as Lf' by lia.
  pose proof (last_cons_lookup xp' x0) as Hlx. rewrite Lx' in Hlx.
  pose proof (last_cons_lookup fp' y0) as Hlf. rewrite Lf' in Hlf.
  unfold coef. rewrite Hlx, Hlf. cbn. rewrite decide_True by lia. split.
  - intros Hx. destruct (Rlt_dec _ _); [done | lra].
  - intros Hx. pose proof (node_le_last x0 xp' O x0 Hinc eq_refl).
    destruct (Rlt_dec _ _); [lra |]. destruct (Rlt_dec _ _); [done | lra].
Qed.

(** The interpolated value lies between any two bounds of the stored
    values. *)
Lemma search_bounds lo hi x xp' : forall fp' x0 y0,
  increasing (x0 :: xp') -> x0 <= x ->
  lo <= y0 <= hi -> Forall (fun y => lo <= y <= hi) fp' ->
  lo <= Np.search x x0 y0 xp' fp' <= hi.
Proof.
  induction xp' as [| x1 xs IH]; intros fp' x0 y0 Hinc Hx Hy Hfp.
  - by destruct fp'.
  - destruct fp' as [| y1 ys]; [done |]. cbn [Np.search].
    apply Forall_cons in Hfp as [Hy1 Hys].
    pose proof (increasing_head x0 (x1 :: xs) O x1 Hinc eq_refl) as H01.
    destruct (Rle_dec x1 x) as [Hle | Hgt].
    + apply IH; [by eapply increasing_tail | done | done | done].
    + destruct (Req_dec_T x0 x); [done |].
      set (t := (x - x0) / (x1 - x0)).
      assert (0 <= t <= 1) as Ht.
      { subst t. unfold Rdiv. split.
        - apply Rmult_le_pos; [lra |]. left. apply Rinv_0_lt_compat. lra.
        - apply (Rmult_le_reg_r (x1 - x0)); [lra |].
          rewrite Rmult_assoc, Rinv_l by lra. lra. }
      replace ((y1 - y0) / (x1 - x0) * (x - x0) + y0)
        with ((y1 - y0) * t + y0) by (subst t; field; lra).
      nra.
Qed.

Lemma interp_bounds lo hi x xp fp p :
  increasing xp -> Forall (fun y => lo <= y <= hi) fp ->
  Np.interp x xp fp = Ok p -> lo <= p <= hi.
Proof.
  intros Hinc Hfp H. destruct xp as [| x0 xp']; [done |].
  destruct fp as [| y0 fp']; [done |]. unfold Np.interp in H.
  destruct (decide (length xp' = length fp')); [| done].
  pose proof Hfp as Hall. apply Forall_cons in Hfp as [Hy0 Hfp'].
  destruct (Rlt_dec _ _).
  - apply Ok_inj in H. subst p. rewrite Forall_lookup in Hall.
    apply (Hall (length fp')). apply last_cons_lookup.
  - destruct (Rlt_dec _ _) as [| Hge]; apply Ok_inj in H; subst p; [done |].
    apply search_bounds; [done | lra | done | done].
Qed.

(** ** The explicit solver from construction to price *)

(** The steps of [price] on a fresh explicit solver, with the values of
    the coefficients and the recursion that the traversal leaves behind. *)
Lemma explicit_run_recursion spot strike rate mat vol top m n is_put :
  n <> O ->
  let s := init spot strike rate mat vol top m n is_put in
  exists g1 co g2,
    FDExplicitEu.setup_boundary_conditions s = Ok (with_grid s g1) /\
    FDExplicitEu.traverse_grid (with_grid s g1) co = Ok (with_grid s g2) /\
    (forall i j, cell g1 i j = boundary_cell s (grid s) i j) /\
    FDExplicitEu.setup_coefficients (with_grid s g1) = Ok co /\
    shape g2 (m + 1) (n + 1) /\
    (forall i j, (j < n)%nat -> (2 <= i < m)%nat -> cell g2 i j = stencil co g2 i j) /\
    (forall i j, ~ ((j < n)%nat /\ (2 <= i < m)%nat) -> cell g2 i j = cell g1 i j) /\
    (forall i, (i < m)%nat ->
       coef (FDExplicitEu.a co) i
       = 0.5 * (mat / INR n) * (vol ^ 2 * INR i ^ 2 - rate * INR i) /\
       coef (FDExplicitEu.b co) i
       = 1 - mat / INR n * (vol ^ 2 * INR i ^ 2 + rate) /\
       coef (FDExplicitEu.c co) i
       = 0.5 * (mat / INR n) * (vol ^ 2 * INR i ^ 2 + rate * INR i)) /\
    exists col,
      FDExplicitEu.price s = Np.interp spot (Np.linspace 0 top (m + 1)) col /\
      length col = (m + 1)%nat /\
      forall i, coef col i = cell g2 i 0.
Proof.
  intros Hn s.
  pose proof (well_formed_init spot strike rate mat vol top m n is_put) as Hwf.
  fold s in Hwf.
  destruct (setup_boundary_conditions_spec s Hwf Hn) as (g1 & E1 & Hs1 & C1).
  assert (exists co, FDExplicitEu.setup_coefficients (with_grid s g1) = Ok co /\
            FDExplicitEu.a co
            = (fun i => 0.5 * (mat / INR n) * (vol ^ 2 * i ^ 2 - rate * i))
                <$> Np.arange m /\
            FDExplicitEu.b co
            = (fun i => 1 - mat / INR n * (vol ^ 2 * i ^ 2 + rate)) <$> Np.arange m /\
            FDExplicitEu.c co
            = (fun i => 0.5 * (mat / INR n) * (vol ^ 2 * i ^ 2 + rate * i))
                <$> Np.arange m)
    as (co & E2 & Ea & Eb & Ec).
  { unfold FDExplicitEu.setup_coefficients. rewrite dt_Ok by done. cbn [rbind].
    eexists. split; [reflexivity |]. done. }
  destruct (traverse_grid_spec (with_grid s g1) co Hs1 eq_refl)
    as (s2 & E3 & Hs2eq & Hs2 & Hin & Hout).
  { unfold coefficients_cover. rewrite Ea, Eb, Ec, !length_fmap, length_arange.
    cbn. lia. }
  exists g1, co, (grid s2). rewrite Hs2eq in E3. cbn in E3, Hs2, Hin, Hout.
  split; [done |]. split; [done |].
  split; [done |]. split; [done |]. split; [exact Hs2 |].
  split; [done |]. split; [done |]. split.
  - intros i Hi. rewrite Ea, Eb, Ec.
    assert (coef (Np.arange m) i = INR i) as Hc
      by (unfold coef; by rewrite lookup_arange).
    rewrite !coef_fmap by (rewrite length_arange; lia). rewrite Hc. done.
  - destruct (interpolate_spec (with_grid s (grid s2)) Hs2) as (col & E & Hl & Hc).
    exists col. split; [| split; [exact Hl | exact Hc]].
    unfold FDExplicitEu.price. rewrite E1. cbn [rbind]. rewrite E2. cbn [rbind].
    rewrite E3. cbn [rbind]. exact E.
Qed.

(** X5: the explicit solver extrapolates flat.  On a fresh solver with
    [M >= 1], [N >= 1] and [Smax > 0], a spot above [Smax] is priced at the
    upper boundary value of today -- [(Smax-K)*exp(-r*dt*N)] for a call, [0]
    for a put -- and a spot below [0] at the lower one -- [0] for a call,
    [(K-Smax)*exp(-r*dt*N)] for a put. *)
Theorem explicit_price_outside_the_grid
    (S0 K r T sigma Smax : R) (M N : nat) (is_put : bool) :
  M <> O -> N <> O -> 0 < Smax -> S0 < 0 \/ Smax < S0 ->
  let s := init S0 K r T sigma Smax M N is_put in
  FDExplicitEu.price s
  = Ok (if Rlt_dec S0 0
        then if is_put then (K - Smax) * discount s 0 else 0
        else if is_put then 0 else (Smax - K) * discount s 0).
Proof.
  intros HM HN HSmax HS0 s.
  destruct (explicit_run_recursion S0 K r T sigma Smax M N is_put HN)
    as (g1 & co & g2 & _ & _ & C1 & _ & Hs2 & _ & Hout & _ & col & Hp & Hl & Hc).
  fold s in C1, Hp. rewrite Hp.
  destruct (interp_outside (Np.linspace 0 Smax (M + 1)) col S0 M) as [Hright Hleft].
  { rewrite length_linspace. lia. }
  { lia. }
  { by apply linspace_increasing. }
  rewrite last_node in Hright by done. rewrite first_node in Hleft.
  assert (H0 : cell g2 O O = if is_put then (K - Smax) * discount s 0 else 0).
  { rewrite Hout by lia. rewrite C1. unfold boundary_cell. cbn.
    destruct is_put; cbn.
    - by rewrite decide_True by lia.
    - rewrite !decide_False by lia. apply cell_zeros2. }
  assert (HM0 : cell g2 M O = if is_put then 0 else (Smax - K) * discount s 0).
  { rewrite Hout by lia. rewrite C1. unfold boundary_cell. cbn.
    destruct is_put; cbn.
    - rewrite !decide_False by lia. apply cell_zeros2.
    - by rewrite decide_True by lia. }
  destruct (Rlt_dec S0 0) as [Hneg | Hpos].
  - rewrite Hleft by done. by rewrite Hc, H0.
  - rewrite Hright by lra. by rewrite Hc, HM0.
Qed.

Lemma explicit_price_outside_the_grid_witness :
  let s := init 120 50 0.1 (5 / 12) 0.4 100 4 2 false in
  FDExplicitEu.price s
  = Ok (if Rlt_dec 120 0
        then 0
        else (100 - 50) * discount s 0).
Proof.
  apply (explicit_price_outside_the_grid 120 50 0.1 (5 / 12) 0.4 100 4 2 false).
  - lia.
  - lia.
  - lra.
  - right. lra.
Defined.

(** X6: one explicit time step on the in-the-money part of a call.  On a
    fresh call solver with [N >= 1] and [Smax >= 0], at every interior
    index [i] in [2..M-1] whose lower neighbour is at or above the strike,
    the value one step before maturity is [S_i - (1 - r*dt)*K] with
    [S_i = i*(Smax/M)]: the step keeps the price of the asset and discounts
    the strike once. *)
Theorem explicit_step_in_the_money
    (S0 K r T sigma Smax : R) (M N : nat) (i : nat) :
  N <> O -> 0 <= Smax -> (2 <= i < M)%nat ->
  K <= INR (i - 1) * (Smax / INR M) ->
  let s := init S0 K r T sigma Smax M N false in
  exists g1 co g2,
    FDExplicitEu.setup_boundary_conditions s = Ok (with_grid s g1) /\
    FDExplicitEu.setup_coefficients (with_grid s g1) = Ok co /\
    FDExplicitEu.traverse_grid (with_grid s g1) co = Ok (with_grid s g2) /\
    cell g2 i (N - 1) = INR i * (Smax / INR M) - (1 - r * (T / INR N)) * K.
Proof.
  intros HN HSmax Hi HK s.
  destruct (explicit_run_recursion S0 K r T sigma Smax M N false HN)
    as (g1 & co & g2 & E1 & E3 & C1 & E2 & Hs2 & Hin & Hout & Hco & _).
  fold s in E1, E3, C1, E2.
  exists g1, co, g2. do 3 (split; [done |]).
  assert (Hterm : forall k, (k <= M)%nat ->
            cell g2 k N = Rmax 0 (INR k * (Smax / INR M) - K)).
  { intros k Hk. rewrite Hout by lia. rewrite C1. unfold boundary_cell. cbn.
    rewrite decide_False by lia. rewrite decide_True by lia.
    by rewrite vanilla_node. }
  rewrite Hin by lia. unfold stencil.
  replace (N - 1 + 1)%nat with N by lia.
  rewrite !Hterm by lia.
  destruct (Hco i ltac:(lia)) as (-> & -> & ->).
  assert (0 < INR M) as HposM by (apply lt_0_INR; lia).
  set (d := Smax / INR M) in *.
  assert (0 <= d) as Hd by (subst d; apply Rle_mult_inv_pos; done).
  replace (INR (i - 1)) with (INR i - 1) in * by (rewrite minus_INR by lia; done).
  replace (INR (i + 1)) with (INR i + 1) by (rewrite plus_INR; done).
  rewrite !Rmax_right by nra.
  set (dt := T / INR N). lra.
Qed.

Lemma explicit_step_in_the_money_witness :
  let s := init 50 50 0.1 (5 / 12) 0.4 100 4 2 false in
  exists g1 co g2,
    FDExplicitEu.setup_boundary_conditions s = Ok (with_grid s g1) /\
    FDExplicitEu.setup_coefficients (with_grid s g1) = Ok co /\
    FDExplicitEu.traverse_grid (with_grid s g1) co = Ok (with_grid s g2) /\
    cell g2 3 (2 - 1) = INR 3 * (100 / INR 4) - (1 - 0.1 * (5 / 12 / INR 2)) * 50.
Proof.
  apply (explicit_step_in_the_money 50 50 0.1 (5 / 12) 0.4 100 4 2 3).
  - lia.
  - lra.
  - lia.
  - simpl. lra.
Defined.

Lemma node_le_top hi m i :
  0 < hi -> (i <= m)%nat -> 0 <= coef (Np.linspace 0 hi (m + 1)) i <= hi.
Proof.
  intros Hhi Hi. pose proof (linspace_increasing 0 hi m Hhi) as Hinc.
  pose proof (node_lookup 0 hi m i Hi) as Hli.
  pose proof (node_lookup 0 hi m O ltac:(lia)) as Hl0.
  pose proof (node_lookup 0 hi m m ltac:(lia)) as Hlm.
  rewrite first_node in Hl0.
  assert (coef (Np.linspace 0 hi (m + 1)) m <= hi) as Htop.
  { destruct m as [| m']; [rewrite first_node; lra |]. rewrite last_node by done. lra. }
  split.
  - destruct i as [| i']; [rewrite first_node; lra |].
    left. apply (Hinc O (S i') _ _ Hl0 Hli). lia.
  - destruct (decide (i = m)) as [-> | Hne]; [done |].
    left. eapply Rlt_le_trans; [| exact Htop].
    apply (Hinc i m _ _ Hli Hlm). lia.
Qed.

Lemma discount_le_1 (s : FiniteDifferences) j :
  0 <= r s -> 0 <= T s -> (j <= N s)%nat -> discount s j <= 1.
Proof.
  intros Hr HT Hj. unfold discount. rewrite <- exp_0.
  set (e := - r s * (T s / INR (N s)) * (INR (N s) - INR j)).
  assert (e <= 0) as He.
  { subst e. assert (0 <= INR (N s) - INR j) by (apply le_INR in Hj; lra).
    assert (0 <= T s / INR (N s)).
    { destruct (N s) as [| n]; [cbn; unfold Rdiv; rewrite Rinv_0; lra |].
      apply Rle_mult_inv_pos; [done |]. apply lt_0_INR. lia. }
    assert (0 <= r s * (T s / INR (N s)) * (INR (N s) - INR j))
      by (apply Rmult_le_pos; [apply Rmult_le_pos |]; done).
    lra. }
  destruct He as [Hlt | ->]; [left; by apply exp_increasing | lra].
Qed.

(** X7: a maximum principle for the explicit call.  On a fresh call solver
    with [N >= 1], [T >= 0], [r >= 0], [0 < Smax], [K <= Smax] whose stencil
    weights are not negative ([r <= sigma^2*i] and
    [dt*(sigma^2*i^2 + r) <= 1] at every interior index [i] in [2..M-1]),
    every cell of the traversed grid lies between [0] and [Smax - K], and
    so does the price at any spot. *)
Theorem explicit_call_within_bounds
    (S0 K r T sigma Smax : R) (M N : nat) :
  N <> O -> 0 <= T -> 0 <= r -> 0 < Smax -> K <= Smax ->
  (forall i, (2 <= i < M)%nat ->
     r <= sigma ^ 2 * INR i /\ T / INR N * (sigma ^ 2 * INR i ^ 2 + r) <= 1) ->
  let s := init S0 K r T sigma Smax M N false in
  exists g1 co g2 p,
    FDExplicitEu.setup_boundary_conditions s = Ok (with_grid s g1) /\
    FDExplicitEu.setup_coefficients (with_grid s g1) = Ok co /\
    FDExplicitEu.traverse_grid (with_grid s g1) co = Ok (with_grid s g2) /\
    (forall i j, 0 <= cell g2 i j <= Smax - K) /\
    FDExplicitEu.price s = Ok p /\
    0 <= p <= Smax - K.
Proof.
  intros HN HT Hr HSmax HK Hstab s.
  destruct (explicit_run_recursion S0 K r T sigma Smax M N false HN)
    as (g1 & co & g2 & E1 & E3 & C1 & E2 & Hs2 & Hin & Hout & Hco & col & Hp & Hl & Hc).
  fold s in E1, E3, C1, E2, Hp.
  assert (0 < INR N) as HposN by (apply lt_0_INR; lia).
  assert (0 <= T / INR N) as Hdt by (apply Rle_mult_inv_pos; done).
  assert (Hedge : forall i j, ~ ((j < N)%nat /\ (2 <= i < M)%nat) ->
            0 <= cell g2 i j <= Smax - K).
  { intros i j Hn. rewrite Hout by done. rewrite C1. unfold boundary_cell. cbn.
    destruct (decide (i = M /\ (j < N)%nat)) as [[-> Hj] | Hn1].
    - pose proof (discount_pos s j). pose proof (discount_le_1 s j Hr HT ltac:(cbn; lia)).
      nra.
    - destruct (decide (j = N /\ (i < M + 1)%nat)) as [[-> Hi] | Hn2].
      + pose proof (node_le_top Smax M i HSmax ltac:(lia)) as [Hlo Hhi].
        split; [apply Rmax_l |]. apply Rmax_lub; lra.
      + rewrite cell_zeros2. lra. }
  assert (Hall : forall d j i, (N <= j + d)%nat -> 0 <= cell g2 i j <= Smax - K).
  { induction d as [| d IH]; intros j i Hj.
    - apply Hedge. lia.
    - destruct (decide ((j < N)%nat /\ (2 <= i < M)%nat)) as [[Hj' Hi] | Hn];
        [| by apply Hedge].
      rewrite Hin by done. unfold stencil.
      destruct (Hco i ltac:(lia)) as (-> & -> & ->).
      destruct (Hstab i Hi) as [Hs1 Hs2'].
      pose proof (IH (j + 1)%nat (i - 1)%nat ltac:(lia)) as Hx.
      pose proof (IH (j + 1)%nat i ltac:(lia)) as Hy.
      pose proof (IH (j + 1)%nat (i + 1)%nat ltac:(lia)) as Hz.
      set (x := cell g2 (i - 1) (j + 1)) in *. set (y := cell g2 i (j + 1)) in *.
      set (z := cell g2 (i + 1) (j + 1)) in *.
      set (dt := T / INR N) in *. set (n := INR i) in *.
      assert (0 <= n) as Hn by (subst n; apply pos_INR).
      set (wa := 0.5 * dt * (sigma ^ 2 * n ^ 2 - r * n)).
      set (wb := 1 - dt * (sigma ^ 2 * n ^ 2 + r)).
      set (wc := 0.5 * dt * (sigma ^ 2 * n ^ 2 + r * n)).
      assert (0 <= wa) as Hwa.
      { subst wa. replace (sigma ^ 2 * n ^ 2 - r * n) with (n * (sigma ^ 2 * n - r)) by ring.
        apply Rmult_le_pos; [lra |]. apply Rmult_le_pos; lra. }
      assert (0 <= wb) as Hwb by (subst wb; lra).
      assert (0 <= wc) as Hwc.
      { subst wc. apply Rmult_le_pos; [lra |].
        assert (0 <= sigma ^ 2 * n ^ 2) by (apply Rmult_le_pos; apply pow2_ge_0).
        nra. }
      assert (wa + wb + wc = 1 - r * dt) as Hsum by (subst wa wb wc; lra).
      assert (0 <= r * dt) by (by apply Rmult_le_pos).
      split; [nra |].
      assert (wa * x + wb * y + wc * z <= (wa + wb + wc) * (Smax - K)) by nra.
      nra. }
  exists g1, co, g2.
  assert (exists p, FDExplicitEu.price s = Ok p) as [p Hprice].
  { rewrite Hp. apply interp_Ok.
    - unfold Np.linspace. replace (M + 1)%nat with (S M) by lia. done.
    - rewrite length_linspace. lia. }
  exists p. do 3 (split; [done |]).
  split; [intros i j; apply (Hall N j i); lia |]. split; [done |].
  rewrite Hp in Hprice. eapply interp_bounds; [| | exact Hprice].
  - by apply linspace_increasing.
  - apply Forall_lookup. intros k y Hk.
    assert (y = coef col k) as -> by (unfold coef; by rewrite Hk).
    rewrite Hc. apply (Hall N O k). lia.
Qed.

Lemma explicit_call_within_bounds_witness :
  let s := init 50 50 0.1 (5 / 12) 0.4 100 4 2 false in
  exists g1 co g2 p,
    FDExplicitEu.setup_boundary_conditions s = Ok (with_grid s g1) /\
    FDExplicitEu.setup_coefficients (with_grid s g1) = Ok co /\
    FDExplicitEu.traverse_grid (with_grid s g1) co = Ok (with_grid s g2) /\
    (forall i j, 0 <= cell g2 i j <= 100 - 50) /\
    FDExplicitEu.price s = Ok p /\
    0 <= p <= 100 - 50.
Proof.
  apply (explicit_call_within_bounds 50 50 0.1 (5 / 12) 0.4 100 4 2).
  - lia.
  - lra.
  - lra.
  - lra.
  - lra.
  - intros i Hi. assert (i = 2 \/ i = 3)%nat as [-> | ->] by lia; simpl; lra.
Defined.

(** ** Assignments to and reads of the interior of a column *)

Lemma list_eq_coef (l1 l2 : list R) :
  length l1 = length l2 ->
  (forall k, (k < length l1)%nat -> coef l1 k = coef l2 k) -> l1 = l2.
Proof.
  intros Hlen H. apply list_eq. intros k.
  destruct (decide (k < length l1)%nat) as [Hk | Hk].
  - destruct (lookup_lt_is_Some_2 l1 k Hk) as [x Hx].
    destruct (lookup_lt_is_Some_2 l2 k ltac:(lia)) as [y Hy].
    specialize (H k Hk). unfold coef in H. rewrite Hx, Hy in H. cbn in H.
    rewrite Hx, Hy. by f_equal.
  - rewrite !lookup_ge_None_2 by lia. done.
Qed.

Lemma column_slice_spec g m n j :
  shape g (m + 1) (n + 1) -> (j < n + 1)%nat ->
  exists v, column_slice 1 m j g = Ok v /\ length v = (m - 1)%nat /\
    forall k, (k < m - 1)%nat -> coef v k = cell g (k + 1) j.
Proof.
  intros [Hlen Hall] Hj. exists ((fun row => coef row j) <$> Np.slice 1 m g).
  split; [| split].
  - unfold column_slice. apply sequence_Ok.
    apply Forall2_fmap, Forall_Forall2_diag, Forall_forall.
    intros row Hin. cbn. apply get_coef.
    rewrite Forall_forall in Hall. rewrite (Hall row); [lia |].
    unfold Np.slice in Hin. apply elem_of_take in Hin as (i & Hin & _).
    rewrite lookup_drop in Hin. by apply list_elem_of_lookup_2 in Hin.
  - rewrite length_fmap, length_slice by lia. done.
  - intros k Hk. unfold coef at 1, cell. rewrite list_lookup_fmap, lookup_slice.
    rewrite decide_True by lia. replace (1 + k)%nat with (k + 1)%nat by lia.
    destruct (g !! (k + 1)%nat); done.
Qed.

Lemma sequence_zip_with_set (rows : list (list R)) j n : forall x,
  Forall (fun row => length row = n) rows -> (j < n)%nat ->
  Np.sequence (zip_with (fun row v => Np.set row j v) rows x)
  = Ok (zip_with (fun row v => <[j:=v]> row) rows x).
Proof.
  induction rows as [| row rows IH]; intros x Hall Hj; [done |].
  destruct x as [| v x]; [done |]. apply Forall_cons in Hall as [Hrow Hall].
  cbn. rewrite set_in_range by lia. cbn. by rewrite IH.
Qed.

Lemma set_column_slice_spec g m n j x :
  shape g (m + 1) (n + 1) -> (1 <= m)%nat -> (j < n + 1)%nat ->
  length x = (m - 1)%nat ->
  exists g', set_column_slice 1 m j g x = Ok g' /\ shape g' (m + 1) (n + 1) /\
    forall i j', cell g' i j'
                 = if decide ((1 <= i < m)%nat /\ j' = j) then coef x (i - 1)
                   else cell g i j'.
Proof.
  intros [Hlen Hall] Hm Hj Hx.
  set (rows := Np.slice 1 m g).
  assert (Lrows : length rows = (m - 1)%nat) by (subst rows; rewrite length_slice; lia).
  assert (Hrows : Forall (fun row => length row = (n + 1)%nat) rows).
  { subst rows. unfold Np.slice. by apply Forall_take, Forall_drop. }
  set (rows' := zip_with (fun row v => <[j:=v]> row) rows x).
  assert (Lrows' : length rows' = (m - 1)%nat).
  { subst rows'. rewrite length_zip_with. lia. }
  exists (take 1 g ++ rows' ++ drop (1 + length rows) g).
  split; [| split].
  - unfold set_column_slice. fold rows. rewrite broadcast_to_same by lia.
    cbn [rbind]. rewrite (sequence_zip_with_set rows j (n + 1)) by done. done.
  - split.
    + rewrite !length_app, length_take, length_drop, Lrows', Lrows. lia.
    + apply Forall_app. split; [by apply Forall_take |].
      apply Forall_app. split; [| by apply Forall_drop].
      apply Forall_forall. intros row Hin. subst rows'.
      apply elem_of_lookup_zip_with in Hin as (k & row0 & v & -> & Hrow0 & _).
      rewrite length_insert. rewrite Forall_lookup in Hrows. by eapply Hrows.
  - intros i j'. unfold cell.
    destruct (decide (i = O)) as [-> | Hi0].
    + rewrite lookup_app_l by (rewrite length_take; lia).
      rewrite lookup_take_lt by lia. rewrite decide_False by lia. done.
    + rewrite lookup_app_r by (rewrite length_take; lia).
      rewrite length_take. replace (i - 1 `min` length g)%nat with (i - 1)%nat by lia.
      destruct (decide (i < m)%nat) as [Him | Him].
      * rewrite lookup_app_l by lia. subst rows'. rewrite lookup_zip_with.
        subst rows. rewrite lookup_slice. rewrite decide_True by lia.
        replace (1 + (i - 1))%nat with i by lia.
        destruct (lookup_lt_is_Some_2 g i ltac:(lia)) as [row Hrow]. rewrite Hrow.
        destruct (lookup_lt_is_Some_2 x (i - 1) ltac:(lia)) as [v Hv]. rewrite Hv.
        cbn. assert (length row = (n + 1)%nat) as Lrow
          by (rewrite Forall_lookup in Hall; by eapply Hall).
        destruct (decide (j' = j)) as [-> | Hne].
        -- rewrite list_lookup_insert_eq by lia. rewrite decide_True by lia.
           unfold coef. by rewrite Hv.
        -- rewrite list_lookup_insert_ne by done. rewrite decide_False by tauto. done.
      * rewrite lookup_app_r by lia. rewrite lookup_drop.
        rewrite Lrows', Lrows. replace (1 + (m - 1) + (i - 1 - (m - 1)))%nat with i by lia.
        rewrite decide_False by lia. done.
Qed.

Lemma dot_Ok_inv A x b n :
  Np.dot A x = Ok b -> shape A n n -> length x = n /\ length b = n.
Proof.
  unfold Np.dot. intros H [Hlen Hall].
  destruct (decide _) as [[Hrows Hnil] | _]; [| done].
  apply Ok_inj in H. subst b. rewrite length_fmap. split; [| done].
  destruct A as [| row A].
  - rewrite Hnil by done. done.
  - apply Forall_cons in Hrows as [Hrow _]. apply Forall_cons in Hall as [Hrow' _]. lia.
Qed.

(** ** The time loop of the schemes that solve a linear system *)

Lemma for_each_ext {A S} (l : list A) (f g : S -> A -> result S) :
  (forall st x, f st x = g st x) -> forall st, for_each l f st = for_each l g st.
Proof.
  intros H. induction l as [| x l IH]; intros st; cbn; [done |].
  rewrite H. destruct (g st x); cbn; [apply IH | done].
Qed.

Lemma solve_loop_spec solve rhs_of m n L U :
  (1 <= m)%nat ->
  shape L (m - 1) (m - 1) -> shape U (m - 1) (m - 1) ->
  solves solve L (m - 1) -> solves solve U (m - 1) ->
  (forall g g' j, (j < n)%nat ->
     shape g (m + 1) (n + 1) -> shape g' (m + 1) (n + 1) ->
     (forall i, cell g' i (j + 1) = cell g i (j + 1)) ->
     (forall j', cell g' O j' = cell g O j') ->
     rhs_of g' j = rhs_of g j) ->
  (forall g j, (j < n)%nat -> shape g (m + 1) (n + 1) ->
     exists rhs, rhs_of g j = Ok rhs /\ length rhs = (m - 1)%nat) ->
  forall k g, (k <= n)%nat -> shape g (m + 1) (n + 1) ->
  exists g',
    for_each (rev (seq 0 k)) (solve_step solve rhs_of m L U) g = Ok g' /\
    shape g' (m + 1) (n + 1) /\
    (forall i j, ~ ((1 <= i < m)%nat /\ (j < k)%nat) -> cell g' i j = cell g i j) /\
    (forall j, (j < k)%nat ->
       exists rhs x1 v,
         rhs_of g' j = Ok rhs /\ column_slice 1 m j g' = Ok v /\
         Np.dot U v = Ok x1 /\ Np.dot L x1 = Ok rhs).
Proof.
  intros Hm HL HU HsL HsU Hlocal Htotal.
  induction k as [| k IH]; intros g Hk Hs.
  - exists g. split; [done |]. split; [done |]. split; [done |]. intros j Hj. lia.
  - rewrite seq_S, rev_app_distr. cbn [rev app Nat.add for_each].
    destruct (Htotal g k ltac:(lia) Hs) as (rhs & Erhs & Lrhs).
    destruct (HsL rhs Lrhs) as (x1 & Ex1 & Dx1).
    destruct (dot_Ok_inv _ _ _ _ Dx1 HL) as [Lx1 _].
    destruct (HsU x1 Lx1) as (x2 & Ex2 & Dx2).
    destruct (dot_Ok_inv _ _ _ _ Dx2 HU) as [Lx2 _].
    destruct (set_column_slice_spec g m n k x2 Hs Hm ltac:(lia) Lx2)
      as (g1 & E1 & Hs1 & C1).
    assert (Estep : solve_step solve rhs_of m L U g k = Ok g1).
    { unfold solve_step. rewrite Erhs. cbn [rbind]. rewrite Ex1. cbn [rbind].
      rewrite Ex2. cbn [rbind]. exact E1. }
    rewrite Estep. cbn [rbind].
    destruct (IH g1 ltac:(lia) Hs1) as (g' & E' & Hs' & Hframe & Hsteps).
    exists g'. split; [exact E' |]. split; [done |].
    assert (Hfr : forall i j, ~ ((1 <= i < m)%nat /\ (j < S k)%nat) ->
              cell g' i j = cell g i j).
    { intros i j Hn. rewrite Hframe by lia. rewrite C1.
      rewrite decide_False; [done | lia]. }
    split; [exact Hfr |]. intros j Hj.
    destruct (decide (j < k)%nat) as [Hlt | Hge]; [by apply Hsteps |].
    assert (j = k) as -> by lia.
    exists rhs, x1, x2. split; [| split; [| done]].
    + rewrite <- Erhs. apply Hlocal; [lia | done | done | |].
      * intros i. apply Hfr. lia.
      * intros j'. apply Hfr. lia.
    + destruct (column_slice_spec g' m n k Hs' ltac:(lia)) as (v & Ev & Lv & Cv).
      rewrite Ev. f_equal. apply list_eq_coef; [lia |].
      intros i Hi. rewrite Cv by lia. rewrite Hframe by lia. rewrite C1.
      rewrite decide_True by lia. f_equal. lia.
Qed.

Lemma column_slice_ext g g' m n j :
  shape g (m + 1) (n + 1) -> shape g' (m + 1) (n + 1) -> (j < n + 1)%nat ->
  (forall i, cell g' i j = cell g i j) ->
  column_slice 1 m j g' = column_slice 1 m j g.
Proof.
  intros Hs Hs' Hj Hc.
  destruct (column_slice_spec g m n j Hs Hj) as (v & -> & Lv & Cv).
  destruct (column_slice_spec g' m n j Hs' Hj) as (v' & -> & Lv' & Cv').
  f_equal. apply list_eq_coef; [lia |]. intros k Hk.
  rewrite Cv', Cv by lia. apply Hc.
Qed.

(** X8: the time steps of the Crank-Nicolson traversal.  When
    [scipy.linalg.lu] returns square factors [L] and [U] for [M1] and
    [scipy.linalg.solve] solves every system with them, the traversal
    returns; it writes the interior rows [1..M-1] of the columns [0..N-1]
    only, and the interior [V(j)] of every column [j < N] satisfies
    [L . (U . V(j)) = M2 . V(j+1)]. *)
Theorem crank_nicolson_time_steps lu solve (s : FiniteDifferences)
    (co : FDCnEu.coefficients) (P L U : list (list R)) :
  shape (grid s) (M s + 1) (N s + 1) -> (2 <= M s)%nat ->
  shape (FDCnEu.M2 co) (M s - 1) (M s - 1) ->
  lu (FDCnEu.M1 co) = Ok (P, L, U) ->
  shape L (M s - 1) (M s - 1) -> shape U (M s - 1) (M s - 1) ->
  solves solve L (M s - 1) -> solves solve U (M s - 1) ->
  exists s',
    FDCnEu.traverse_grid lu solve s co = Ok s' /\
    shape (grid s') (M s + 1) (N s + 1) /\
    (forall i j, ~ ((1 <= i < M s)%nat /\ (j < N s)%nat) ->
       cell (grid s') i j = cell (grid s) i j) /\
    (forall j, (j < N s)%nat ->
       exists next rhs x1 now,
         column_slice 1 (M s) (j + 1) (grid s') = Ok next /\
         Np.dot (FDCnEu.M2 co) next = Ok rhs /\
         column_slice 1 (M s) j (grid s') = Ok now /\
         Np.dot U now = Ok x1 /\ Np.dot L x1 = Ok rhs).
Proof.
  intros Hs HM HM2 Hlu HL HU HsL HsU.
  destruct (solve_loop_spec solve (cn_rhs s co) (M s) (N s) L U ltac:(lia)
              HL HU HsL HsU) with (k := N s) (g := grid s)
    as (g' & E & Hs' & Hframe & Hsteps); try done.
  { intros g g' j Hj Hg Hg' Hcol _. unfold cn_rhs.
    by rewrite (column_slice_ext g g' (M s) (N s) (j + 1) Hg Hg' ltac:(lia)). }
  { intros g j Hj Hg. unfold cn_rhs.
    destruct (column_slice_spec g (M s) (N s) (j + 1) Hg ltac:(lia)) as (v & -> & Lv & _).
    cbn [rbind]. apply dot_Ok; [done | done | lia]. }
  exists (with_grid s g'). split; [| split; [exact Hs' | split; [exact Hframe |]]].
  - unfold FDCnEu.traverse_grid. rewrite Hlu. cbn [rbind fst snd].
    rewrite (for_each_ext _ _ (solve_step solve (cn_rhs s co) (M s) L U)).
    + rewrite E. done.
    + intros g j. unfold FDCnEu.time_step, solve_step, cn_rhs.
      destruct (column_slice _ _ _ _); done.
  - intros j Hj. destruct (Hsteps j Hj) as (rhs & x1 & v & Erhs & Ev & D1 & D2).
    unfold cn_rhs in Erhs. cbn [grid with_grid].
    destruct (column_slice 1 (M s) (j + 1) g') as [next | e]; [| done].
    exists next, rhs, x1, v. done.
Qed.

Lemma one_by_one (A : list (list R)) : shape A 1 1 -> A = [[cell A 0 0]].
Proof.
  intros [Hl Hall]. destruct A as [| row [| ? ?]]; try done.
  apply Forall_cons in Hall as [Hrow _].
  destruct row as [| x [| ? ?]]; try done.
Qed.

Lemma solves_1x1 e : e <> 0 -> solves solve_1x1 [[e]] 1.
Proof.
  intros He b Hb. destruct b as [| v [| ? ?]]; try done.
  exists [v / e]. split.
  - cbn. destruct (Req_dec_T e 0); done.
  - unfold Np.dot. rewrite decide_True.
    + cbn. do 2 f_equal. field. done.
    + split; [by repeat constructor | done].
Qed.

Lemma coef_fmap_lookup (f : R -> R) l i x :
  l !! i = Some x -> coef (f <$> l) i = f x.
Proof. intros H. unfold coef. by rewrite list_lookup_fmap, H. Qed.

(** The diagonal of [M1]. *)
Lemma cn_diagonal (s : FiniteDifferences) co k x :
  FDCnEu.setup_coefficients s = Ok co ->
  (2 <= M s)%nat -> (M s <= length (i_values s))%nat -> (k < M s - 1)%nat ->
  i_values s !! (k + 1)%nat = Some x ->
  cell (FDCnEu.M1 co) k k = 1 + T s / INR (N s) * 0.5 * (sigma s ^ 2 * x ^ 2 + r s).
Proof.
  intros Hco HM Hiv Hk Hx.
  destruct (cn_coefficient_arrays s co Hco) as (HN & _ & Eb & _).
  destruct (cn_setup_coefficients_spec s HN HM Hiv) as (co' & Hco' & _ & _ & _ & _ & _ & C).
  rewrite Hco in Hco'. apply Ok_inj in Hco'. subst co'.
  destruct (C k k Hk Hk) as [-> _]. unfold tridiagonal. rewrite decide_True by done.
  rewrite Eb. rewrite (coef_fmap_lookup _ _ _ x Hx). lra.
Qed.

Lemma crank_nicolson_time_steps_witness :
  exists s',
    FDCnEu.traverse_grid lu_1x1 solve_1x1 sample_two_steps sample_two_steps_cn = Ok s' /\
    shape (grid s') (2 + 1) (2 + 1) /\
    (forall i j, ~ ((1 <= i < 2)%nat /\ (j < 2)%nat) ->
       cell (grid s') i j = cell (grid sample_two_steps) i j) /\
    (forall j, (j < 2)%nat ->
       exists next rhs x1 now,
         column_slice 1 2 (j + 1) (grid s') = Ok next /\
         Np.dot (FDCnEu.M2 sample_two_steps_cn) next = Ok rhs /\
         column_slice 1 2 j (grid s') = Ok now /\
         Np.dot (FDCnEu.M1 sample_two_steps_cn) now = Ok x1 /\
         Np.dot [[1]] x1 = Ok rhs).
Proof.
  apply (crank_nicolson_time_steps lu_1x1 solve_1x1 sample_two_steps
           sample_two_steps_cn [[1]] [[1]] (FDCnEu.M1 sample_two_steps_cn)).
  - apply shape_zeros2.
  - simpl. lia.
  - split; [reflexivity | by repeat constructor].
  - reflexivity.
  - split; [reflexivity | by repeat constructor].
  - split; [reflexivity | by repeat constructor].
  - apply solves_1x1. lra.
  - rewrite (one_by_one (FDCnEu.M1 sample_two_steps_cn))
      by (split; [reflexivity | by repeat constructor]).
    apply solves_1x1.
    rewrite (cn_diagonal sample_two_steps sample_two_steps_cn 0 (INR 1));
      [simpl; lra | reflexivity | simpl; lia | simpl; lia | simpl; lia | reflexivity].
Defined.

(** ** FDImplicitEu: the time steps *)

Lemma implicit_rhs_total (s : FiniteDifferences) co g j :
  (2 <= M s)%nat -> (2 <= length (FDImplicitEu.a co))%nat ->
  (j < N s)%nat -> shape g (M s + 1) (N s + 1) ->
  exists v,
    column_slice 1 (M s) (j + 1) g = Ok v /\ length v = (M s - 1)%nat /\
    implicit_rhs s co g j
    = Ok (zip_with Rplus v
            (<[O := - coef (FDImplicitEu.a co) 1 * cell g O j]> (Np.zeros (M s - 1)))).
Proof.
  intros HM La Hj Hs.
  destruct (column_slice_spec g (M s) (N s) (j + 1) Hs ltac:(lia)) as (v & Ev & Lv & _).
  exists v. split; [done |]. split; [done |].
  unfold implicit_rhs. rewrite get_coef by lia. cbn [rbind].
  rewrite (grid_get_cell g _ _ O j Hs) by lia. cbn [rbind].
  assert (length (Np.zeros (M s - 1)) = (M s - 1)%nat) as Lz
    by (unfold Np.zeros; by rewrite length_replicate).
  rewrite set_in_range by lia. cbn [rbind]. rewrite Ev. cbn [rbind].
  apply vec_op_same. rewrite length_insert. lia.
Qed.

Lemma coef_zeros n k : coef (Np.zeros n) k = 0.
Proof.
  unfold coef, Np.zeros. destruct (replicate n 0 !! k) as [x |] eqn:E; [| done].
  by apply lookup_replicate in E as [-> _].
Qed.

(** A step of [traverse_grid], which also carries [aux], does what the
    step on the grid alone does. *)
Lemma implicit_step_carries_aux solve (s : FiniteDifferences) co L U g aux j g1 :
  (2 <= M s)%nat -> length aux = (M s - 1)%nat ->
  (forall k, (1 <= k)%nat -> coef aux k = 0) ->
  solve_step solve (implicit_rhs s co) (M s) L U g j = Ok g1 ->
  exists aux1,
    FDImplicitEu.time_step solve s co L U (g, aux) j = Ok (g1, aux1) /\
    length aux1 = (M s - 1)%nat /\
    (forall k, (1 <= k)%nat -> coef aux1 k = 0).
Proof.
  intros HM Laux Haux Estep.
  unfold solve_step, implicit_rhs in Estep.
  unfold FDImplicitEu.time_step. cbn [fst snd].
  destruct (Np.get (FDImplicitEu.a co) 1) as [a1 | e]; [| done]. cbn [rbind] in *.
  destruct (grid_get g 0 j) as [g0 | e]; [| done]. cbn [rbind] in *.
  assert (length (Np.zeros (M s - 1)) = (M s - 1)%nat) as Lz
    by (unfold Np.zeros; by rewrite length_replicate).
  rewrite set_in_range in Estep by lia. rewrite set_in_range by lia.
  cbn [rbind] in *.
  assert (<[O := - a1 * g0]> aux = <[O := - a1 * g0]> (Np.zeros (M s - 1))) as ->.
  { apply list_eq_coef; [rewrite !length_insert; lia |].
    intros k Hk. rewrite !coef_insert.
    destruct (decide (k = O)) as [-> | Hne].
    - rewrite !decide_True by lia. done.
    - rewrite !decide_False by lia. rewrite coef_zeros. apply Haux. lia. }
  set (aux0 := <[O := - a1 * g0]> (Np.zeros (M s - 1))) in *.
  destruct (column_slice 1 (M s) (j + 1) g) as [v | e]; [| done]. cbn [rbind] in *.
  destruct (Np.vec_op Rplus v aux0) as [rhs | e]; [| done]. cbn [rbind] in *.
  destruct (solve L rhs) as [x1 | e]; [| done]. cbn [rbind] in *.
  destruct (solve U x1) as [x2 | e]; [| done]. cbn [rbind] in *.
  rewrite Estep. cbn [rbind]. exists aux0. split; [done |]. split.
  - subst aux0. rewrite length_insert. done.
  - intros k Hk. subst aux0. rewrite coef_insert.
    rewrite decide_False by lia. apply coef_zeros.
Qed.

Lemma implicit_loop_carries_aux solve (s : FiniteDifferences) co L U js :
  forall g aux g',
    (2 <= M s)%nat -> length aux = (M s - 1)%nat ->
    (forall k, (1 <= k)%nat -> coef aux k = 0) ->
    for_each js (solve_step solve (implicit_rhs s co) (M s) L U) g = Ok g' ->
    exists aux',
      for_each js (FDImplicitEu.time_step solve s co L U) (g, aux) = Ok (g', aux').
Proof.
  induction js as [| j js IH]; intros g aux g' HM Laux Haux H; cbn in H.
  - apply Ok_inj in H. subst g'. by exists aux.
  - destruct (solve_step _ _ _ _ _ g j) as [g1 | e] eqn:Estep; [| done].
    cbn [rbind] in H. cbn [for_each].
    destruct (implicit_step_carries_aux solve s co L U g aux j g1 HM Laux Haux Estep)
      as (aux1 & -> & Laux1 & Haux1).
    cbn [rbind]. by apply IH.
Qed.

(** X9: the time steps of the implicit traversal.  When [scipy.linalg.lu]
    returns square factors [L] and [U] for the operator and
    [scipy.linalg.solve] solves every system with them, the traversal
    returns; it writes the interior rows [1..M-1] of the columns [0..N-1]
    only, and the interior [V(j)] of every column [j < N] satisfies
    [L . (U . V(j)) = V(j+1) + aux(j)], where [aux(j)] is zero but for its
    first entry [-a[1]*grid[0,j]]. *)
Theorem implicit_time_steps lu solve (s : FiniteDifferences)
    (co : FDImplicitEu.coefficients) (P L U : list (list R)) :
  shape (grid s) (M s + 1) (N s + 1) -> (2 <= M s)%nat ->
  (2 <= length (FDImplicitEu.a co))%nat ->
  lu (FDImplicitEu.coeffs co) = Ok (P, L, U) ->
  shape L (M s - 1) (M s - 1) -> shape U (M s - 1) (M s - 1) ->
  solves solve L (M s - 1) -> solves solve U (M s - 1) ->
  exists s',
    FDImplicitEu.traverse_grid lu solve s co = Ok s' /\
    shape (grid s') (M s + 1) (N s + 1) /\
    (forall i j, ~ ((1 <= i < M s)%nat /\ (j < N s)%nat) ->
       cell (grid s') i j = cell (grid s) i j) /\
    (forall j, (j < N s)%nat ->
       exists a1 next x1 now,
         Np.get (FDImplicitEu.a co) 1 = Ok a1 /\
         column_slice 1 (M s) (j + 1) (grid s') = Ok next /\
         column_slice 1 (M s) j (grid s') = Ok now /\
         Np.dot U now = Ok x1 /\
         Np.dot L x1
         = Ok (zip_with Rplus next
                 (<[O := - a1 * cell (grid s') O j]> (Np.zeros (M s - 1))))).
Proof.
  intros Hs HM La Hlu HL HU HsL HsU.
  destruct (solve_loop_spec solve (implicit_rhs s co) (M s) (N s) L U ltac:(lia)
              HL HU HsL HsU) with (k := N s) (g := grid s)
    as (g' & E & Hs' & Hframe & Hsteps); try done.
  { intros g g' j Hj Hg Hg' Hcol Hrow.
    destruct (implicit_rhs_total s co g j HM La Hj Hg) as (v & Ev & _ & ->).
    destruct (implicit_rhs_total s co g' j HM La Hj Hg') as (v' & Ev' & _ & ->).
    rewrite (column_slice_ext g g' (M s) (N s) (j + 1) Hg Hg' ltac:(lia) Hcol) in Ev'.
    rewrite Ev in Ev'. apply Ok_inj in Ev'. subst v'. by rewrite Hrow. }
  { intros g j Hj Hg.
    destruct (implicit_rhs_total s co g j HM La Hj Hg) as (v & Ev & Lv & ->).
    eexists. split; [reflexivity |]. rewrite length_zip_with, length_insert.
    unfold Np.zeros. rewrite length_replicate. lia. }
  exists (with_grid s g'). split; [| split; [exact Hs' | split; [exact Hframe |]]].
  - unfold FDImplicitEu.traverse_grid. rewrite Hlu. cbn [rbind fst snd].
    destruct (M s) as [| m] eqn:EM; [lia |]. cbn [rbind].
    destruct (implicit_loop_carries_aux solve s co L U (rev (seq 0 (N s)))
                (grid s) (Np.zeros m) g') as (aux' & ->).
    + lia.
    + unfold Np.zeros. rewrite length_replicate. lia.
    + intros k _. apply coef_zeros.
    + rewrite EM. exact E.
    + done.
  - intros j Hj. destruct (Hsteps j Hj) as (rhs & x1 & v & Erhs & Ev & D1 & D2).
    destruct (implicit_rhs_total s co g' j HM La Hj Hs') as (next & En & _ & Er).
    rewrite Er in Erhs. apply Ok_inj in Erhs. subst rhs.
    exists (coef (FDImplicitEu.a co) 1), next, x1, v. cbn [grid with_grid].
    rewrite get_coef by lia. done.
Qed.

Lemma implicit_time_steps_witness :
  exists s',
    FDImplicitEu.traverse_grid lu_1x1 solve_1x1 sample_two_steps
      sample_two_steps_implicit = Ok s' /\
    shape (grid s') (2 + 1) (2 + 1) /\
    (forall i j, ~ ((1 <= i < 2)%nat /\ (j < 2)%nat) ->
       cell (grid s') i j = cell (grid sample_two_steps) i j) /\
    (forall j, (j < 2)%nat ->
       exists a1 next x1 now,
         Np.get (FDImplicitEu.a sample_two_steps_implicit) 1 = Ok a1 /\
         column_slice 1 2 (j + 1) (grid s') = Ok next /\
         column_slice 1 2 j (grid s') = Ok now /\
         Np.dot (FDImplicitEu.coeffs sample_two_steps_implicit) now = Ok x1 /\
         Np.dot [[1]] x1
         = Ok (zip_with Rplus next
                 (<[O := - a1 * cell (grid s') O j]> (Np.zeros (2 - 1))))).
Proof.
  apply (implicit_time_steps lu_1x1 solve_1x1 sample_two_steps
           sample_two_steps_implicit [[1]] [[1]]
           (FDImplicitEu.coeffs sample_two_steps_implicit)).
  - apply shape_zeros2.
  - simpl. lia.
  - simpl. lia.
  - reflexivity.
  - split; [reflexivity | by repeat constructor].
  - split; [reflexivity | by repeat constructor].
  - apply solves_1x1. lra.
  - rewrite (one_by_one (FDImplicitEu.coeffs sample_two_steps_implicit))
      by (split; [reflexivity | by repeat constructor]).
    apply solves_1x1.
    destruct (implicit_setup_spec sample_two_steps) as (co & E & _ & Eb & _ & C);
      [simpl; lia | simpl; lia | simpl; lia |].
    assert (co = sample_two_steps_implicit) as ->
      by (unfold sample_two_steps_implicit; by rewrite E).
    destruct (C O O) as (a_i & b_i & c_i & _ & Hb & _ & -> & _); [simpl; lia | simpl; lia |].
    unfold tridiagonal. rewrite decide_True by done.
    apply get_Ok in Hb. rewrite Eb, list_lookup_fmap in Hb.
    apply fmap_Some in Hb as (x & Hx & ->).
    change (Some (INR 1) = Some x) in Hx. apply (inj Some) in Hx. subst x.
    simpl. lra.
Defined.

(** ** FDCnDo: the constructor *)

Lemma node_between lo hi m i :
  lo < hi -> (i <= m)%nat -> lo <= coef (Np.linspace lo hi (m + 1)) i <= hi.
Proof.
  intros Hlt Hi. pose proof (linspace_increasing lo hi m Hlt) as Hinc.
  pose proof (node_lookup lo hi m i Hi) as Hli.
  pose proof (node_lookup lo hi m O ltac:(lia)) as Hl0.
  pose proof (node_lookup lo hi m m ltac:(lia)) as Hlm.
  rewrite first_node in Hl0.
  assert (coef (Np.linspace lo hi (m + 1)) m <= hi) as Htop.
  { destruct m as [| m']; [rewrite first_node; lra |]. rewrite last_node by done. lra. }
  split.
  - destruct i as [| i']; [rewrite first_node; lra |].
    left. apply (Hinc O (S i') _ _ Hl0 Hli). lia.
  - destruct (decide (i = m)) as [-> | Hne]; [done |].
    left. eapply Rlt_le_trans; [| exact Htop].
    apply (Hinc i m _ _ Hli Hlm). lia.
Qed.

(** X10: the constructor of the barrier solver raises
    [ZeroDivisionError] when [M = 0]; otherwise it returns a solver whose
    [M+1] price nodes run from [Sbarrier] to [Smax] in steps of
    [dS = (Smax-Sbarrier)/M], none of them below the barrier when
    [Sbarrier < Smax], and whose [i_values] are these nodes measured in
    steps: [i_values[i]*dS] is the node, and [i_values[i] = i] when the
    barrier is [0]. *)
Theorem barrier_constructor
    (spot strike rate mat vol bar top : R) (m n : nat) (is_put : bool) :
  match m with
  | O => FDCnDo.init spot strike rate mat vol bar top m n is_put
         = Raise ZeroDivisionError
  | S _ =>
      exists d,
        FDCnDo.init spot strike rate mat vol bar top m n is_put = Ok d /\
        well_formed (FDCnDo.fd d) /\
        length (i_values (FDCnDo.fd d)) = (m + 1)%nat /\
        forall i, (i <= m)%nat ->
          coef (boundary_conds (FDCnDo.fd d)) i
          = bar + INR i * ((top - bar) / INR m) /\
          (bar < top ->
             bar <= coef (boundary_conds (FDCnDo.fd d)) i <= top /\
             coef (i_values (FDCnDo.fd d)) i * ((top - bar) / INR m)
             = coef (boundary_conds (FDCnDo.fd d)) i /\
             (bar = 0 -> coef (i_values (FDCnDo.fd d)) i = INR i))
  end.
Proof.
  destruct m as [| m']; [reflexivity |].
  set (m := S m'). eexists. split; [reflexivity |].
  cbn [FDCnDo.fd i_values boundary_conds].
  split; [| split].
  - split; [apply shape_zeros2 |]. split; [done |]. apply length_linspace.
  - by rewrite length_fmap, length_linspace.
  - intros i Hi.
    assert (coef (Np.linspace bar top (m + 1)) i = bar + INR i * ((top - bar) / INR m))
      as Hnode.
    { rewrite coef_linspace by lia. replace (m + 1 - 1)%nat with m by lia. done. }
    split; [exact Hnode |]. intros Hlt.
    assert (0 < INR m) as Hm by (apply lt_0_INR; lia).
    assert (0 < (top - bar) / INR m) as Hstep by (apply Rdiv_lt_0_compat; lra).
    split; [by apply node_between |].
    rewrite coef_fmap by (rewrite length_linspace; lia).
    split.
    + field. split; lra.
    + intros ->. rewrite Hnode. field. split; lra.
Qed.

(** ** FDCnAm: grids too small for the relaxation pass *)

Lemma get_cases {A} (l : list A) i :
  (exists x, Np.get l i = Ok x) \/ Np.get l i = Raise IndexError.
Proof. unfold Np.get. destruct (l !! i); eauto. Qed.

Lemma start_boundary_short s co bc rhs old :
  (length old <= 1)%nat ->
  FDCnAm.calculate_payoff_start_boundary s co bc rhs old = Raise IndexError.
Proof.
  intros Hold. unfold FDCnAm.calculate_payoff_start_boundary.
  assert (Np.get old 1 = Raise IndexError) as Hlast by (by apply get_Raise).
  destruct (get_cases old 0) as [[? ->] | ->]; [| done]. cbn [rbind].
  destruct (get_cases (FDCnEu.beta co) 1) as [[? ->] | ->]; [| done]. cbn [rbind].
  destruct (get_cases rhs 0) as [[? ->] | ->]; [| done]. cbn [rbind].
  destruct (get_cases (FDCnEu.gamma co) 1) as [[? ->] | ->]; [| done]. cbn [rbind].
  by rewrite Hlast.
Qed.

Lemma enter_step_without_entries co bc cr j :
  FDCnAm.aux cr = [] -> FDCnAm.enter_step co bc cr j = Raise IndexError.
Proof.
  intros Haux. unfold FDCnAm.enter_step.
  destruct (get_cases (FDCnEu.alpha co) 1) as [[? ->] | ->]; [| done]. cbn [rbind].
  destruct (get_cases (FDCnAm.boundary_values bc) j) as [[? ->] | ->]; [| done].
  cbn [rbind].
  destruct (get_cases (FDCnAm.boundary_values bc) (j + 1)) as [[? ->] | ->]; [| done].
  cbn [rbind]. by rewrite Haux.
Qed.

Lemma american_boundary_Ok (s : FDCnAm.t) :
  N (FDCnAm.fd s) <> O -> j_values (FDCnAm.fd s) = Np.irange (N (FDCnAm.fd s) + 1) ->
  length (boundary_conds (FDCnAm.fd s)) = (M (FDCnAm.fd s) + 1)%nat ->
  exists bc,
    FDCnAm.setup_boundary_conditions s = Ok bc /\
    length (FDCnAm.payoffs bc) = (M (FDCnAm.fd s) - 1)%nat /\
    length (FDCnAm.boundary_values bc) = (N (FDCnAm.fd s) + 1)%nat.
Proof.
  intros HN Hj Hb. unfold FDCnAm.setup_boundary_conditions. rewrite dt_Ok by done.
  cbn [rbind]. eexists. split; [reflexivity |]. cbn [FDCnAm.payoffs FDCnAm.boundary_values].
  split.
  - destruct (is_call _); unfold Np.maximum0; rewrite !length_fmap, length_slice; lia.
  - unfold FDExplicitEu.discounted. rewrite Hj. unfold Np.irange.
    by rewrite length_fmap, length_seq.
Qed.

Lemma enter_step_total (s : FDCnAm.t) co bc cr j :
  (2 <= M (FDCnAm.fd s))%nat ->
  (2 <= length (FDCnEu.alpha co))%nat ->
  shape (FDCnEu.M2 co) (M (FDCnAm.fd s) - 1) (M (FDCnAm.fd s) - 1) ->
  length (FDCnAm.boundary_values bc) = (N (FDCnAm.fd s) + 1)%nat ->
  length (FDCnAm.aux cr) = (M (FDCnAm.fd s) - 1)%nat ->
  length (FDCnAm.c_past_values cr) = (M (FDCnAm.fd s) - 1)%nat ->
  (j < N (FDCnAm.fd s))%nat ->
  exists prod,
    Np.dot (FDCnEu.M2 co) (FDCnAm.c_past_values cr) = Ok prod /\
    length prod = (M (FDCnAm.fd s) - 1)%nat /\
    let aux' := <[O := coef (FDCnEu.alpha co) 1
                       * (coef (FDCnAm.boundary_values bc) j
                          + coef (FDCnAm.boundary_values bc) (j + 1))]>
                  (FDCnAm.aux cr) in
    FDCnAm.enter_step co bc cr j
    = Ok (aux', {| FDCnAm.rhs := zip_with Rplus prod aux';
                   FDCnAm.old_values := FDCnAm.c_past_values cr;
                   FDCnAm.new_values := FDCnAm.c_new_values cr;
                   FDCnAm.error := FDCnAm.float_max;
                   FDCnAm.past_values := FDCnAm.c_past_values cr |}).
Proof.
  intros HM La HM2 Lbv Laux Lpast Hj.
  destruct (dot_Ok _ (FDCnAm.c_past_values cr) _ HM2 Lpast ltac:(lia)) as (p & Ep & Lp).
  exists p. split; [done |]. split; [done |]. intros aux'.
  unfold FDCnAm.enter_step. rewrite !get_coef by lia. cbn [rbind].
  rewrite set_in_range by lia. cbn [rbind]. rewrite Ep. cbn [rbind].
  fold aux'. rewrite vec_op_same by (subst aux'; rewrite length_insert; lia).
  done.
Qed.

(** X11: the American solver needs at least three price steps.  With
    [N >= 1] and a tolerance below [sys.float_info.max], [price] on a fresh
    solver with [M = 1] or [M = 2] raises [IndexError]: with [M = 1] the
    array [aux] has no entry [0], with [M = 2] the first pass reads
    [old_values[1]] of a one-entry array. *)
Theorem american_needs_three_price_steps
    (spot strike rate mat vol top : R) (m n : nat) (w tau : R) (is_put : bool)
    (fuel : nat) :
  m = 1%nat \/ m = 2%nat -> n <> O -> tau < FDCnAm.float_max ->
  FDCnAm.price (S fuel) (FDCnAm.init spot strike rate mat vol top m n w tau is_put)
  = Some (Raise IndexError).
Proof.
  intros Hm Hn Htau.
  set (s := FDCnAm.init spot strike rate mat vol top m n w tau is_put).
  destruct (american_boundary_Ok s) as (bc & Ebc & Lp & Lbv).
  { done. }
  { done. }
  { cbn. apply length_linspace. }
  unfold FDCnAm.price. rewrite Ebc.
  destruct n as [| n']; [done |].
  destruct Hm as [-> | ->].
  - assert (exists co, FDCnEu.setup_coefficients (FDCnAm.fd s) = Ok co) as [co ->].
    { unfold FDCnEu.setup_coefficients. rewrite dt_Ok by done. cbn [rbind].
      eexists. reflexivity. }
    unfold FDCnAm.traverse_grid. rewrite decide_False by (cbn; lia).
    change (N (FDCnAm.fd s)) with (S n').
    rewrite seq_S, rev_app_distr. cbn [rev app Nat.add FDCnAm.time_loop].
    unfold FDCnAm.time_step. rewrite enter_step_without_entries by done. done.
  - destruct (cn_setup_coefficients_spec (FDCnAm.fd s))
      as (co & -> & La & _ & _ & _ & HM2 & _).
    { done. }
    { cbn. lia. }
    { change (i_values (FDCnAm.fd s)) with (Np.arange (2 + 1)).
      rewrite length_arange. cbn. lia. }
    change (i_values (FDCnAm.fd s)) with (Np.arange (2 + 1)) in La.
    rewrite length_arange in La.
    unfold FDCnAm.traverse_grid. rewrite decide_False by (cbn; lia).
    change (N (FDCnAm.fd s)) with (S n').
    rewrite seq_S, rev_app_distr. cbn [rev app Nat.add FDCnAm.time_loop].
    unfold FDCnAm.time_step.
    destruct (enter_step_total s co bc
                {| FDCnAm.aux := Np.zeros (M (FDCnAm.fd s) - 1);
                   FDCnAm.c_new_values := Np.zeros (M (FDCnAm.fd s) - 1);
                   FDCnAm.c_past_values := FDCnAm.payoffs bc |} n')
      as (prod & _ & Lprod & ->); try done.
    { rewrite La. lia. }
    { cbn. lia. }
    cbn [FDCnAm.while_loop FDCnAm.error FDCnAm.tol s FDCnAm.init
         FDCnAm.c_past_values FDCnAm.c_new_values FDCnAm.aux].
    destruct (Rlt_dec tau FDCnAm.float_max); [| lra].
    unfold FDCnAm.sweep. cbn [FDCnAm.rhs FDCnAm.old_values].
    rewrite start_boundary_short; [done |]. rewrite Lp. cbn. lia.
Qed.

Lemma american_needs_three_price_steps_witness :
  FDCnAm.price (S 5) (FDCnAm.init 50 50 0.1 (5 / 12) 0.4 100 2 3 1.2 0.001 true)
  = Some (Raise IndexError).
Proof.
  apply (american_needs_three_price_steps 50 50 0.1 (5 / 12) 0.4 100 2 3 1.2 0.001 true 5).
  - right. reflexivity.
  - lia.
  - pose proof float_max_pos.
    assert (1 <= FDCnAm.float_max).
    { unfold FDCnAm.float_max.
      assert (/ 2 ^ 52 <= 1).
      { rewrite <- Rinv_1. apply Rinv_le_contravar; [lra |]. apply pow_R1_Rle. lra. }
      assert (1 <= 2 ^ 1023) by (apply pow_R1_Rle; lra).
      nra. }
    lra.
Defined.

(** With [M = 0] the American solver stops at [np.zeros(M-1)]. *)
Lemma american_without_price_steps
    (spot strike rate mat vol top : R) (n : nat) (w tau : R) (is_put : bool)
    (fuel : nat) :
  n <> O ->
  FDCnAm.price fuel (FDCnAm.init spot strike rate mat vol top 0 n w tau is_put)
  = Some (Raise ValueError).
Proof.
  intros Hn.
  set (s := FDCnAm.init spot strike rate mat vol top 0 n w tau is_put).
  destruct (american_boundary_Ok s) as (bc & Ebc & _).
  { done. }
  { done. }
  { reflexivity. }
  unfold FDCnAm.price. rewrite Ebc.
  assert (exists co, FDCnEu.setup_coefficients (FDCnAm.fd s) = Ok co) as [co ->].
  { unfold FDCnEu.setup_coefficients. rewrite dt_Ok by done. cbn [rbind].
    eexists. reflexivity. }
  reflexivity.
Qed.

(** ** interf.py: the methods offered by the radio button *)

(** X12: of the five options of the radio button, the second (index [1],
    written without a space) is the only one that matches no branch of
    [calculate_option_price]: for every input the call then ends in
    [UnboundLocalError] at [option.price()].  No option of the radio button
    builds an [FDImplicitEu] solver.  The last option (index [4]) builds the
    American solver with [omega = 1], [tol = 0] and [is_put = False],
    whatever the check box and the barrier field hold. *)
Theorem radio_button_options
    (lu : list (list R) -> result (list (list R) * list (list R) * list (list R)))
    (solve : list (list R) -> list R -> result (list R))
    (fuel : nat) (i : Interf.inputs) (k : nat) (method : String.string) :
  Interf.methods !! k = Some method ->
  (Interf.select method i = None <-> k = 1%nat) /\
  (forall s, Interf.select method i <> Some (Ok (Interf.Implicit s))) /\
  (k = 1%nat ->
     Interf.calculate_option_price lu solve fuel method i = Interf.UnboundLocalError) /\
  (k = 4%nat ->
     Interf.select method i
     = Some (Ok (Interf.American
                   (FDCnAm.init (Interf.in_S0 i) (Interf.in_K i) (Interf.in_r i)
                      (Interf.in_T i) (Interf.in_sigma i) (Interf.in_Smax i)
                      (Interf.in_M i) (Interf.in_N i) 1 0 false))) /\
     forall put bar,
       Interf.calculate_option_price lu solve fuel method i
       = Interf.calculate_option_price lu solve fuel method
           (Interf.mkInputs (Interf.in_S0 i) (Interf.in_K i) (Interf.in_r i)
              (Interf.in_T i) (Interf.in_sigma i) (Interf.in_Smax i)
              (Interf.in_M i) (Interf.in_N i) put bar)).
Proof.
  intros Hk. unfold Interf.methods in Hk.
  destruct k as [| [| [| [| [| k]]]]]; cbn in Hk; try discriminate;
    injection Hk as <-.
  - split; [split; discriminate |]. split; [discriminate |].
    split; discriminate.
  - split; [split; reflexivity |]. split; [discriminate |].
    split; [reflexivity | discriminate].
  - split; [split; discriminate |]. split; [discriminate |].
    split; discriminate.
  - match goal with
    | |- context [Interf.select ?m i] =>
        assert (forall o, Interf.select m i = o ->
                  o <> None /\ forall s, o <> Some (Ok (Interf.Implicit s))) as Hsel
    end.
    { intros o <-. unfold Interf.select. simpl String.eqb. cbv iota.
      destruct (FDCnDo.init _ _ _ _ _ _ _ _ _ _); split; try intros ?; discriminate. }
    destruct (Hsel _ eq_refl) as [Hnone Himpl].
    split; [split; [intros H; by destruct Hnone | discriminate] |].
    split; [exact Himpl |]. split; discriminate.
  - split; [split; discriminate |]. split; [discriminate |].
    split; [discriminate |]. intros _. split; reflexivity.
Qed.

Lemma radio_button_options_witness :
  let i := Interf.mkInputs 50 50 0.1 (5 / 12) 0.4 100 100 1000 true 40 in
  let method := default String.EmptyString (Interf.methods !! 1%nat) in
  Interf.methods !! 1%nat = Some method /\
  Interf.calculate_option_price (fun _ => Raise LinAlgError) (fun _ _ => Raise LinAlgError)
    O method i = Interf.UnboundLocalError.
Proof.
  intros i method. split; [reflexivity |].
  apply (radio_button_options (fun _ => Raise LinAlgError) (fun _ _ => Raise LinAlgError)
           O i 1 method); reflexivity.
Defined.

(** ** FDCnAm: the values behind the price *)

Lemma while_loop_result s co bc fuel : forall st res,
  am_shaped s co bc -> psor_inv s bc st ->
  FDCnAm.while_loop s co bc fuel st = Some res ->
  exists st',
    res = Ok st' /\ psor_inv s bc st' /\
    (FDCnAm.new_values st = FDCnAm.past_values st \/ FDCnAm.tol s < FDCnAm.error st ->
     FDCnAm.new_values st' = FDCnAm.past_values st').
Proof.
  induction fuel as [| fuel IH]; intros st res Hsh Hinv Hrun; cbn in Hrun;
    destruct (Rlt_dec _ _) as [Hlt | Hge]; try discriminate.
  - injection Hrun as <-. exists st. split; [done |]. split; [done |].
    intros [H | H]; [done | lra].
  - destruct (sweep_spec s co bc st Hsh (proj1 Hinv))
      as (st1 & E1 & _ & _ & Hpast & _).
    destruct (sweep_inv s co bc st Hsh (proj1 Hinv)) as (st2 & E2 & Hinv2 & _).
    rewrite E1 in E2. apply Ok_inj in E2. subst st2.
    rewrite E1 in Hrun.
    destruct (IH st1 res Hsh Hinv2 Hrun) as (st' & -> & Hinv' & Heq).
    exists st'. split; [done |]. split; [done |]. intros _. apply Heq. by left.
  - injection Hrun as <-. exists st. split; [done |]. split; [done |].
    intros [H | H]; [done | lra].
Qed.

Lemma time_step_result s co bc fuel cr j res :
  am_shaped s co bc -> carried_inv s bc cr -> (j < N (FDCnAm.fd s))%nat ->
  FDCnAm.time_step s co bc fuel cr j = Some res ->
  exists cr',
    res = Ok cr' /\ carried_inv s bc cr' /\
    (FDCnAm.tol s < FDCnAm.float_max ->
     FDCnAm.c_new_values cr' = FDCnAm.c_past_values cr').
Proof.
  intros Hsh Hcr Hj Hrun. unfold FDCnAm.time_step in Hrun.
  destruct (enter_step_spec s co bc cr j Hsh Hcr Hj)
    as (aux' & st & E & Laux & Hinv & Herr & _ & _).
  rewrite E in Hrun.
  destruct (FDCnAm.while_loop s co bc fuel st) as [r1 |] eqn:Eloop; [| discriminate].
  destruct (while_loop_result s co bc fuel st r1 Hsh Hinv Eloop)
    as (st' & -> & Hinv' & Heq).
  injection Hrun as <-. eexists. split; [reflexivity |].
  destruct Hinv' as ((_ & _ & Lnew) & Lpast & Hdom).
  split.
  - unfold carried_inv. cbn. done.
  - intros Htol. cbn. apply Heq. right. by rewrite Herr.
Qed.

Lemma time_loop_result s co bc fuel js : forall cr res,
  am_shaped s co bc -> carried_inv s bc cr ->
  Forall (fun j => j < N (FDCnAm.fd s))%nat js ->
  FDCnAm.time_loop s co bc fuel js cr = Some res ->
  exists cr',
    res = Ok cr' /\ carried_inv s bc cr' /\
    (FDCnAm.c_new_values cr = FDCnAm.c_past_values cr \/ js <> [] ->
     FDCnAm.tol s < FDCnAm.float_max ->
     FDCnAm.c_new_values cr' = FDCnAm.c_past_values cr').
Proof.
  induction js as [| j js IH]; intros cr res Hsh Hcr Hjs Hrun; cbn in Hrun.
  - injection Hrun as <-. exists cr. split; [done |]. split; [done |].
    intros [H | H] _; done.
  - apply Forall_cons in Hjs as [Hj Hjs].
    destruct (FDCnAm.time_step s co bc fuel cr j) as [r1 |] eqn:Estep; [| discriminate].
    destruct (time_step_result s co bc fuel cr j r1 Hsh Hcr Hj Estep)
      as (cr1 & -> & Hcr1 & Heq1).
    destruct (IH cr1 res Hsh Hcr1 Hjs Hrun) as (cr' & -> & Hcr' & Heq).
    exists cr'. split; [done |]. split; [done |].
    intros _ Htol. apply Heq; [| done]. left. by apply Heq1.
Qed.

Lemma american_values spot strike rate mat vol top m n w tau is_put :
  (3 <= m)%nat -> n <> O ->
  let s := FDCnAm.init spot strike rate mat vol top m n w tau is_put in
  exists bc co,
    FDCnAm.setup_boundary_conditions s = Ok bc /\
    FDCnEu.setup_coefficients (FDCnAm.fd s) = Ok co /\
    am_shaped s co bc /\ carried_inv s bc (am_start s bc) /\
    coef (FDCnAm.boundary_values bc) 0 = strike * discount (FDCnAm.fd s) 0 /\
    (forall k, (k < m - 1)%nat ->
       coef (FDCnAm.payoffs bc) k
       = intrinsic (FDCnAm.fd s) (coef (Np.linspace 0 top (m + 1)) (k + 1))) /\
    forall fuel res,
      FDCnAm.traverse_grid s co bc fuel = Some res ->
      exists v,
        res = Ok ([coef (FDCnAm.boundary_values bc) 0] ++ v ++ [0]) /\
        length v = (m - 1)%nat /\
        (tau < FDCnAm.float_max -> dominates bc v).
Proof.
  intros Hm Hn s.
  destruct (american_setup spot strike rate mat vol top m n w tau is_put Hm Hn)
    as (bc & co & Ebc & Eco & Hsh & Hcr).
  fold s in Ebc, Eco, Hsh, Hcr.
  exists bc, co. do 4 (split; [done |]).
  pose proof Ebc as Ebc'. unfold FDCnAm.setup_boundary_conditions in Ebc'.
  rewrite dt_Ok in Ebc' by done. cbn [rbind] in Ebc'. apply Ok_inj in Ebc'.
  split; [| split].
  - rewrite <- Ebc'. cbn [FDCnAm.boundary_values].
    unfold FDExplicitEu.discounted.
    unfold coef. rewrite list_lookup_fmap.
    replace (j_values (FDCnAm.fd s) !! O) with (Some O); [reflexivity |].
    symmetry. change (j_values (FDCnAm.fd s)) with (seq 0 (n + 1)).
    apply lookup_seq_lt. lia.
  - intros k Hk. rewrite <- Ebc'. cbn [FDCnAm.payoffs]. unfold intrinsic, Np.maximum0.
    assert (Hlook : Np.slice 1 m (Np.linspace 0 top (m + 1)) !! k
                    = Some (coef (Np.linspace 0 top (m + 1)) (k + 1))).
    { rewrite lookup_slice, decide_True by lia.
      replace (1 + k)%nat with (k + 1)%nat by lia. apply node_lookup. lia. }
    change (boundary_conds (FDCnAm.fd s)) with (Np.linspace 0 top (m + 1)).
    change (M (FDCnAm.fd s)) with m.
    destruct (is_call (FDCnAm.fd s)).
    + erewrite coef_fmap_lookup;
        [reflexivity | rewrite list_lookup_fmap, Hlook; reflexivity].
    + erewrite coef_fmap_lookup;
        [reflexivity | rewrite list_lookup_fmap, Hlook; reflexivity].
  - intros fuel res Hrun. unfold FDCnAm.traverse_grid in Hrun.
    rewrite decide_False in Hrun by (cbn; lia).
    destruct (FDCnAm.time_loop _ _ _ _ _ _) as [r1 |] eqn:Eloop; [| discriminate].
    destruct (time_loop_result s co bc fuel _ _ r1 Hsh Hcr
                ltac:(apply Forall_forall; intros j Hj; by apply time_indices)
                Eloop) as (cr' & -> & Hcr' & Heq).
    injection Hrun as <-.
    destruct Hsh as (_ & _ & _ & _ & _ & _ & Lbv).
    rewrite get_coef by lia. cbn [rbind].
    exists (FDCnAm.c_new_values cr'). split; [done |].
    destruct Hcr' as (_ & Lnew & _ & Hdom). split; [exact Lnew |].
    intros Htol. rewrite Heq; [done | | done].
    right. change (N (FDCnAm.fd s)) with n.
    destruct n as [| n']; [done |]. rewrite seq_S, rev_app_distr. discriminate.
Qed.

(** ** FDCnAm: zero rate and zero volatility *)

Lemma zero_rate_coefficients (s : FiniteDifferences) co :
  r s = 0 -> sigma s = 0 -> FDCnEu.setup_coefficients s = Ok co ->
  forall i,
    coef (FDCnEu.alpha co) i = 0 /\ coef (FDCnEu.beta co) i = 0 /\
    coef (FDCnEu.gamma co) i = 0.
Proof.
  intros Hr Hs Eco i.
  destruct (cn_coefficient_arrays s co Eco) as (_ & -> & -> & ->).
  destruct (i_values s !! i) as [x |] eqn:Ex.
  - rewrite !(coef_fmap_lookup _ _ _ _ Ex). rewrite Hr, Hs.
    repeat split; lra.
  - unfold coef. rewrite !list_lookup_fmap, Ex. done.
Qed.

Lemma sum_zero_row row : forall v,
  (forall l, (l < length row)%nat -> coef row l = 0) ->
  Np.sum (zip_with Rmult row v) = 0.
Proof.
  induction row as [| x row IH]; intros v Hrow; [done |].
  destruct v as [| y v]; [done |]. cbn [zip_with Np.sum foldr].
  fold (Np.sum (zip_with Rmult row v)). rewrite IH.
  - pose proof (Hrow O ltac:(cbn; lia)) as H0. unfold coef in H0. cbn in H0.
    rewrite H0. lra.
  - intros l Hl. apply (Hrow (S l)). cbn. lia.
Qed.

Lemma sum_unit_row row : forall v k,
  length row = length v -> (k < length row)%nat ->
  (forall l, (l < length row)%nat -> coef row l = if decide (l = k) then 1 else 0) ->
  Np.sum (zip_with Rmult row v) = coef v k.
Proof.
  induction row as [| x row IH]; intros v k Hlen Hk Hrow; [cbn in Hk; lia |].
  destruct v as [| y v]; [discriminate |]. cbn [zip_with Np.sum foldr].
  fold (Np.sum (zip_with Rmult row v)).
  pose proof (Hrow O ltac:(cbn; lia)) as H0. unfold coef in H0. cbn in H0.
  destruct k as [| k].
  - rewrite decide_True in H0 by done. rewrite H0, sum_zero_row.
    + unfold coef. cbn. lra.
    + intros l Hl. specialize (Hrow (S l) ltac:(cbn; lia)).
      rewrite decide_False in Hrow by done. exact Hrow.
  - rewrite decide_False in H0 by done. rewrite H0, (IH v k).
    + rewrite Rmult_0_l, Rplus_0_l. reflexivity.
    + cbn in Hlen. lia.
    + cbn in Hk. lia.
    + intros l Hl. specialize (Hrow (S l) ltac:(cbn; lia)).
      change (coef (x :: row) (S l)) with (coef row l) in Hrow. rewrite Hrow.
      destruct (decide (l = k)).
      * by rewrite decide_True by lia.
      * by rewrite decide_False by lia.
Qed.

Lemma dot_identity A v n :
  shape A n n -> length v = n -> n <> O ->
  (forall k l, (k < n)%nat -> (l < n)%nat ->
     cell A k l = if decide (l = k) then 1 else 0) ->
  Np.dot A v = Ok v.
Proof.
  intros [Hl Hall] Hv Hn Hcell. unfold Np.dot. rewrite decide_True.
  - f_equal. apply list_eq_coef.
    + rewrite length_fmap. lia.
    + intros k Hk. rewrite length_fmap in Hk.
      destruct (A !! k) as [row |] eqn:Erow;
        [| apply lookup_ge_None in Erow; lia].
      unfold coef at 1. rewrite list_lookup_fmap, Erow. cbn [fmap option_fmap option_map default].
      pose proof (proj1 (Forall_lookup _ _) Hall k row Erow) as Lrow. cbn in Lrow.
      apply sum_unit_row; [lia | lia |].
      intros l Hl'. specialize (Hcell k l ltac:(lia) ltac:(lia)).
      unfold cell in Hcell. rewrite Erow in Hcell. exact Hcell.
  - split.
    + eapply Forall_impl; [exact Hall |]. intros row Hrow. cbn in *. lia.
    + intros ->. cbn in Hl. lia.
Qed.

Lemma norm_of_no_change v : Np.norm (zip_with Rminus v v) = 0.
Proof.
  unfold Np.norm.
  assert (Np.sum ((fun x => x * x) <$> zip_with Rminus v v) = 0) as ->.
  { induction v as [| x v IH]; [done |]. cbn [zip_with fmap list_fmap Np.sum foldr].
    fold (Np.sum ((fun x => x * x) <$> zip_with Rminus v v)). rewrite IH. lra. }
  apply sqrt_0.
Qed.

Lemma coef_zip_with f (u v : list R) k :
  (k < length u)%nat -> (k < length v)%nat ->
  coef (zip_with f u v) k = f (coef u k) (coef v k).
Proof.
  intros Hu Hv. unfold coef. rewrite lookup_zip_with.
  destruct (u !! k) eqn:Eu; [| apply lookup_ge_None in Eu; lia].
  destruct (v !! k) eqn:Ev; [| apply lookup_ge_None in Ev; lia].
  done.
Qed.

Lemma sweep_at_the_payoffs s co bc st :
  am_shaped s co bc -> psor_shaped s st ->
  (forall i, coef (FDCnEu.alpha co) i = 0 /\ coef (FDCnEu.beta co) i = 0 /\
             coef (FDCnEu.gamma co) i = 0) ->
  FDCnAm.old_values st = FDCnAm.payoffs bc ->
  (forall k, (k < M (FDCnAm.fd s) - 1)%nat ->
     coef (FDCnAm.rhs st) k = coef (FDCnAm.payoffs bc) k) ->
  exists st',
    FDCnAm.sweep s co bc st = Ok st' /\
    FDCnAm.new_values st' = FDCnAm.payoffs bc /\
    FDCnAm.past_values st' = FDCnAm.payoffs bc /\
    FDCnAm.error st' = 0.
Proof.
  intros Hsh Hst Hzero Hold Hrhs.
  destruct (sweep_spec s co bc st Hsh Hst)
    as (st' & E & (_ & _ & Lnew) & _ & Hpast & _ & Herr & Hnew).
  destruct Hsh as (HM & _ & _ & _ & _ & Lp & _).
  assert (Heq : FDCnAm.new_values st' = FDCnAm.payoffs bc).
  { apply list_eq_coef; [lia |]. intros k Hk. rewrite Lnew in Hk.
    rewrite (Hnew k Hk). apply Rmax_left.
    assert (forall x, relaxed s co k (FDCnAm.rhs st) (FDCnAm.old_values st) x
                      = coef (FDCnAm.payoffs bc) k) as ->; [| apply Rle_refl].
    intros x. unfold relaxed, start_update, end_update, interior_update.
    destruct (Hzero 1%nat) as (_ & Hb1 & Hg1).
    destruct (Hzero (k + 1)%nat) as (Ha & Hb & Hg).
    repeat case_decide; subst;
      rewrite ?Hb1, ?Hg1, ?Ha, ?Hb, ?Hg, ?Hold, ?(Hrhs _ Hk);
      field; lra. }
  exists st'. split; [done |]. split; [done |]. split; [by rewrite Hpast |].
  rewrite Herr, Heq, Hold. apply norm_of_no_change.
Qed.

Lemma zero_rate_time_step s co bc fuel cr j :
  am_shaped s co bc ->
  (forall i, coef (FDCnEu.alpha co) i = 0 /\ coef (FDCnEu.beta co) i = 0 /\
             coef (FDCnEu.gamma co) i = 0) ->
  (forall v, length v = (M (FDCnAm.fd s) - 1)%nat -> Np.dot (FDCnEu.M2 co) v = Ok v) ->
  0 <= FDCnAm.tol s < FDCnAm.float_max ->
  (j < N (FDCnAm.fd s))%nat ->
  FDCnAm.c_past_values cr = FDCnAm.payoffs bc ->
  length (FDCnAm.c_new_values cr) = (M (FDCnAm.fd s) - 1)%nat ->
  length (FDCnAm.aux cr) = (M (FDCnAm.fd s) - 1)%nat ->
  (forall k, coef (FDCnAm.aux cr) k = 0) ->
  exists cr',
    FDCnAm.time_step s co bc (S fuel) cr j = Some (Ok cr') /\
    FDCnAm.c_past_values cr' = FDCnAm.payoffs bc /\
    FDCnAm.c_new_values cr' = FDCnAm.payoffs bc /\
    length (FDCnAm.aux cr') = (M (FDCnAm.fd s) - 1)%nat /\
    (forall k, coef (FDCnAm.aux cr') k = 0).
Proof.
  intros Hsh Hzero Hdot Htol Hj Hpast Lnew Laux Haux.
  pose proof Hsh as (HM & La & _ & _ & HM2 & Lp & Lbv).
  destruct (enter_step_total s co bc cr j) as (prod & Eprod & Lprod & Eenter);
    try done; try lia.
  { by rewrite Hpast. }
  rewrite Hdot in Eprod by (by rewrite Hpast). apply Ok_inj in Eprod. subst prod.
  cbv zeta in Eenter. rewrite (proj1 (Hzero 1%nat)), Rmult_0_l in Eenter.
  unfold FDCnAm.time_step. rewrite Eenter.
  set (aux' := <[O := 0]> (FDCnAm.aux cr)).
  assert (Haux' : forall k, coef aux' k = 0).
  { intros k. subst aux'. rewrite coef_insert. by case_decide. }
  set (st := {| FDCnAm.rhs := _ |}).
  destruct (sweep_at_the_payoffs s co bc st Hsh) as (st' & E & Hn & Hp & Herr).
  { unfold psor_shaped. subst st aux'. cbn.
    rewrite length_zip_with, length_insert. repeat split; lia. }
  { done. }
  { by subst st. }
  { intros k Hk. subst st. cbn [FDCnAm.rhs].
    rewrite coef_zip_with, Haux', Hpast by (subst aux'; rewrite ?length_insert; lia).
    lra. }
  rewrite while_loop_step by (subst st; cbn; lra).
  rewrite E, while_loop_exit by lra.
  eexists. split; [reflexivity |]. cbn.
  split; [done |]. split; [done |]. split; [| done].
  subst aux'. by rewrite length_insert.
Qed.

Lemma zero_rate_time_loop s co bc fuel js : forall cr,
  am_shaped s co bc ->
  (forall i, coef (FDCnEu.alpha co) i = 0 /\ coef (FDCnEu.beta co) i = 0 /\
             coef (FDCnEu.gamma co) i = 0) ->
  (forall v, length v = (M (FDCnAm.fd s) - 1)%nat -> Np.dot (FDCnEu.M2 co) v = Ok v) ->
  0 <= FDCnAm.tol s < FDCnAm.float_max ->
  Forall (fun j => j < N (FDCnAm.fd s))%nat js -> js <> [] ->
  FDCnAm.c_past_values cr = FDCnAm.payoffs bc ->
  length (FDCnAm.c_new_values cr) = (M (FDCnAm.fd s) - 1)%nat ->
  length (FDCnAm.aux cr) = (M (FDCnAm.fd s) - 1)%nat ->
  (forall k, coef (FDCnAm.aux cr) k = 0) ->
  exists cr',
    FDCnAm.time_loop s co bc (S fuel) js cr = Some (Ok cr') /\
    FDCnAm.c_new_values cr' = FDCnAm.payoffs bc.
Proof.
  induction js as [| j js IH]; intros cr Hsh Hzero Hdot Htol Hjs Hne Hpast Lnew Laux Haux;
    [done |].
  apply Forall_cons in Hjs as [Hj Hjs].
  destruct (zero_rate_time_step s co bc fuel cr j) as (cr1 & E1 & Hp1 & Hn1 & La1 & Ha1);
    try done.
  cbn [FDCnAm.time_loop]. rewrite E1.
  destruct js as [| j' js'].
  - exists cr1. done.
  - apply IH; try done.
    rewrite Hn1. by destruct Hsh as (_ & _ & _ & _ & _ & Lp & _).
Qed.

Lemma zero_rate_run spot strike mat top m n w tau is_put fuel :
  (3 <= m)%nat -> n <> O -> 0 <= tau < FDCnAm.float_max ->
  let s := FDCnAm.init spot strike 0 mat 0 top m n w tau is_put in
  FDCnAm.price (S fuel) s
  = Some (FDCnAm.interpolate s ([strike] ++ american_payoffs s ++ [0])).
Proof.
  intros Hm Hn Htau s.
  destruct (american_values spot strike 0 mat 0 top m n w tau is_put Hm Hn)
    as (bc & co & Ebc & Eco & Hsh & Hcr & Hb0 & _ & _).
  fold s in Ebc, Eco, Hsh, Hcr, Hb0.
  unfold american_payoffs, FDCnAm.price. rewrite Ebc, Eco.
  pose proof (zero_rate_coefficients (FDCnAm.fd s) co eq_refl eq_refl Eco) as Hzero.
  assert (Hdot : forall v, length v = (M (FDCnAm.fd s) - 1)%nat ->
                   Np.dot (FDCnEu.M2 co) v = Ok v).
  { intros v Lv.
    destruct (cn_setup_coefficients_spec (FDCnAm.fd s))
      as (co' & Eco' & _ & _ & _ & _ & HM2 & Hcells).
    { done. }
    { cbn. lia. }
    { change (i_values (FDCnAm.fd s)) with (Np.arange (m + 1)).
      rewrite length_arange. cbn. lia. }
    rewrite Eco in Eco'. apply Ok_inj in Eco'. subst co'.
    apply (dot_identity _ _ (M (FDCnAm.fd s) - 1)); [done | done | cbn; lia |].
    intros k l Hk Hl. rewrite (proj2 (Hcells k l Hk Hl)). unfold tridiagonal.
    destruct (Hzero (k + 1)%nat) as (-> & -> & ->).
    repeat case_decide; lra. }
  destruct (zero_rate_time_loop s co bc fuel (rev (seq 0 (N (FDCnAm.fd s))))
              (am_start s bc)) as (cr' & Eloop & Hnew); try done.
  { apply Forall_forall. intros j Hj. by apply time_indices. }
  { change (N (FDCnAm.fd s)) with n. destruct n as [| n']; [done |].
    rewrite seq_S, rev_app_distr. discriminate. }
  { unfold am_start, Np.zeros. cbn. by rewrite length_replicate. }
  { unfold am_start, Np.zeros. cbn. by rewrite length_replicate. }
  { intros k. apply coef_zeros. }
  unfold FDCnAm.traverse_grid. rewrite decide_False by (cbn; lia).
  fold (am_start s bc). rewrite Eloop.
  destruct Hsh as (_ & _ & _ & _ & _ & _ & Lbv).
  rewrite get_coef by lia. cbn [rbind]. rewrite Hnew, Hb0.
  unfold discount. change (r (FDCnAm.fd s)) with 0.
  replace (- 0 * (T (FDCnAm.fd s) / INR (N (FDCnAm.fd s)))
           * (INR (N (FDCnAm.fd s)) - INR 0)) with 0 by (cbn [INR]; lra).
  rewrite exp_0, Rmult_1_r. reflexivity.
Qed.

Lemma american_values_entries (b0 : R) (v : list R) m :
  length v = (m - 1)%nat -> (1 <= m)%nat ->
  length ([b0] ++ v ++ [0]) = (m + 1)%nat /\
  coef ([b0] ++ v ++ [0]) O = b0 /\
  coef ([b0] ++ v ++ [0]) m = 0 /\
  forall i, (1 <= i <= m - 1)%nat -> coef ([b0] ++ v ++ [0]) i = coef v (i - 1).
Proof.
  intros Lv Hm. split; [| split; [| split]].
  - cbn. rewrite length_app. cbn. lia.
  - reflexivity.
  - destruct m as [| m']; [lia |]. unfold coef. cbn [app].
    rewrite lookup_cons_ne_0 by lia. cbn [Nat.pred].
    rewrite lookup_app_r by lia.
    replace (m' - length v)%nat with O by lia. reflexivity.
  - intros i Hi. unfold coef. cbn [app].
    rewrite lookup_cons_ne_0 by lia.
    rewrite lookup_app_l by lia. by replace (Nat.pred i) with (i - 1)%nat by lia.
Qed.

Lemma bounded_above (l : list R) : exists hi, Forall (fun y => y <= hi) l.
Proof.
  induction l as [| x l [hi IH]].
  - exists 0. constructor.
  - exists (Rmax x hi). constructor; [apply Rmax_l |].
    eapply Forall_impl; [exact IH |]. cbn. intros y Hy.
    pose proof (Rmax_r x hi). lra.
Qed.

(** X13: whenever [price] of an American solver with [M >= 3], [N >= 1]
    and [Smax > 0] returns, it returns [K*exp(-r*dt*N)] for a spot at or
    below [0] and [0] for a spot at or above [Smax], for a call as for a
    put: the two ends of [values] do not depend on [is_put]. *)
Theorem american_price_at_the_ends
    (spot strike rate mat vol top : R) (m n : nat) (w tau : R) (is_put : bool)
    (fuel : nat) (res : result R) :
  (3 <= m)%nat -> n <> O -> 0 < top ->
  let s := FDCnAm.init spot strike rate mat vol top m n w tau is_put in
  FDCnAm.price fuel s = Some res ->
  (spot <= 0 -> res = Ok (strike * discount (FDCnAm.fd s) 0)) /\
  (top <= spot -> res = Ok 0).
Proof.
  intros Hm Hn Htop s Hrun.
  destruct (american_values spot strike rate mat vol top m n w tau is_put Hm Hn)
    as (bc & co & Ebc & Eco & _ & _ & Hb0 & _ & Hval).
  fold s in Ebc, Eco, Hb0, Hval.
  unfold FDCnAm.price in Hrun. rewrite Ebc, Eco in Hrun.
  destruct (FDCnAm.traverse_grid s co bc fuel) as [r1 |] eqn:Etr; [| discriminate].
  destruct (Hval fuel r1 Etr) as (v & -> & Lv & _).
  injection Hrun as <-. unfold FDCnAm.interpolate.
  change (S0 (FDCnAm.fd s)) with spot.
  change (boundary_conds (FDCnAm.fd s)) with (Np.linspace 0 top (m + 1)).
  destruct (american_values_entries (coef (FDCnAm.boundary_values bc) 0) v m Lv
              ltac:(lia)) as (Lval & H0 & Hlast & _).
  pose proof (linspace_increasing 0 top m Htop) as Hinc.
  destruct (interp_outside (Np.linspace 0 top (m + 1))
              ([coef (FDCnAm.boundary_values bc) 0] ++ v ++ [0]) spot m)
    as [Hright Hleft].
  { rewrite length_linspace. lia. }
  { rewrite Lval. lia. }
  { done. }
  rewrite first_node in Hleft. rewrite last_node in Hright by lia.
  split.
  - intros Hspot.
    transitivity (Ok (coef ([coef (FDCnAm.boundary_values bc) 0] ++ v ++ [0]) 0));
      [| by rewrite H0, Hb0].
    destruct (Rle_lt_or_eq_dec _ _ Hspot) as [Hlt | ->]; [by apply Hleft |].
    apply interp_at_node; [done | by rewrite length_linspace, Lval |].
    rewrite node_lookup by lia. by rewrite first_node.
  - intros Hspot.
    transitivity (Ok (coef ([coef (FDCnAm.boundary_values bc) 0] ++ v ++ [0]) m));
      [| by rewrite Hlast].
    destruct (Rle_lt_or_eq_dec _ _ Hspot) as [Hlt | <-]; [by apply Hright |].
    apply interp_at_node; [done | by rewrite length_linspace, Lval |].
    rewrite node_lookup by lia. by rewrite last_node by lia.
Qed.

Lemma american_price_at_the_ends_witness :
  let s := FDCnAm.init 120 50 0 (5 / 12) 0 100 3 1 1.2 0.001 false in
  (3 <= 3)%nat /\ 1%nat <> O /\ 0 < 100 /\
  FDCnAm.price 1 s = Some (FDCnAm.interpolate s ([50] ++ american_payoffs s ++ [0])) /\
  (100 <= 120 -> FDCnAm.interpolate s ([50] ++ american_payoffs s ++ [0]) = Ok 0).
Proof.
  intros s.
  assert (Hrun : FDCnAm.price 1 s
                 = Some (FDCnAm.interpolate s ([50] ++ american_payoffs s ++ [0]))).
  { apply (zero_rate_run 120 50 (5 / 12) 100 3 1 1.2 0.001 false 0); [lia | lia |].
    pose proof float_max_ge_1. lra. }
  split; [lia |]. split; [lia |]. split; [lra |]. split; [exact Hrun |].
  apply (american_price_at_the_ends 120 50 0 (5 / 12) 0 100 3 1 1.2 0.001 false 1
           (FDCnAm.interpolate s ([50] ++ american_payoffs s ++ [0]))
           ltac:(lia) ltac:(lia) ltac:(lra) Hrun).
Defined.

(** X14: whenever [price] of an American solver with [M >= 3], [N >= 1],
    [Smax > 0] and a tolerance below [sys.float_info.max] returns, it
    returns a number; the number is not negative when [K >= 0], and at an
    interior node of the price axis it is at least the exercise value
    [max(0, S0 - K)] of a call, [max(0, K - S0)] of a put. *)
Theorem american_price_dominates_exercise_value
    (spot strike rate mat vol top : R) (m n : nat) (w tau : R) (is_put : bool)
    (fuel : nat) (res : result R) :
  (3 <= m)%nat -> n <> O -> 0 < top -> tau < FDCnAm.float_max ->
  let s := FDCnAm.init spot strike rate mat vol top m n w tau is_put in
  FDCnAm.price fuel s = Some res ->
  exists p,
    res = Ok p /\
    (0 <= strike -> 0 <= p) /\
    forall i, (1 <= i <= m - 1)%nat -> spot = coef (Np.linspace 0 top (m + 1)) i ->
      intrinsic (FDCnAm.fd s) spot <= p.
Proof.
  intros Hm Hn Htop Htau s Hrun.
  destruct (american_values spot strike rate mat vol top m n w tau is_put Hm Hn)
    as (bc & co & Ebc & Eco & Hsh & _ & Hb0 & Hpay & Hval).
  fold s in Ebc, Eco, Hsh, Hb0, Hpay, Hval.
  unfold FDCnAm.price in Hrun. rewrite Ebc, Eco in Hrun.
  destruct (FDCnAm.traverse_grid s co bc fuel) as [r1 |] eqn:Etr; [| discriminate].
  destruct (Hval fuel r1 Etr) as (v & -> & Lv & Hdom).
  specialize (Hdom Htau).
  injection Hrun as <-. unfold FDCnAm.interpolate.
  change (S0 (FDCnAm.fd s)) with spot.
  change (boundary_conds (FDCnAm.fd s)) with (Np.linspace 0 top (m + 1)).
  set (b0 := coef (FDCnAm.boundary_values bc) 0) in *.
  destruct (american_values_entries b0 v m Lv ltac:(lia)) as (Lval & H0 & Hlast & Hmid).
  pose proof (linspace_increasing 0 top m Htop) as Hinc.
  destruct Hsh as (_ & _ & _ & _ & _ & Lp & _).
  change (M (FDCnAm.fd s)) with m in Lp.
  assert (Hfloor : forall k, (k < m - 1)%nat ->
            intrinsic (FDCnAm.fd s) (coef (Np.linspace 0 top (m + 1)) (k + 1))
            <= coef v k).
  { intros k Hk. rewrite <- Hpay by done. apply Hdom. lia. }
  destruct (interp_Ok spot (Np.linspace 0 top (m + 1)) ([b0] ++ v ++ [0])) as [p Ep].
  { intros H. apply (f_equal length) in H. rewrite length_linspace in H. cbn in H. lia. }
  { by rewrite length_linspace, Lval. }
  exists p. split; [done |]. split.
  - intros Hstrike.
    destruct (bounded_above ([b0] ++ v ++ [0])) as [hi Hhi].
    apply (interp_bounds 0 hi spot (Np.linspace 0 top (m + 1)) ([b0] ++ v ++ [0]));
      [done | | done].
    apply Forall_lookup. intros i y Hy.
    split; [| exact (proj1 (Forall_lookup _ _) Hhi i y Hy)].
    assert (Hi : (i < m + 1)%nat) by (rewrite <- Lval; by eapply lookup_lt_Some).
    assert (Ey : y = coef ([b0] ++ v ++ [0]) i) by (unfold coef; by rewrite Hy).
    rewrite Ey.
    destruct (decide (i = O)) as [-> | Hi0].
    + rewrite H0, Hb0.
      pose proof (discount_pos (FDCnAm.fd s) 0). nra.
    + destruct (decide (i = m)) as [-> | Him]; [rewrite Hlast; lra |].
      rewrite Hmid by lia.
      pose proof (Hfloor (i - 1)%nat ltac:(lia)) as Hf.
      unfold intrinsic in Hf.
      pose proof (Rmax_l 0 (if is_call (FDCnAm.fd s)
                            then coef (Np.linspace 0 top (m + 1)) (i - 1 + 1) - K (FDCnAm.fd s)
                            else K (FDCnAm.fd s) - coef (Np.linspace 0 top (m + 1)) (i - 1 + 1))).
      lra.
  - intros i Hi Hspot.
    rewrite (interp_at_node _ _ i) in Ep;
      [| done | by rewrite length_linspace, Lval
       | rewrite node_lookup by lia; by rewrite Hspot].
    apply Ok_inj in Ep. subst p. rewrite Hmid by lia.
    pose proof (Hfloor (i - 1)%nat ltac:(lia)) as Hf.
    replace (i - 1 + 1)%nat with i in Hf by lia. by rewrite Hspot.
Qed.

Lemma american_price_dominates_exercise_value_witness :
  let s := FDCnAm.init 50 45 0 (5 / 12) 0 100 4 2 1.2 0.001 false in
  (3 <= 4)%nat /\ 2%nat <> O /\ 0 < 100 /\ 0.001 < FDCnAm.float_max /\
  FDCnAm.price 1 s = Some (FDCnAm.interpolate s ([45] ++ american_payoffs s ++ [0])) /\
  exists p,
    FDCnAm.interpolate s ([45] ++ american_payoffs s ++ [0]) = Ok p /\
    (0 <= 45 -> 0 <= p) /\
    forall i, (1 <= i <= 4 - 1)%nat -> 50 = coef (Np.linspace 0 100 (4 + 1)) i ->
      intrinsic (FDCnAm.fd s) 50 <= p.
Proof.
  intros s.
  assert (Htau : 0.001 < FDCnAm.float_max) by (pose proof float_max_ge_1; lra).
  assert (Hrun : FDCnAm.price 1 s
                 = Some (FDCnAm.interpolate s ([45] ++ american_payoffs s ++ [0]))).
  { apply (zero_rate_run 50 45 (5 / 12) 100 4 2 1.2 0.001 false 0); [lia | lia | lra]. }
  split; [lia |]. split; [lia |]. split; [lra |]. split; [exact Htau |].
  split; [exact Hrun |].
  apply (american_price_dominates_exercise_value 50 45 0 (5 / 12) 0 100 4 2 1.2 0.001
           false 1 (FDCnAm.interpolate s ([45] ++ american_payoffs s ++ [0]))
           ltac:(lia) ltac:(lia) ltac:(lra) Htau Hrun).
Defined.

(** X15: with [r = 0], [sigma = 0] and [0 <= tol < sys.float_info.max] the
    relaxation loop of the American solver stops after its first pass in
    every time step, [price] returns, and at an interior node of the price
    axis it returns the exercise value. *)
Theorem american_price_without_rate_and_volatility
    (spot strike mat top : R) (m n : nat) (w tau : R) (is_put : bool) (fuel : nat) :
  (3 <= m)%nat -> n <> O -> 0 < top -> 0 <= tau < FDCnAm.float_max ->
  let s := FDCnAm.init spot strike 0 mat 0 top m n w tau is_put in
  FDCnAm.price (S fuel) s
  = Some (FDCnAm.interpolate s ([strike] ++ american_payoffs s ++ [0])) /\
  forall i, (1 <= i <= m - 1)%nat -> spot = coef (Np.linspace 0 top (m + 1)) i ->
    FDCnAm.price (S fuel) s = Some (Ok (intrinsic (FDCnAm.fd s) spot)).
Proof.
  intros Hm Hn Htop Htau s.
  pose proof (zero_rate_run spot strike mat top m n w tau is_put fuel Hm Hn Htau) as Hrun.
  fold s in Hrun. split; [exact Hrun |].
  intros i Hi Hspot. rewrite Hrun. f_equal.
  destruct (american_values spot strike 0 mat 0 top m n w tau is_put Hm Hn)
    as (bc & co & Ebc & _ & Hsh & _ & _ & Hpay & _).
  fold s in Ebc, Hsh, Hpay.
  unfold american_payoffs. rewrite Ebc.
  destruct Hsh as (_ & _ & _ & _ & _ & Lp & _).
  change (M (FDCnAm.fd s)) with m in Lp.
  destruct (american_values_entries strike (FDCnAm.payoffs bc) m Lp ltac:(lia))
    as (Lval & _ & _ & Hmid).
  unfold FDCnAm.interpolate.
  change (S0 (FDCnAm.fd s)) with spot.
  change (boundary_conds (FDCnAm.fd s)) with (Np.linspace 0 top (m + 1)).
  rewrite (interp_at_node _ _ i);
    [| by apply linspace_increasing | by rewrite length_linspace, Lval
     | rewrite node_lookup by lia; by rewrite Hspot].
  rewrite Hmid by lia. rewrite Hpay by lia.
  replace (i - 1 + 1)%nat with i by lia. by rewrite Hspot.
Qed.

Lemma american_price_without_rate_and_volatility_witness :
  let s := FDCnAm.init 50 45 0 (5 / 12) 0 100 4 2 1.2 0.001 false in
  (3 <= 4)%nat /\ 2%nat <> O /\ 0 < 100 /\ 0 <= 0.001 < FDCnAm.float_max /\
  FDCnAm.price 1 s = Some (FDCnAm.interpolate s ([45] ++ american_payoffs s ++ [0])).
Proof.
  intros s.
  assert (Htau : 0 <= 0.001 < FDCnAm.float_max) by (pose proof float_max_ge_1; lra).
  split; [lia |]. split; [lia |]. split; [lra |]. split; [exact Htau |].
  apply (american_price_without_rate_and_volatility 50 45 (5 / 12) 100 4 2 1.2 0.001
           false 0 ltac:(lia) ltac:(lia) ltac:(lra) Htau).
Defined.
